(** * Scrollio Playground: the turn-based game engine

    A shallow embedding of the pure state-transition functions of the
    Playground mini-games (TicTacToe, ConnectFour, Rock-Paper-Scissors,
    Battleship, MemoryMatch, NumberDuel, GeoQuiz, Hangman word guess and
    the Turkish Wordle clone), followed by the properties proved about
    them.

    Conventions of the embedding:
    - a JavaScript array is a [list]; reading [a[i]] is [idx a i], which is
      [None] for [undefined] (index negative or past the end);
    - a call that would raise a [TypeError] (a property read on
      [undefined]) is [Throw]; a call that returns [v] is [Return v]; a
      call that would return an array with holes or with non-index
      properties, which the state types cannot describe, is [OffModel];
    - numbers that the code uses as indices, sizes and counters are
      integers ([Z]); strings are lists of UTF-16 code units. *)

From Stdlib Require Import ZArith Lia String Ascii.
From stdpp Require Import base list numbers option pretty.

Local Open Scope Z_scope.

(** ** JavaScript values shared by all games *)

Inductive result (A : Type) : Type :=
  | Return (a : A)
  | Throw
  | OffModel.
Arguments Return {A} a.
Arguments Throw {A}.
Arguments OffModel {A}.

#[global] Instance result_ret : MRet result := fun A a => Return a.
#[global] Instance result_bind : MBind result := fun A B f m =>
  match m with
  | Return a => f a
  | Throw => Throw
  | OffModel => OffModel
  end.

Definition returns {A} (m : result A) : Prop := exists a, m = Return a.

(** [a[i]] for an integer [i]. *)
Definition idx {A} (a : list A) (i : Z) : option A :=
  if decide (0 <= i) then a !! Z.to_nat i else None.

(** [a[i].field...]: the element must exist, else the property read raises. *)
Definition elem {A} (a : list A) (i : Z) : result A :=
  match idx a i with
  | Some x => Return x
  | None => Throw
  end.

(** [a[i] = v] on an index that is known to be inside the array. *)
Definition set_idx {A} (a : list A) (i : Z) (v : A) : list A :=
  if decide (0 <= i) then <[Z.to_nat i := v]> a else a.

(** A string is the sequence of its UTF-16 code units. *)
Abbreviation jsstring := (list N).

Definition str (s : string) : jsstring :=
  map N_of_ascii (list_ascii_of_string s).

(** [s.includes(t)]: [t] occurs in [s] as a contiguous substring. *)
Fixpoint starts_with (t s : jsstring) : bool :=
  match t, s with
  | [], _ => true
  | _ :: _, [] => false
  | x :: t', y :: s' => bool_decide (x = y) && starts_with t' s'
  end.

Fixpoint str_includes (s t : jsstring) : bool :=
  starts_with t s ||
  match s with
  | [] => false
  | _ :: s' => str_includes s' t
  end.

(** [a.includes(x)] and [a.indexOf(x)] on arrays. *)
Definition arr_includes {A} `{EqDecision A} (a : list A) (x : A) : bool :=
  bool_decide (x ∈ a).

Fixpoint indexOf {A} `{EqDecision A} (a : list A) (x : A) : option nat :=
  match a with
  | [] => None
  | y :: a' => if decide (y = x) then Some 0%nat else S <$> indexOf a' x
  end.

(** The number of elements of [l] that satisfy [f]. *)
Definition count {A} (f : A -> bool) (l : list A) : nat :=
  length (filter (fun x => f x = true) l).

Definition b2n (b : bool) : nat := if b then 1%nat else 0%nat.

(** [l[Math.floor(Math.random() * l.length)]]: the draw ranges over the
    indices of [l]; it is an input [k] of the model, reduced into range. *)
Definition pick {A} (d : A) (l : list A) (k : nat) : A :=
  nth (k mod length l)%nat l d.

(** ** The generic game contract (playground/types.ts) *)

Inductive Player : Type := P1 | P2.
Inductive GameStatus : Type := in_progress | win | draw | lose.
Inductive GameMode : Type := singleplayer | multiplayer.

#[global] Instance Player_eq_dec : EqDecision Player.
Proof. solve_decision. Defined.
#[global] Instance GameStatus_eq_dec : EqDecision GameStatus.
Proof. solve_decision. Defined.
#[global] Instance GameMode_eq_dec : EqDecision GameMode.
Proof. solve_decision. Defined.

(** [p === 'P1' ? 'P2' : 'P1'] *)
Definition other (p : Player) : Player :=
  if decide (p = P1) then P2 else P1.

Definition is_terminal (st : GameStatus) : bool :=
  match st with
  | in_progress => false
  | _ => true
  end.

(** ** TicTacToe (tictactoe/logic.ts) *)

Module TicTacToe.

Definition CellValue : Type := option Player.
Definition TicTacToeBoardState : Type := list CellValue.

Record TicTacToeState : Type := mkState {
  board : TicTacToeBoardState;
  currentPlayer : Player;
  status : GameStatus;
  winner : option Player
}.

#[global] Instance State_eq_dec : EqDecision TicTacToeState.
Proof. solve_decision. Defined.

Definition INITIAL_BOARD : TicTacToeBoardState := replicate 9 None.

Definition INITIAL_STATE : TicTacToeState :=
  {| board := INITIAL_BOARD; currentPlayer := P1;
     status := in_progress; winner := None |}.

Definition WINNING_COMBINATIONS : list (Z * Z * Z) :=
  [ (0, 1, 2); (3, 4, 5); (6, 7, 8);
    (0, 3, 6); (1, 4, 7); (2, 5, 8);
    (0, 4, 8); (2, 4, 6) ].

(** [board[a] && board[a] === board[b] && board[a] === board[c]] *)
Definition owns (board : TicTacToeBoardState) (combo : Z * Z * Z)
  : option Player :=
  let '(a, b, c) := combo in
  match idx board a with
  | Some (Some p) =>
      if bool_decide (idx board b = Some (Some p))
         && bool_decide (idx board c = Some (Some p))
      then Some p else None
  | _ => None
  end.

Fixpoint firstOwner (board : TicTacToeBoardState) (combos : list (Z * Z * Z))
  : option Player :=
  match combos with
  | [] => None
  | combo :: rest =>
      match owns board combo with
      | Some p => Some p
      | None => firstOwner board rest
      end
  end.

Definition checkWinner (board : TicTacToeBoardState) : option Player :=
  firstOwner board WINNING_COMBINATIONS.

Definition checkDraw (board : TicTacToeBoardState) : bool :=
  forallb (fun cell => bool_decide (cell <> None)) board.

Definition makeMove (state : TicTacToeState) (index : Z) : TicTacToeState :=
  if bool_decide (status state <> in_progress)
     || bool_decide (idx (board state) index <> Some None)
  then state
  else
    let newBoard := set_idx (board state) index (Some (currentPlayer state)) in
    let winner := checkWinner newBoard in
    match winner with
    | Some _ =>
        {| board := newBoard; currentPlayer := currentPlayer state;
           status := win; winner := winner |}
    | None =>
        if checkDraw newBoard
        then {| board := newBoard; currentPlayer := currentPlayer state;
                status := draw; winner := winner |}
        else {| board := newBoard; currentPlayer := other (currentPlayer state);
                status := in_progress; winner := winner |}
    end.

End TicTacToe.

(** ** ConnectFour (fourinarow/logic.ts) *)

Module FourInARow.

Definition CellValue : Type := option Player.
Definition FourInARowBoardState : Type := list (list CellValue).

Record FourInARowState : Type := mkState {
  board : FourInARowBoardState;
  currentPlayer : Player;
  status : GameStatus;
  winner : option Player
}.

#[global] Instance State_eq_dec : EqDecision FourInARowState.
Proof. solve_decision. Defined.

Definition ROWS : Z := 6.
Definition COLS : Z := 7.

Definition INITIAL_BOARD : FourInARowBoardState :=
  replicate (Z.to_nat ROWS) (replicate (Z.to_nat COLS) None).

Definition INITIAL_STATE : FourInARowState :=
  {| board := INITIAL_BOARD; currentPlayer := P1;
     status := in_progress; winner := None |}.

(** [board[r][c]]: raises when row [r] is missing; the cell itself may be
    [undefined]. *)
Definition cell (board : FourInARowBoardState) (r c : Z)
  : result (option CellValue) :=
  row ← elem board r; Return (idx row c).

(** The test of one run of four starting at [(r, c)] in direction
    [(dr, dc)], with JavaScript's left-to-right short-circuiting. *)
Definition run4 (board : FourInARowBoardState) (r c dr dc : Z)
  : result (option Player) :=
  x0 ← cell board r c;
  match x0 with
  | Some (Some p) =>
      x1 ← cell board (r + dr) (c + dc);
      if bool_decide (x1 = Some (Some p)) then
        x2 ← cell board (r + 2 * dr) (c + 2 * dc);
        if bool_decide (x2 = Some (Some p)) then
          x3 ← cell board (r + 3 * dr) (c + 3 * dc);
          if bool_decide (x3 = Some (Some p)) then Return (Some p)
          else Return None
        else Return None
      else Return None
  | _ => Return None
  end.

(** One of the four nested [for] loops: the first start cell whose run is
    owned decides; [k] continues with the next loop. *)
Fixpoint scan (board : FourInARowBoardState) (dr dc : Z)
    (starts : list (Z * Z)) (k : result (option Player))
  : result (option Player) :=
  match starts with
  | [] => k
  | (r, c) :: rest =>
      o ← run4 board r c dr dc;
      match o with
      | Some p => Return (Some p)
      | None => scan board dr dc rest k
      end
  end.

(** [for (r = r0; r < r1; r++) for (c = c0; c < c1; c++)] *)
Definition grid (r0 r1 c0 c1 : Z) : list (Z * Z) :=
  r ← seqZ r0 (r1 - r0); c ← seqZ c0 (c1 - c0); [(r, c)].

Definition checkWinner (board : FourInARowBoardState) : result (option Player) :=
  scan board 0 1 (grid 0 ROWS 0 (COLS - 3))
    (scan board 1 0 (grid 0 (ROWS - 3) 0 COLS)
      (scan board 1 1 (grid 0 (ROWS - 3) 0 (COLS - 3))
        (scan board (-1) 1 (grid 3 ROWS 0 (COLS - 3))
          (Return None)))).

(** [board[0].every(cell => cell !== null)] *)
Definition checkDraw (board : FourInARowBoardState) : result bool :=
  top ← elem board 0;
  Return (forallb (fun c => bool_decide (c <> None)) top).

(** [for (let r = ROWS - 1; r >= 0; r--)], counting the rows still to
    visit; the result is the row found, or [-1]. *)
Fixpoint lowestEmptyRow (board : FourInARowBoardState) (colIndex : Z)
    (n : nat) : result Z :=
  match n with
  | O => Return (-1)
  | S r =>
      x ← cell board (Z.of_nat r) colIndex;
      if bool_decide (x = Some None) then Return (Z.of_nat r)
      else lowestEmptyRow board colIndex r
  end.

(** [newBoard = board.map(row => [...row]); newBoard[r][c] = v] *)
Definition set_cell (board : FourInARowBoardState) (r c : Z) (v : CellValue)
  : FourInARowBoardState :=
  if decide (0 <= r) then alter (fun row => set_idx row c v) (Z.to_nat r) board
  else board.

Definition makeMove (state : FourInARowState) (colIndex : Z)
  : result FourInARowState :=
  if bool_decide (status state <> in_progress) then Return state
  else
    rowIndex ← lowestEmptyRow (board state) colIndex (Z.to_nat ROWS);
    if bool_decide (rowIndex = -1) then Return state
    else
      let newBoard :=
        set_cell (board state) rowIndex colIndex (Some (currentPlayer state)) in
      winner ← checkWinner newBoard;
      match winner with
      | Some _ =>
          Return {| board := newBoard; currentPlayer := currentPlayer state;
                    status := win; winner := winner |}
      | None =>
          d ← checkDraw newBoard;
          if (d : bool)
          then Return {| board := newBoard; currentPlayer := currentPlayer state;
                         status := draw; winner := winner |}
          else Return {| board := newBoard;
                         currentPlayer := other (currentPlayer state);
                         status := in_progress; winner := winner |}
      end.

(** Both ends of a run of four that starts at [start] lie in rows
    [0 .. n - 1]. *)
Definition run_inside (n dr : Z) (start : Z * Z) : bool :=
  bool_decide (0 <= start.1 < n) && bool_decide (0 <= start.1 + 3 * dr < n).

End FourInARow.

(** ** Rock-Paper-Scissors (rockpaperscissors/logic.ts) *)

Module RockPaperScissors.

Inductive RPSMove : Type := rock | paper | scissors.
#[global] Instance RPSMove_eq_dec : EqDecision RPSMove.
Proof. solve_decision. Defined.

(** [Player | 'draw'] *)
Inductive RoundResult : Type := won (p : Player) | round_draw.
#[global] Instance RoundResult_eq_dec : EqDecision RoundResult.
Proof. solve_decision. Defined.

Record RockPaperScissorsState : Type := mkState {
  currentPlayer : Player;
  status : GameStatus;
  winner : option Player;
  player1Move : option RPSMove;
  player2Move : option RPSMove;
  roundWinner : option RoundResult;
  mode : option GameMode
}.

#[global] Instance State_eq_dec : EqDecision RockPaperScissorsState.
Proof. solve_decision. Defined.

Definition INITIAL_STATE : RockPaperScissorsState :=
  {| currentPlayer := P1; status := in_progress; winner := None;
     player1Move := None; player2Move := None; roundWinner := None;
     mode := Some singleplayer |}.

(** The stored first move may still be [null] when the second is played,
    so both arguments range over [RPSMove | null]. *)
Definition determineWinner (p1 p2 : option RPSMove) : RoundResult :=
  if decide (p1 = p2) then round_draw
  else match p1, p2 with
       | Some rock, Some scissors
       | Some paper, Some rock
       | Some scissors, Some paper => won P1
       | _, _ => won P2
       end.

Definition resolve (result : RoundResult) (s : RockPaperScissorsState)
  : RockPaperScissorsState :=
  {| currentPlayer := currentPlayer s;
     status := if decide (result = round_draw) then draw else win;
     winner := match result with round_draw => None | won p => Some p end;
     player1Move := player1Move s; player2Move := player2Move s;
     roundWinner := Some result; mode := mode s |}.

(** [k] is the draw of the automatic opponent. *)
Definition makeMove (state : RockPaperScissorsState) (move : RPSMove) (k : nat)
  : RockPaperScissorsState :=
  if bool_decide (status state <> in_progress) then state
  else if decide (currentPlayer state = P1) then
    let newState :=
      {| currentPlayer := currentPlayer state; status := status state;
         winner := winner state; player1Move := Some move;
         player2Move := player2Move state; roundWinner := roundWinner state;
         mode := mode state |} in
    if decide (mode state = Some singleplayer) then
      let randomMove := pick rock [rock; paper; scissors] k in
      resolve (determineWinner (Some move) (Some randomMove))
        {| currentPlayer := currentPlayer newState; status := status newState;
           winner := winner newState; player1Move := player1Move newState;
           player2Move := Some randomMove; roundWinner := roundWinner newState;
           mode := mode newState |}
    else
      {| currentPlayer := P2; status := status newState;
         winner := winner newState; player1Move := player1Move newState;
         player2Move := player2Move newState;
         roundWinner := roundWinner newState; mode := mode newState |}
  else
    resolve (determineWinner (player1Move state) (Some move))
      {| currentPlayer := currentPlayer state; status := status state;
         winner := winner state; player1Move := player1Move state;
         player2Move := Some move; roundWinner := roundWinner state;
         mode := mode state |}.

End RockPaperScissors.

(** ** NumberDuel (numberguess/logic.ts) *)

Module NumberGuess.

Inductive Feedback : Type := higher | lower | correct.
#[global] Instance Feedback_eq_dec : EqDecision Feedback.
Proof. solve_decision. Defined.

Record HistoryEntry : Type := mkEntry {
  player : Player;
  guess : Z;
  result : Feedback
}.
#[global] Instance HistoryEntry_eq_dec : EqDecision HistoryEntry.
Proof. solve_decision. Defined.

Record NumberGuessState : Type := mkState {
  currentPlayer : Player;
  status : GameStatus;
  winner : option Player;
  targetNumber : Z;
  minRange : Z;
  maxRange : Z;
  attempts : Z;
  lastGuess : option Z;
  feedback : option Feedback;
  history : list HistoryEntry;
  mode : option GameMode
}.

#[global] Instance State_eq_dec : EqDecision NumberGuessState.
Proof. solve_decision. Defined.

Definition INITIAL_STATE : NumberGuessState :=
  {| currentPlayer := P1; status := in_progress; winner := None;
     targetNumber := 0; minRange := 1; maxRange := 100; attempts := 0;
     lastGuess := None; feedback := None; history := [];
     mode := Some singleplayer |}.

Definition makeGuess (state : NumberGuessState) (g : Z) : NumberGuessState :=
  if bool_decide (status state <> in_progress) then state
  else
    let fb :=
      if decide (g = targetNumber state) then correct
      else if decide (g < targetNumber state) then higher
      else lower in
    let st := if decide (g = targetNumber state) then win else in_progress in
    let w := if decide (g = targetNumber state)
             then Some (currentPlayer state) else None in
    let newHistory :=
      history state ++
        [ {| player := currentPlayer state; guess := g; result := fb |} ] in
    let nextPlayer :=
      if bool_decide (st = in_progress)
         && bool_decide (mode state = Some multiplayer)
      then other (currentPlayer state) else currentPlayer state in
    {| currentPlayer := nextPlayer; status := st; winner := w;
       targetNumber := targetNumber state; minRange := minRange state;
       maxRange := maxRange state; attempts := attempts state + 1;
       lastGuess := Some g; feedback := Some fb; history := newHistory;
       mode := mode state |}.

End NumberGuess.

(** ** GeoQuiz (tinygeoguess/logic.ts) *)

Module TinyGeoGuess.

Record Location : Type := mkLocation {
  id : jsstring;
  name : jsstring;
  image : jsstring;
  options : list jsstring
}.
#[global] Instance Location_eq_dec : EqDecision Location.
Proof. solve_decision. Defined.

Inductive LastResult : Type := res_correct | res_wrong.
#[global] Instance LastResult_eq_dec : EqDecision LastResult.
Proof. solve_decision. Defined.

Record TinyGeoGuessState : Type := mkState {
  currentPlayer : Player;
  status : GameStatus;
  winner : option Player;
  currentLocation : Location;
  score : Z;
  round : Z;
  totalRounds : Z;
  lastResult : option LastResult;
  mode : option GameMode
}.

#[global] Instance State_eq_dec : EqDecision TinyGeoGuessState.
Proof. solve_decision. Defined.

Definition unsplash (photo : string) : jsstring :=
  str ("https://images.unsplash.com/photo-" ++ photo
       ++ "?q=80&w=1000&auto=format&fit=crop")%string.

Definition paris : Location :=
  {| id := str "1"; name := str "Paris";
     image := unsplash "1502602898657-3e91760cbb34";
     options := [str "London"; str "Paris"; str "Berlin"; str "Madrid"] |}.

Definition LOCATIONS : list Location :=
  [ paris;
    {| id := str "2"; name := str "New York";
       image := unsplash "1496442226666-8d4d0e62e6e9";
       options := [str "Chicago"; str "New York"; str "Toronto"; str "Sydney"] |};
    {| id := str "3"; name := str "Tokyo";
       image := unsplash "1503899036084-c55cdd92da26";
       options := [str "Seoul"; str "Beijing"; str "Tokyo"; str "Bangkok"] |};
    {| id := str "4"; name := str "Sydney";
       image := unsplash "1506973035872-a4ec16b8e8d9";
       options := [str "Melbourne"; str "Sydney"; str "Auckland"; str "Vancouver"] |};
    {| id := str "5"; name := str "Rome";
       image := unsplash "1552832230-c0197dd311b5";
       options := [str "Rome"; str "Athens"; str "Istanbul"; str "Cairo"] |} ].

Definition TOTAL_ROUNDS : Z := 5.

Definition INITIAL_STATE : TinyGeoGuessState :=
  {| currentPlayer := P1; status := in_progress; winner := None;
     currentLocation := paris; score := 0; round := 1;
     totalRounds := TOTAL_ROUNDS; lastResult := None;
     mode := Some singleplayer |}.

(** [k] is the draw that selects the next location. *)
Definition makeGuess (state : TinyGeoGuessState) (g : jsstring) (k : nat)
  : TinyGeoGuessState :=
  if bool_decide (status state <> in_progress) then state
  else
    let isCorrect := bool_decide (g = name (currentLocation state)) in
    let newScore := if isCorrect then score state + 1 else score state in
    let nextRound := round state + 1 in
    let over := bool_decide (nextRound > totalRounds state) in
    {| currentPlayer := currentPlayer state;
       status := if over then win else in_progress;
       winner := if over then Some P1 else None;
       currentLocation := pick paris LOCATIONS k;
       score := newScore; round := nextRound;
       totalRounds := totalRounds state;
       lastResult := Some (if isCorrect then res_correct else res_wrong);
       mode := mode state |}.

End TinyGeoGuess.

(** ** Hangman word guess (wordguess/logic.ts) *)

Module WordGuess.

Record WordGuessState : Type := mkState {
  board : list jsstring;
  currentPlayer : Player;
  status : GameStatus;
  winner : option Player;
  targetWord : jsstring;
  guessedLetters : list jsstring;
  remainingAttempts : Z;
  maxAttempts : Z;
  mode : option GameMode
}.

#[global] Instance State_eq_dec : EqDecision WordGuessState.
Proof. solve_decision. Defined.

Definition MAX_ATTEMPTS : Z := 6.

Definition INITIAL_STATE : WordGuessState :=
  {| board := []; currentPlayer := P1; status := in_progress; winner := None;
     targetWord := []; guessedLetters := [];
     remainingAttempts := MAX_ATTEMPTS; maxAttempts := MAX_ATTEMPTS;
     mode := Some singleplayer |}.

Section WithRuntime.

(** [String.prototype.toUpperCase] of the JavaScript runtime. *)
Variable toUpperCase : jsstring -> jsstring.

Definition makeGuess (state : WordGuessState) (letter : jsstring)
  : WordGuessState :=
  if bool_decide (status state <> in_progress) then state
  else
    let upperLetter := toUpperCase letter in
    if arr_includes (guessedLetters state) upperLetter then state
    else
      let newGuessedLetters := guessedLetters state ++ [upperLetter] in
      let newRemainingAttempts :=
        if str_includes (targetWord state) upperLetter
        then remainingAttempts state
        else remainingAttempts state - 1 in
      let isWin :=
        forallb (fun char => arr_includes newGuessedLetters [char])
                (targetWord state) in
      let isLoss := bool_decide (newRemainingAttempts <= 0) in
      {| board := board state; currentPlayer := currentPlayer state;
         status := if isLoss then lose
                   else if isWin then win else in_progress;
         winner := if isWin then Some P1 else None;
         targetWord := targetWord state;
         guessedLetters := newGuessedLetters;
         remainingAttempts := newRemainingAttempts;
         maxAttempts := maxAttempts state; mode := mode state |}.

End WithRuntime.

End WordGuess.

(** ** MemoryMatch (memorymatch/logic.ts) *)

Module MemoryMatch.

Record Card : Type := mkCard {
  id : jsstring;
  value : jsstring;
  isFlipped : bool;
  isMatched : bool
}.
#[global] Instance Card_eq_dec : EqDecision Card.
Proof. solve_decision. Defined.

Record MemoryMatchState : Type := mkState {
  board : list Card;
  currentPlayer : Player;
  status : GameStatus;
  winner : option Player;
  movesCount : Z;
  flippedIndices : list Z;
  mode : option GameMode
}.

#[global] Instance State_eq_dec : EqDecision MemoryMatchState.
Proof. solve_decision. Defined.

Definition INITIAL_STATE : MemoryMatchState :=
  {| board := []; currentPlayer := P1; status := in_progress; winner := None;
     movesCount := 0; flippedIndices := []; mode := Some singleplayer |}.

Definition with_flipped (c : Card) (b : bool) : Card :=
  {| id := id c; value := value c; isFlipped := b; isMatched := isMatched c |}.

Definition with_matched (c : Card) (b : bool) : Card :=
  {| id := id c; value := value c; isFlipped := isFlipped c; isMatched := b |}.

Definition flipCard (state : MemoryMatchState) (index : Z)
  : result MemoryMatchState :=
  if bool_decide (status state <> in_progress) then Return state
  else if bool_decide (2 <= length (flippedIndices state))%nat then Return state
  else
    card ← elem (board state) index;
    if isFlipped card || isMatched card then Return state
    else
      let newBoard := set_idx (board state) index (with_flipped card true) in
      Return {| board := newBoard; currentPlayer := currentPlayer state;
                status := status state; winner := winner state;
                movesCount := movesCount state;
                flippedIndices := flippedIndices state ++ [index];
                mode := mode state |}.

Definition checkMatch (state : MemoryMatchState) : result MemoryMatchState :=
  match flippedIndices state with
  | [idx1; idx2] =>
      card1 ← elem (board state) idx1;
      card2 ← elem (board state) idx2;
      let newBoard :=
        if decide (value card1 = value card2)
        then set_idx (set_idx (board state) idx1 (with_matched card1 true))
                     idx2 (with_matched card2 true)
        else set_idx (set_idx (board state) idx1 (with_flipped card1 false))
                     idx2 (with_flipped card2 false) in
      let allMatched := forallb isMatched newBoard in
      Return {| board := newBoard; currentPlayer := currentPlayer state;
                status := if allMatched then win else in_progress;
                winner := if allMatched then Some P1 else None;
                movesCount := movesCount state + 1;
                flippedIndices := [];
                mode := mode state |}
  | _ => Return state
  end.

End MemoryMatch.

(** ** Turkish Wordle (turkishwordle/logic.ts) *)

Module TurkishWordle.

Inductive LetterFeedback : Type := correct | present | absent | empty.
#[global] Instance LetterFeedback_eq_dec : EqDecision LetterFeedback.
Proof. solve_decision. Defined.

(** [char] is one element of [word.split('')], a single code unit. *)
Record WordleLetter : Type := mkLetter {
  char : N;
  feedback : LetterFeedback
}.
#[global] Instance WordleLetter_eq_dec : EqDecision WordleLetter.
Proof. solve_decision. Defined.

(** A row starts as [Array(wordLength).fill(null)]: a slot is [None]
    until a pass fills it. *)
Abbreviation GuessRow := (list (option WordleLetter)).

Record TurkishWordleState : Type := mkState {
  currentPlayer : Player;
  mode : option GameMode;
  winner : option Player;
  targetWord : jsstring;
  guesses : list GuessRow;
  maxAttempts : Z;
  currentAttemptIndex : Z;
  wordLength : Z;
  status : GameStatus;
  currentGuess : jsstring;
  errorMessage : option jsstring
}.

#[global] Instance State_eq_dec : EqDecision TurkishWordleState.
Proof. solve_decision. Defined.

(** [row[i] = v] on a row that may be shorter than [i]: JavaScript grows
    the array and leaves the skipped slots empty. *)
Definition row_set (row : GuessRow) (i : nat) (v : WordleLetter) : GuessRow :=
  if decide (i < length row)%nat then <[i := Some v]> row
  else row ++ replicate (i - length row) None ++ [Some v].

(** First pass: mark CORRECT and consume the matched target letter. *)
Fixpoint firstPass (targetLetters : list N) (guessLetters : list N) (i : nat)
    (row : GuessRow) (available : list (option N))
  : GuessRow * list (option N) :=
  match guessLetters with
  | [] => (row, available)
  | c :: rest =>
      if decide (targetLetters !! i = Some c)
      then firstPass targetLetters rest (S i)
             (row_set row i {| char := c; feedback := correct |})
             (<[i := None]> available)
      else firstPass targetLetters rest (S i) row available
  end.

(** Second pass: mark PRESENT (consuming one available instance) or
    ABSENT on the slots the first pass left unmarked. *)
Fixpoint secondPass (guessLetters : list N) (i : nat)
    (row : GuessRow) (available : list (option N)) : GuessRow :=
  match guessLetters with
  | [] => row
  | c :: rest =>
      match row !! i with
      | Some (Some _) => secondPass rest (S i) row available
      | _ =>
          match indexOf available (Some c) with
          | Some targetIndex =>
              secondPass rest (S i)
                (row_set row i {| char := c; feedback := present |})
                (<[targetIndex := None]> available)
          | None =>
              secondPass rest (S i)
                (row_set row i {| char := c; feedback := absent |})
                available
          end
      end
  end.

Definition SHORT_WORD : jsstring :=
  str "Kelime " ++ [231%N] ++ str "ok k" ++ [305%N] ++ str "sa".
Definition INVALID_WORD : jsstring :=
  str "Ge" ++ [231%N] ++ str "ersiz kelime".

(** [{ ...state, errorMessage: msg }] *)
Definition with_error (state : TurkishWordleState) (msg : jsstring)
  : TurkishWordleState :=
  {| currentPlayer := currentPlayer state; mode := mode state;
     winner := winner state; targetWord := targetWord state;
     guesses := guesses state; maxAttempts := maxAttempts state;
     currentAttemptIndex := currentAttemptIndex state;
     wordLength := wordLength state; status := status state;
     currentGuess := currentGuess state;
     errorMessage := Some msg |}.

(** The code units kept by [/[^A-Za-zÇçĞğIıİiÖöŞşÜü]/g]. *)
Definition isTurkishLetter (u : N) : bool :=
  (bool_decide (65 <= u <= 90) || bool_decide (97 <= u <= 122)
   || bool_decide (u ∈ [199; 231; 286; 287; 73; 305; 304; 105;
                        214; 246; 350; 351; 220; 252]))%N.

Section WithRuntime.

(** [String.prototype.toLocaleUpperCase('tr-TR')] of the JavaScript
    runtime, and the dictionary exported by [words.ts]. *)
Variable toLocaleUpperCase : jsstring -> jsstring.
Variable ALLOWED_WORDS_TR : list jsstring.

Definition isValidTurkishWord (word : jsstring) (wordLength : Z) : bool :=
  if bool_decide (Z.of_nat (length word) <> wordLength) then false
  else arr_includes ALLOWED_WORDS_TR word.

Definition evaluateTurkishWordleGuess (targetWord guess : jsstring)
  : GuessRow :=
  let wordLength := length targetWord in
  let targetLetters := toLocaleUpperCase targetWord in
  let guessLetters := toLocaleUpperCase guess in
  let row := replicate wordLength None in
  let availableTargetLetters := map Some targetLetters in
  let '(row1, available1) :=
    firstPass targetLetters guessLetters 0 row availableTargetLetters in
  secondPass guessLetters 0 row1 available1.

Definition submitGuess (state : TurkishWordleState) : TurkishWordleState :=
  if bool_decide (status state <> in_progress) then state
  else
    let guess := toLocaleUpperCase (currentGuess state) in
    if bool_decide (Z.of_nat (length guess) <> wordLength state)
    then with_error state SHORT_WORD
    else if negb (isValidTurkishWord guess (wordLength state))
    then with_error state INVALID_WORD
    else
      let row := evaluateTurkishWordleGuess (targetWord state) guess in
      let newGuesses := guesses state ++ [row] in
      let isWin := bool_decide (guess = targetWord state) in
      let isLose :=
        negb isWin
        && bool_decide (Z.of_nat (length newGuesses) >= maxAttempts state) in
      {| currentPlayer := currentPlayer state; mode := mode state;
         winner := if isWin then Some P1 else None;
         targetWord := targetWord state;
         guesses := newGuesses; maxAttempts := maxAttempts state;
         currentAttemptIndex := currentAttemptIndex state + 1;
         wordLength := wordLength state;
         status := if isWin then win
                   else if isLose then lose else in_progress;
         currentGuess := [];
         errorMessage := None |}.

Definition updateCurrentGuess (state : TurkishWordleState) (text : jsstring)
  : TurkishWordleState :=
  if bool_decide (status state <> in_progress) then state
  else
    let cleaned := toLocaleUpperCase (filter (fun u => isTurkishLetter u = true) text) in
    if bool_decide (Z.of_nat (length cleaned) > wordLength state) then state
    else
      {| currentPlayer := currentPlayer state; mode := mode state;
         winner := winner state; targetWord := targetWord state;
         guesses := guesses state; maxAttempts := maxAttempts state;
         currentAttemptIndex := currentAttemptIndex state;
         wordLength := wordLength state; status := status state;
         currentGuess := cleaned;
         errorMessage := None |}.

End WithRuntime.

(** The action of [toLocaleUpperCase('tr-TR')] on the letters that
    [updateCurrentGuess] lets through, one code unit at a time; it
    instantiates the runtime when the model is run on examples. *)
Definition trUpperUnit (u : N) : N :=
  (if decide (u = 105) then 304          (* i -> İ *)
   else if decide (u = 305) then 73      (* ı -> I *)
   else if decide (97 <= u <= 122) then u - 32
   else if decide (u = 231) then 199     (* ç -> Ç *)
   else if decide (u = 287) then 286     (* ğ -> Ğ *)
   else if decide (u = 246) then 214     (* ö -> Ö *)
   else if decide (u = 351) then 350     (* ş -> Ş *)
   else if decide (u = 252) then 220     (* ü -> Ü *)
   else u)%N.

Definition trUpper (s : jsstring) : jsstring := map trUpperUnit s.

(** Reading a scored row: the letter object in slot [i], if any; its
    feedback; and the number of slots that award letter [c] a [correct]
    or [present] mark. *)
Definition slot (row : GuessRow) (i : nat) : option WordleLetter :=
  mjoin (row !! i).

Definition feedbackAt (row : GuessRow) (i : nat) : option LetterFeedback :=
  feedback <$> slot row i.

Definition scores (c : N) (s : option WordleLetter) : bool :=
  match s with
  | Some l =>
      bool_decide (char l = c)
      && (bool_decide (feedback l = correct)
          || bool_decide (feedback l = present))
  | None => false
  end.

Definition marksFor (c : N) (row : GuessRow) : nat :=
  count (scores c) row.

Definition occurrences (c : N) (word : list N) : nat :=
  count (fun u => bool_decide (u = c)) word.

(** The instances of [c] that the pool still offers. *)
Definition availableFor (c : N) (available : list (option N)) : nat :=
  count (fun o => bool_decide (o = Some c)) available.

(** What the second pass guarantees about slot [j] of its result
    [final], when started at position [i] on [row] with letters [gs]. *)
Definition pass2_post (gs : list N) (j i : nat) (row final : GuessRow) : Prop :=
  ((j < i)%nat \/ gs !! (j - i)%nat = None -> slot final j = slot row j)
  /\ (forall ch, (i <= j)%nat -> gs !! (j - i)%nat = Some ch ->
        match slot row j with
        | Some l => slot final j = Some l
        | None =>
            slot final j = Some {| char := ch; feedback := present |}
            \/ slot final j = Some {| char := ch; feedback := absent |}
        end).

End TurkishWordle.

(** ** Battleship (battleship/types.ts, battleship/logic.ts) *)

Module Battleship.

Definition GRID_SIZE : Z := 6.

Inductive BattleshipPhase : Type :=
  setup_p1 | setup_p2 | phase_in_progress | finished.
Inductive Orientation : Type := horizontal | vertical.
Inductive CellStatus : Type := empty | ship | hit | miss.

#[global] Instance BattleshipPhase_eq_dec : EqDecision BattleshipPhase.
Proof. solve_decision. Defined.
#[global] Instance Orientation_eq_dec : EqDecision Orientation.
Proof. solve_decision. Defined.
#[global] Instance CellStatus_eq_dec : EqDecision CellStatus.
Proof. solve_decision. Defined.

Record Position : Type := mkPosition {
  row : Z;
  col : Z;
  orientation : Orientation
}.
#[global] Instance Position_eq_dec : EqDecision Position.
Proof. solve_decision. Defined.

Record Ship : Type := mkShip {
  id : jsstring;
  name : jsstring;
  size : Z;
  hits : Z;
  placed : bool;
  position : option Position
}.
#[global] Instance Ship_eq_dec : EqDecision Ship.
Proof. solve_decision. Defined.

Definition Grid : Type := list (list CellStatus).

Record PlayerBoardState : Type := mkPlayer {
  grid : Grid;
  ships : list Ship;
  shots : Grid
}.
#[global] Instance PlayerBoardState_eq_dec : EqDecision PlayerBoardState.
Proof. solve_decision. Defined.

Record Setup : Type := mkSetup {
  selectedShipId : option jsstring;
  setup_orientation : Orientation
}.
#[global] Instance Setup_eq_dec : EqDecision Setup.
Proof. solve_decision. Defined.

Record BattleshipState : Type := mkState {
  currentPlayer : Player;
  status : GameStatus;
  winner : option Player;
  mode : option GameMode;
  phase : BattleshipPhase;
  p1 : PlayerBoardState;
  p2 : PlayerBoardState;
  lastActionMessage : option jsstring;
  setup : Setup
}.
#[global] Instance State_eq_dec : EqDecision BattleshipState.
Proof. solve_decision. Defined.

Definition fresh (i n : string) (sz : Z) : Ship :=
  {| id := str i; name := str n; size := sz; hits := 0;
     placed := false; position := None |}.

Definition INITIAL_SHIPS : list Ship :=
  [ fresh "carrier" "Carrier" 4; fresh "battleship" "Battleship" 3;
    fresh "cruiser" "Cruiser" 3; fresh "destroyer" "Destroyer" 2;
    fresh "submarine" "Submarine" 2 ].

Definition createEmptyGrid : Grid :=
  replicate (Z.to_nat GRID_SIZE) (replicate (Z.to_nat GRID_SIZE) empty).

Definition createInitialPlayerState : PlayerBoardState :=
  {| grid := createEmptyGrid; ships := INITIAL_SHIPS;
     shots := createEmptyGrid |}.

Definition INITIAL_STATE : BattleshipState :=
  {| currentPlayer := P1; status := in_progress; winner := None;
     mode := Some multiplayer; phase := setup_p1;
     p1 := createInitialPlayerState; p2 := createInitialPlayerState;
     lastActionMessage := Some (str "Player 1: Place your ships!");
     setup := {| selectedShipId := None; setup_orientation := horizontal |} |}.

Definition startNewGame : BattleshipState := INITIAL_STATE.

(** Record updates [{ ...state, field: v }]. *)
Definition with_message (s : BattleshipState) (m : option jsstring)
  : BattleshipState :=
  {| currentPlayer := currentPlayer s; status := status s;
     winner := winner s; mode := mode s; phase := phase s;
     p1 := p1 s; p2 := p2 s; lastActionMessage := m; setup := setup s |}.

Definition with_setup (s : BattleshipState) (u : Setup) : BattleshipState :=
  {| currentPlayer := currentPlayer s; status := status s;
     winner := winner s; mode := mode s; phase := phase s;
     p1 := p1 s; p2 := p2 s; lastActionMessage := lastActionMessage s;
     setup := u |}.

(** [grid[r][c]]: raises when row [r] is missing. *)
Definition cellAt (g : Grid) (r c : Z) : result (option CellStatus) :=
  rw ← elem g r; Return (idx rw c).

(** [grid[r][c] = v]: raises when row [r] is missing; a write outside the
    row would leave a row that is no longer an array of cells. *)
Definition write (g : Grid) (r c : Z) (v : CellStatus) : result Grid :=
  rw ← elem g r;
  if decide (0 <= c < Z.of_nat (length rw))
  then Return (set_idx g r (set_idx rw c v))
  else OffModel.

(** The cells [(row, col + i)] or [(row + i, col)] for [0 <= i < size]. *)
Definition span (r c : Z) (o : Orientation) (sz : Z) : list (Z * Z) :=
  (fun i => match o with
            | horizontal => (r, c + i)
            | vertical => (r + i, c)
            end) <$> seqZ 0 sz.

Fixpoint allEmpty (g : Grid) (cells : list (Z * Z)) : result bool :=
  match cells with
  | [] => Return true
  | (r, c) :: rest =>
      x ← cellAt g r c;
      if bool_decide (x <> Some empty) then Return false
      else allEmpty g rest
  end.

Definition canPlaceShip (g : Grid) (shipSize r c : Z) (o : Orientation)
  : result bool :=
  match o with
  | horizontal =>
      if bool_decide (c + shipSize > GRID_SIZE) then Return false
      else allEmpty g (span r c horizontal shipSize)
  | vertical =>
      if bool_decide (r + shipSize > GRID_SIZE) then Return false
      else allEmpty g (span r c vertical shipSize)
  end.

(** [for (i...) grid[..][..] = v] over the cells of a span. *)
Fixpoint writeAll (g : Grid) (cells : list (Z * Z)) (v : CellStatus)
  : result Grid :=
  match cells with
  | [] => Return g
  | (r, c) :: rest => g' ← write g r c v; writeAll g' rest v
  end.

(** [ships.findIndex(s => s.id === shipId)] *)
Fixpoint findIndex (l : list Ship) (shipId : jsstring) : option nat :=
  match l with
  | [] => None
  | s :: rest =>
      if decide (id s = shipId) then Some 0%nat
      else S <$> findIndex rest shipId
  end.

Definition placeShip (state : BattleshipState) (r c : Z)
  : result BattleshipState :=
  if bool_decide (phase state <> setup_p1)
     && bool_decide (phase state <> setup_p2) then Return state
  else
    match selectedShipId (setup state) with
    | None => Return state
    | Some [] => Return state
    | Some shipId =>
        let isP1 := bool_decide (phase state = setup_p1) in
        let playerState := if isP1 then p1 state else p2 state in
        match findIndex (ships playerState) shipId with
        | None => Return state
        | Some shipIndex =>
            sh ← elem (ships playerState) (Z.of_nat shipIndex);
            cleared ←
              match placed sh, position sh with
              | true, Some pos =>
                  writeAll (grid playerState)
                    (span (row pos) (col pos) (orientation pos) (size sh)) empty
              | _, _ => Return (grid playerState)
              end;
            ok ← canPlaceShip cleared (size sh) r c
                   (setup_orientation (setup state));
            if negb ok
            then Return (with_message state (Some (str "Invalid placement!")))
            else
              newGrid ← writeAll cleared
                (span r c (setup_orientation (setup state)) (size sh)) ship;
              let newShips :=
                <[shipIndex :=
                    {| id := id sh; name := name sh; size := size sh;
                       hits := hits sh; placed := true;
                       position :=
                         Some {| row := r; col := c;
                                 orientation := setup_orientation (setup state) |}
                    |}]> (ships playerState) in
              let newPlayer :=
                {| grid := newGrid; ships := newShips;
                   shots := shots playerState |} in
              Return
                {| currentPlayer := currentPlayer state;
                   status := status state; winner := winner state;
                   mode := mode state; phase := phase state;
                   p1 := if isP1 then newPlayer else p1 state;
                   p2 := if isP1 then p2 state else newPlayer;
                   lastActionMessage := None; setup := setup state |}
        end
    end.

Definition selectShip (state : BattleshipState) (shipId : jsstring)
  : BattleshipState :=
  with_setup state
    {| selectedShipId := Some shipId;
       setup_orientation := setup_orientation (setup state) |}.

Definition toggleOrientation (state : BattleshipState) : BattleshipState :=
  with_setup state
    {| selectedShipId := selectedShipId (setup state);
       setup_orientation :=
         if decide (setup_orientation (setup state) = horizontal)
         then vertical else horizontal |}.

Definition finishSetup (state : BattleshipState) : BattleshipState :=
  if decide (phase state = setup_p1) then
    if existsb (fun s => negb (placed s)) (ships (p1 state))
    then with_message state (Some (str "Place all ships first!"))
    else
      {| currentPlayer := P2; status := status state; winner := winner state;
         mode := mode state; phase := setup_p2;
         p1 := p1 state; p2 := p2 state;
         lastActionMessage := Some (str "Player 2: Place your ships!");
         setup := {| selectedShipId := None;
                     setup_orientation := horizontal |} |}
  else if decide (phase state = setup_p2) then
    if existsb (fun s => negb (placed s)) (ships (p2 state))
    then with_message state (Some (str "Place all ships first!"))
    else
      {| currentPlayer := P1; status := status state; winner := winner state;
         mode := mode state; phase := phase_in_progress;
         p1 := p1 state; p2 := p2 state;
         lastActionMessage := Some (str "Game Started! Player 1 turn.");
         setup := setup state |}
  else state.

(** Text of the messages. [String.fromCharCode] keeps the low 16 bits of
    its argument; [`${n}`] prints an integer in decimal. *)
Definition fromCharCode (n : Z) : jsstring := [Z.to_N (n mod 65536)].
Definition numToString (n : Z) : jsstring := str (pretty n).
Definition playerName (p : Player) : jsstring :=
  match p with P1 => str "P1" | P2 => str "P2" end.

(** [row === r && col >= c && col < c + size] for a horizontal ship, and
    the same along the column for a vertical one. *)
Definition isThisShip (sh : Ship) (pos : Position) (r c : Z) : bool :=
  match orientation pos with
  | horizontal =>
      bool_decide (r = row pos) && bool_decide (c >= col pos)
      && bool_decide (c < col pos + size sh)
  | vertical =>
      bool_decide (c = col pos) && bool_decide (r >= row pos)
      && bool_decide (r < row pos + size sh)
  end.

(** The callback of [newTargetShips.map], on the ship itself ... *)
Definition hitShip (r c : Z) (sh : Ship) : Ship :=
  match position sh with
  | None => sh
  | Some pos =>
      if isThisShip sh pos r c
      then {| id := id sh; name := name sh; size := size sh;
              hits := hits sh + 1; placed := placed sh;
              position := position sh |}
      else sh
  end.

(** ... and on the captured variable [sunkShipName], which keeps the name
    assigned last. *)
Definition sunkBy (r c : Z) (acc : option jsstring) (sh : Ship)
  : option jsstring :=
  match position sh with
  | None => acc
  | Some pos =>
      if isThisShip sh pos r c && bool_decide (hits sh + 1 = size sh)
      then Some (name sh) else acc
  end.

Definition fireShot (state : BattleshipState) (r c : Z)
  : result BattleshipState :=
  if bool_decide (phase state <> phase_in_progress) then Return state
  else
    let isP1 := bool_decide (currentPlayer state = P1) in
    let shooter := if isP1 then p1 state else p2 state in
    let target := if isP1 then p2 state else p1 state in
    fired ← cellAt (shots shooter) r c;
    if bool_decide (fired <> Some empty)
    then Return (with_message state (Some (str "Already shot there!")))
    else
      aimed ← cellAt (grid target) r c;
      let isHit := bool_decide (aimed = Some ship) in
      let shotResult := if isHit then hit else miss in
      let cellLabel := fromCharCode (65 + r) ++ numToString (c + 1) in
      newShooterShots ← write (shots shooter) r c shotResult;
      newTargetGrid ←
        (if isHit then write (grid target) r c hit
         else Return (grid target));
      let newTargetShips :=
        if isHit then hitShip r c <$> ships target else ships target in
      let sunkShipName :=
        if isHit then foldl (sunkBy r c) None (ships target) else None in
      let message :=
        if isHit then
          match sunkShipName with
          | Some (u :: n) =>
              playerName (currentPlayer state) ++ str " sunk "
              ++ (if isP1 then str "P2" else str "P1") ++ str "'s "
              ++ (u :: n) ++ str "!"
          | _ =>
              playerName (currentPlayer state) ++ str " hit a ship at "
              ++ cellLabel ++ str "!"
          end
        else
          playerName (currentPlayer state) ++ str " missed at "
          ++ cellLabel ++ str "." in
      let allSunk :=
        forallb (fun s => bool_decide (hits s = size s)) newTargetShips in
      let newShooter :=
        {| grid := grid shooter; ships := ships shooter;
           shots := newShooterShots |} in
      let newTarget :=
        {| grid := newTargetGrid; ships := newTargetShips;
           shots := shots target |} in
      Return
        {| currentPlayer := if isP1 then P2 else P1;
           status := status state;
           winner := if allSunk then Some (currentPlayer state)
                     else winner state;
           mode := mode state;
           phase := if allSunk then finished else phase state;
           p1 := if isP1 then newShooter else newTarget;
           p2 := if isP1 then newTarget else newShooter;
           lastActionMessage :=
             Some (if allSunk
                   then playerName (currentPlayer state)
                        ++ str " wins! All enemy ships sunk."
                   else message);
           setup := setup state |}.

(** Whose turn it is decides who shoots and who is shot at. *)
Definition attackerBoard (s : BattleshipState) : PlayerBoardState :=
  if bool_decide (currentPlayer s = P1) then p1 s else p2 s.
Definition defenderBoard (s : BattleshipState) : PlayerBoardState :=
  if bool_decide (currentPlayer s = P1) then p2 s else p1 s.
(** The board of the player who was shot at, seen from the state after
    the shot made by [attacker]. *)
Definition boardOfOpponent (attacker : Player) (s' : BattleshipState)
  : PlayerBoardState :=
  if bool_decide (attacker = P1) then p2 s' else p1 s'.

(** The coordinate lies in the recorded span of the ship. *)
Definition covers (sh : Ship) (r c : Z) : bool :=
  match position sh with
  | Some pos => isThisShip sh pos r c
  | None => false
  end.

(** Firing at [(r, c)] hits the last cell of the only remaining unsunk ship
    of the defender: the attacker has not fired there, the defender's grid
    holds a ship there, the cell lies in the span of ship number [k], which
    lacks exactly this hit, and every other ship is sunk and does not cover
    the cell. *)
Definition lastCellOfLastShip (s : BattleshipState) (r c : Z) (k : nat)
    (last : Ship) : Prop :=
  cellAt (shots (attackerBoard s)) r c = Return (Some empty)
  /\ cellAt (grid (defenderBoard s)) r c = Return (Some ship)
  /\ ships (defenderBoard s) !! k = Some last
  /\ covers last r c = true
  /\ hits last + 1 = size last
  /\ (forall j sh, j <> k -> ships (defenderBoard s) !! j = Some sh ->
        hits sh = size sh /\ covers sh r c = false).

End Battleship.

(** ** The engine as one family of transition systems

    Every game exposes named transition functions [(state, payload) ->
    state]. [Action g] collects the calls a consumer can make on game [g],
    with the draws of the random source as part of the payload, and
    [step g] dispatches to the function called. *)

Inductive Game : Type :=
  | GTicTacToe | GConnectFour | GRockPaperScissors | GBattleship
  | GMemoryMatch | GNumberDuel | GGeoQuiz | GHangman | GWordle.

#[global] Instance Game_eq_dec : EqDecision Game.
Proof. solve_decision. Defined.

Definition State (g : Game) : Type :=
  match g with
  | GTicTacToe => TicTacToe.TicTacToeState
  | GConnectFour => FourInARow.FourInARowState
  | GRockPaperScissors => RockPaperScissors.RockPaperScissorsState
  | GBattleship => Battleship.BattleshipState
  | GMemoryMatch => MemoryMatch.MemoryMatchState
  | GNumberDuel => NumberGuess.NumberGuessState
  | GGeoQuiz => TinyGeoGuess.TinyGeoGuessState
  | GHangman => WordGuess.WordGuessState
  | GWordle => TurkishWordle.TurkishWordleState
  end.

Inductive RPSAction : Type :=
  | RPSMakeMove (move : RockPaperScissors.RPSMove) (draw : nat).

Inductive BattleshipAction : Type :=
  | PlaceShip (r c : Z)
  | SelectShip (shipId : jsstring)
  | ToggleOrientation
  | FinishSetup
  | FireShot (r c : Z).

Inductive MemoryAction : Type :=
  | FlipCard (index : Z)
  | CheckMatch.

Inductive GeoAction : Type :=
  | GeoMakeGuess (guess : jsstring) (draw : nat).

Inductive WordleAction : Type :=
  | SubmitGuess
  | UpdateCurrentGuess (text : jsstring).

Definition Action (g : Game) : Type :=
  match g with
  | GTicTacToe => Z
  | GConnectFour => Z
  | GRockPaperScissors => RPSAction
  | GBattleship => BattleshipAction
  | GMemoryMatch => MemoryAction
  | GNumberDuel => Z
  | GGeoQuiz => GeoAction
  | GHangman => jsstring
  | GWordle => WordleAction
  end.

Definition statusOf (g : Game) : State g -> GameStatus :=
  match g with
  | GTicTacToe => TicTacToe.status
  | GConnectFour => FourInARow.status
  | GRockPaperScissors => RockPaperScissors.status
  | GBattleship => Battleship.status
  | GMemoryMatch => MemoryMatch.status
  | GNumberDuel => NumberGuess.status
  | GGeoQuiz => TinyGeoGuess.status
  | GHangman => WordGuess.status
  | GWordle => TurkishWordle.status
  end.

Definition currentPlayerOf (g : Game) : State g -> Player :=
  match g with
  | GTicTacToe => TicTacToe.currentPlayer
  | GConnectFour => FourInARow.currentPlayer
  | GRockPaperScissors => RockPaperScissors.currentPlayer
  | GBattleship => Battleship.currentPlayer
  | GMemoryMatch => MemoryMatch.currentPlayer
  | GNumberDuel => NumberGuess.currentPlayer
  | GGeoQuiz => TinyGeoGuess.currentPlayer
  | GHangman => WordGuess.currentPlayer
  | GWordle => TurkishWordle.currentPlayer
  end.

(** The terminal marker of a state: the status for every game, and for
    Battleship also the [finished] phase. *)
Definition terminal (g : Game) : State g -> Prop :=
  match g with
  | GBattleship => fun s =>
      is_terminal (Battleship.status s) = true
      \/ Battleship.phase s = Battleship.finished
  | g' => fun s => is_terminal (statusOf g' s) = true
  end.



(** Two Battleship states that differ at most in the [setup] selection. *)
Definition same_but_setup (s s' : Battleship.BattleshipState) : Prop :=
  Battleship.currentPlayer s' = Battleship.currentPlayer s
  /\ Battleship.status s' = Battleship.status s
  /\ Battleship.winner s' = Battleship.winner s
  /\ Battleship.mode s' = Battleship.mode s
  /\ Battleship.phase s' = Battleship.phase s
  /\ Battleship.p1 s' = Battleship.p1 s
  /\ Battleship.p2 s' = Battleship.p2 s
  /\ Battleship.lastActionMessage s' = Battleship.lastActionMessage s.

(** The shape of the arrays that the functions index without a check:
    ConnectFour boards have [ROWS] rows; Battleship grids are [GRID_SIZE]
    rows of [GRID_SIZE] cells and a placed ship is recorded inside the
    grid; the flipped indices of MemoryMatch are indices of the board. *)
Definition inGrid (cell : Z * Z) : Prop :=
  0 <= cell.1 < Battleship.GRID_SIZE /\ 0 <= cell.2 < Battleship.GRID_SIZE.

Definition gridShape (g : Battleship.Grid) : Prop :=
  Z.of_nat (length g) = Battleship.GRID_SIZE
  /\ Forall (fun rw => Z.of_nat (length rw) = Battleship.GRID_SIZE) g.

Definition shipInside (sh : Battleship.Ship) : Prop :=
  match Battleship.placed sh, Battleship.position sh with
  | true, Some pos =>
      Forall inGrid
        (Battleship.span (Battleship.row pos) (Battleship.col pos)
           (Battleship.orientation pos) (Battleship.size sh))
  | _, _ => True
  end.

Definition playerShape (p : Battleship.PlayerBoardState) : Prop :=
  gridShape (Battleship.grid p) /\ gridShape (Battleship.shots p)
  /\ Forall shipInside (Battleship.ships p).

Definition well_shaped (g : Game) : State g -> Prop :=
  match g with
  | GConnectFour => fun s =>
      Z.of_nat (length (FourInARow.board s)) = FourInARow.ROWS
  | GBattleship => fun s =>
      playerShape (Battleship.p1 s) /\ playerShape (Battleship.p2 s)
  | GMemoryMatch => fun s =>
      Forall (fun i => 0 <= i < Z.of_nat (length (MemoryMatch.board s)))
             (MemoryMatch.flippedIndices s)
  | _ => fun _ => True
  end.

(** The payloads inside those arrays: a card index on the board, a row of
    the Battleship grid. Cell indices of TicTacToe, columns of ConnectFour
    and columns of Battleship are not restricted. *)
Definition in_range (g : Game) : State g -> Action g -> Prop :=
  match g with
  | GBattleship => fun _ a =>
      match a with
      | PlaceShip r _ | FireShot r _ => 0 <= r < Battleship.GRID_SIZE
      | _ => True
      end
  | GMemoryMatch => fun s a =>
      match a with
      | FlipCard index => 0 <= index < Z.of_nat (length (MemoryMatch.board s))
      | CheckMatch => True
      end
  | _ => fun _ _ => True
  end.

Section Engine.

Variable toUpperCase : jsstring -> jsstring.
Variable toLocaleUpperCase : jsstring -> jsstring.
Variable ALLOWED_WORDS_TR : list jsstring.

Definition step (g : Game) : State g -> Action g -> result (State g) :=
  match g with
  | GTicTacToe => fun s index => Return (TicTacToe.makeMove s index)
  | GConnectFour => fun s colIndex => FourInARow.makeMove s colIndex
  | GRockPaperScissors => fun s a =>
      match a with
      | RPSMakeMove move k => Return (RockPaperScissors.makeMove s move k)
      end
  | GBattleship => fun s a =>
      match a with
      | PlaceShip r c => Battleship.placeShip s r c
      | SelectShip shipId => Return (Battleship.selectShip s shipId)
      | ToggleOrientation => Return (Battleship.toggleOrientation s)
      | FinishSetup => Return (Battleship.finishSetup s)
      | FireShot r c => Battleship.fireShot s r c
      end
  | GMemoryMatch => fun s a =>
      match a with
      | FlipCard index => MemoryMatch.flipCard s index
      | CheckMatch => MemoryMatch.checkMatch s
      end
  | GNumberDuel => fun s guess => Return (NumberGuess.makeGuess s guess)
  | GGeoQuiz => fun s a =>
      match a with
      | GeoMakeGuess guess k => Return (TinyGeoGuess.makeGuess s guess k)
      end
  | GHangman => fun s letter =>
      Return (WordGuess.makeGuess toUpperCase s letter)
  | GWordle => fun s a =>
      match a with
      | SubmitGuess =>
          Return (TurkishWordle.submitGuess
                    toLocaleUpperCase ALLOWED_WORDS_TR s)
      | UpdateCurrentGuess text =>
          Return (TurkishWordle.updateCurrentGuess toLocaleUpperCase s text)
      end
  end.

(** Running a script of calls, stopping at the first that does not
    return. *)
Fixpoint run (g : Game) (s : State g) (script : list (Action g))
  : result (State g) :=
  match script with
  | [] => Return s
  | a :: rest => s' ← step g s a; run g s' rest
  end.

(** The actions that the games reject as illegal: an occupied cell, a
    full column, a coordinate already fired at, an invalid word, a repeated
    letter, a card already face up or matched. *)
Definition illegal (g : Game) : State g -> Action g -> Prop :=
  match g with
  | GTicTacToe => fun s index =>
      exists p, idx (TicTacToe.board s) index = Some (Some p)
  | GConnectFour => fun s colIndex =>
      forall r, 0 <= r < FourInARow.ROWS ->
        exists p, FourInARow.cell (FourInARow.board s) r colIndex
                  = Return (Some (Some p))
  | GBattleship => fun s a =>
      match a with
      | FireShot r c =>
          Battleship.phase s = Battleship.phase_in_progress
          /\ exists x, Battleship.cellAt
                         (Battleship.shots (Battleship.attackerBoard s)) r c
                       = Return (Some x)
                       /\ x <> Battleship.empty
      | _ => False
      end
  | GMemoryMatch => fun s a =>
      match a with
      | FlipCard index =>
          exists card, idx (MemoryMatch.board s) index = Some card
                       /\ (MemoryMatch.isFlipped card = true
                           \/ MemoryMatch.isMatched card = true)
      | CheckMatch => False
      end
  | GHangman => fun s letter =>
      toUpperCase letter ∈ WordGuess.guessedLetters s
  | GWordle => fun s a =>
      match a with
      | SubmitGuess =>
          let guess := toLocaleUpperCase (TurkishWordle.currentGuess s) in
          Z.of_nat (length guess) <> TurkishWordle.wordLength s
          \/ guess ∉ ALLOWED_WORDS_TR
      | UpdateCurrentGuess _ => False
      end
  | _ => fun _ _ => False
  end.

End Engine.

(** ** Vocabulary of further statements about the games *)

(** Player [p] holds the three cells of a TicTacToe combination. *)
Definition ownsLine (board : TicTacToe.TicTacToeBoardState) (p : Player)
    (combo : Z * Z * Z) : Prop :=
  idx board combo.1.1 = Some (Some p)
  /\ idx board combo.1.2 = Some (Some p)
  /\ idx board combo.2 = Some (Some p).

(** Playing a sequence of cell indices from a TicTacToe state. *)
Definition playTicTacToe (s : TicTacToe.TicTacToeState) (moves : list Z)
  : TicTacToe.TicTacToeState :=
  foldl TicTacToe.makeMove s moves.

(** What every TicTacToe state reached by play satisfies: while the game
    is in progress no line is held; [winner] is what [checkWinner] says of
    the board; the status is [win] exactly when there is a winner; and all
    held lines belong to one player. *)
Definition tictactoeInv (s : TicTacToe.TicTacToeState) : Prop :=
  (TicTacToe.status s = in_progress ->
   TicTacToe.checkWinner (TicTacToe.board s) = None)
  /\ TicTacToe.winner s = TicTacToe.checkWinner (TicTacToe.board s)
  /\ (TicTacToe.status s = win <-> TicTacToe.winner s <> None)
  /\ (forall combo1 combo2 p q,
        combo1 ∈ TicTacToe.WINNING_COMBINATIONS ->
        combo2 ∈ TicTacToe.WINNING_COMBINATIONS ->
        ownsLine (TicTacToe.board s) p combo1 ->
        ownsLine (TicTacToe.board s) q combo2 -> p = q).

(** [resetGame(mode)] of rockpaperscissors/logic.ts:
    [{ ...INITIAL_STATE, mode }]. *)
Definition rpsResetGame (m : GameMode) : RockPaperScissors.RockPaperScissorsState :=
  {| RockPaperScissors.currentPlayer :=
       RockPaperScissors.currentPlayer RockPaperScissors.INITIAL_STATE;
     RockPaperScissors.status :=
       RockPaperScissors.status RockPaperScissors.INITIAL_STATE;
     RockPaperScissors.winner :=
       RockPaperScissors.winner RockPaperScissors.INITIAL_STATE;
     RockPaperScissors.player1Move :=
       RockPaperScissors.player1Move RockPaperScissors.INITIAL_STATE;
     RockPaperScissors.player2Move :=
       RockPaperScissors.player2Move RockPaperScissors.INITIAL_STATE;
     RockPaperScissors.roundWinner :=
       RockPaperScissors.roundWinner RockPaperScissors.INITIAL_STATE;
     RockPaperScissors.mode := Some m |}.

(** The status and winner that a round result stands for. *)
Definition rpsOutcome (r : RockPaperScissors.RoundResult)
  : GameStatus * option Player :=
  match r with
  | RockPaperScissors.round_draw => (draw, None)
  | RockPaperScissors.won p => (win, Some p)
  end.

(** [startNewGame(mode)] of numberguess/logic.ts, with the drawn target
    [Math.floor(Math.random() * 100) + 1] as the input [target]. *)
Definition numberDuelStart (m : GameMode) (target : Z)
  : NumberGuess.NumberGuessState :=
  {| NumberGuess.currentPlayer :=
       NumberGuess.currentPlayer NumberGuess.INITIAL_STATE;
     NumberGuess.status := NumberGuess.status NumberGuess.INITIAL_STATE;
     NumberGuess.winner := NumberGuess.winner NumberGuess.INITIAL_STATE;
     NumberGuess.targetNumber := target;
     NumberGuess.minRange := NumberGuess.minRange NumberGuess.INITIAL_STATE;
     NumberGuess.maxRange := NumberGuess.maxRange NumberGuess.INITIAL_STATE;
     NumberGuess.attempts := NumberGuess.attempts NumberGuess.INITIAL_STATE;
     NumberGuess.lastGuess := NumberGuess.lastGuess NumberGuess.INITIAL_STATE;
     NumberGuess.feedback := NumberGuess.feedback NumberGuess.INITIAL_STATE;
     NumberGuess.history := NumberGuess.history NumberGuess.INITIAL_STATE;
     NumberGuess.mode := Some m |}.

Definition playNumberDuel (s : NumberGuess.NumberGuessState) (guesses : list Z)
  : NumberGuess.NumberGuessState :=
  foldl NumberGuess.makeGuess s guesses.

(** The guesses up to and including the first that equals [target]. *)
Fixpoint untilHit (target : Z) (guesses : list Z) : list Z :=
  match guesses with
  | [] => []
  | g :: rest => if decide (g = target) then [g] else g :: untilHit target rest
  end.

(** The seat that makes guess number [i] (from 0): always P1 in a
    single-player game, P1 and P2 in turns in a two-player game. *)
Definition seatOf (m : GameMode) (i : nat) : Player :=
  match m with
  | singleplayer => P1
  | multiplayer => if Nat.even i then P1 else P2
  end.

(** The history that [guesses] leave behind. *)
Definition numberDuelInv (m : GameMode) (target : Z) (guesses : list Z)
    (s : NumberGuess.NumberGuessState) : Prop :=
  NumberGuess.targetNumber s = target
  /\ NumberGuess.mode s = Some m
  /\ NumberGuess.guess <$> NumberGuess.history s = untilHit target guesses
  /\ NumberGuess.attempts s = Z.of_nat (length (NumberGuess.history s))
  /\ (forall i e, NumberGuess.history s !! i = Some e ->
        NumberGuess.player e = seatOf m i)
  /\ (target ∈ guesses ->
      NumberGuess.status s = win
      /\ NumberGuess.winner s
         = Some (seatOf m (length (NumberGuess.history s) - 1)))
  /\ (target ∉ guesses ->
      NumberGuess.status s = in_progress /\ NumberGuess.winner s = None
      /\ NumberGuess.currentPlayer s = seatOf m (length (NumberGuess.history s))).


(** Hangman: [TURKISH_WORDS], [getRandomWord] and [startNewGame] of
    wordguess/logic.ts; the draw of the word is the input [k]. *)
Definition TURKISH_WORDS : list jsstring :=
  [ str "ELMA"; str "ARMUT"; str "KALEM"; str "KITAP"; str "BILGISAYAR";
    str "TELEFON"; str "MASA"; str "SANDALYE"; str "ARABA"; str "OTOBUS";
    str "ISTANBUL"; str "ANKARA"; str "IZMIR"; str "TURKIYE"; str "DENIZ" ].

Definition getRandomWord (k : nat) : jsstring := pick [] TURKISH_WORDS k.

(** [{ ...INITIAL_STATE, targetWord: word }] *)
Definition wordGuessWith (word : jsstring) : WordGuess.WordGuessState :=
  {| WordGuess.board := WordGuess.board WordGuess.INITIAL_STATE;
     WordGuess.currentPlayer := WordGuess.currentPlayer WordGuess.INITIAL_STATE;
     WordGuess.status := WordGuess.status WordGuess.INITIAL_STATE;
     WordGuess.winner := WordGuess.winner WordGuess.INITIAL_STATE;
     WordGuess.targetWord := word;
     WordGuess.guessedLetters := WordGuess.guessedLetters WordGuess.INITIAL_STATE;
     WordGuess.remainingAttempts :=
       WordGuess.remainingAttempts WordGuess.INITIAL_STATE;
     WordGuess.maxAttempts := WordGuess.maxAttempts WordGuess.INITIAL_STATE;
     WordGuess.mode := WordGuess.mode WordGuess.INITIAL_STATE |}.

Definition wordGuessStart (k : nat) : WordGuess.WordGuessState :=
  wordGuessWith (getRandomWord k).

Definition playWordGuess (toUpperCase : jsstring -> jsstring)
    (s : WordGuess.WordGuessState) (letters : list jsstring)
  : WordGuess.WordGuessState :=
  foldl (WordGuess.makeGuess toUpperCase) s letters.

(** The guessed letters that do not occur in the word, and whether every
    character of the word has been guessed. *)
Definition misses (word : jsstring) (guessed : list jsstring) : nat :=
  count (fun l => negb (str_includes word l)) guessed.

Definition allGuessed (word : jsstring) (guessed : list jsstring) : bool :=
  forallb (fun char => arr_includes guessed [char]) word.

Definition wordGuessInv (word : jsstring) (s : WordGuess.WordGuessState) : Prop :=
  WordGuess.targetWord s = word
  /\ NoDup (WordGuess.guessedLetters s)
  /\ WordGuess.remainingAttempts s
     = WordGuess.MAX_ATTEMPTS - Z.of_nat (misses word (WordGuess.guessedLetters s))
  /\ 0 <= WordGuess.remainingAttempts s
  /\ (WordGuess.status s = lose <-> WordGuess.remainingAttempts s = 0)
  /\ (WordGuess.status s = win <->
      allGuessed word (WordGuess.guessedLetters s) = true)
  /\ (WordGuess.winner s = Some P1 <-> WordGuess.status s = win)
  /\ (WordGuess.status s <> win -> WordGuess.winner s = None).

(** MemoryMatch: [EMOJIS], [shuffleCards] and [startNewGame] of
    memorymatch/logic.ts. The values are the code units of the eight
    string literals as the source file spells them. *)
Definition EMOJIS : list jsstring :=
  [ [240; 376; 182]; [240; 376; 177]; [240; 376; 173]; [240; 376; 185];
    [240; 376; 176]; [240; 376; 166; 352]; [240; 376; 187];
    [240; 376; 188] ]%N.

(** [`card-${index}-${suffix}`] *)
Definition cardId (index : nat) (suffix : string) : jsstring :=
  str "card-" ++ str (pretty (Z.of_nat index)) ++ str "-" ++ str suffix.

Definition freshCard (index : nat) (suffix : string) (emoji : jsstring)
  : MemoryMatch.Card :=
  {| MemoryMatch.id := cardId index suffix; MemoryMatch.value := emoji;
     MemoryMatch.isFlipped := false; MemoryMatch.isMatched := false |}.

(** [EMOJIS.forEach((emoji, index) => { cards.push(a); cards.push(b) })] *)
Definition orderedDeck : list MemoryMatch.Card :=
  mjoin (imap (fun index emoji =>
                 [freshCard index "a" emoji; freshCard index "b" emoji])
              EMOJIS).

(** [[cards[i], cards[j]] = [cards[j], cards[i]]] for two indices of the
    array; the loop below never produces any other. *)
Definition swapCards (cards : list MemoryMatch.Card) (i j : nat)
  : list MemoryMatch.Card :=
  match cards !! i, cards !! j with
  | Some ci, Some cj => <[j := ci]> (<[i := cj]> cards)
  | _, _ => cards
  end.

(** [for (let i = cards.length - 1; i > 0; i--)] with
    [j = Math.floor(Math.random() * (i + 1))]; [rnd i] is the draw made at
    index [i], reduced into [0 .. i]. *)
Fixpoint fisherYates (rnd : nat -> nat) (i : nat) (cards : list MemoryMatch.Card)
  : list MemoryMatch.Card :=
  match i with
  | O => cards
  | S i' => fisherYates rnd i' (swapCards cards i (rnd i mod (i + 1))%nat)
  end.

Definition shuffleCards (rnd : nat -> nat) : list MemoryMatch.Card :=
  fisherYates rnd (length orderedDeck - 1) orderedDeck.

Definition memoryMatchStart (rnd : nat -> nat) : MemoryMatch.MemoryMatchState :=
  {| MemoryMatch.board := shuffleCards rnd;
     MemoryMatch.currentPlayer :=
       MemoryMatch.currentPlayer MemoryMatch.INITIAL_STATE;
     MemoryMatch.status := MemoryMatch.status MemoryMatch.INITIAL_STATE;
     MemoryMatch.winner := MemoryMatch.winner MemoryMatch.INITIAL_STATE;
     MemoryMatch.movesCount := MemoryMatch.movesCount MemoryMatch.INITIAL_STATE;
     MemoryMatch.flippedIndices :=
       MemoryMatch.flippedIndices MemoryMatch.INITIAL_STATE;
     MemoryMatch.mode := MemoryMatch.mode MemoryMatch.INITIAL_STATE |}.

(** A sequence of [flipCard] and [checkMatch] calls. *)
Definition memoryMatchStep (s : MemoryMatch.MemoryMatchState) (a : MemoryAction)
  : result MemoryMatch.MemoryMatchState :=
  match a with
  | FlipCard index => MemoryMatch.flipCard s index
  | CheckMatch => MemoryMatch.checkMatch s
  end.

Fixpoint playMemoryMatch (s : MemoryMatch.MemoryMatchState)
    (script : list MemoryAction) : result MemoryMatch.MemoryMatchState :=
  match script with
  | [] => Return s
  | a :: rest => s' ← memoryMatchStep s a; playMemoryMatch s' rest
  end.

(** The card at [i] lies face up and is not matched yet. *)
Definition faceUpUnmatched (board : list MemoryMatch.Card) (i : Z) : Prop :=
  exists card, idx board i = Some card
               /\ MemoryMatch.isFlipped card = true
               /\ MemoryMatch.isMatched card = false.

(** What play keeps true of a MemoryMatch state, relative to the deal
    [deal] it started from. *)
Definition memoryMatchInv (deal : list MemoryMatch.Card)
    (s : MemoryMatch.MemoryMatchState) : Prop :=
  MemoryMatch.value <$> MemoryMatch.board s = MemoryMatch.value <$> deal
  /\ MemoryMatch.id <$> MemoryMatch.board s = MemoryMatch.id <$> deal
  /\ (forall i, i ∈ MemoryMatch.flippedIndices s
                <-> faceUpUnmatched (MemoryMatch.board s) i)
  /\ NoDup (MemoryMatch.flippedIndices s)
  /\ (length (MemoryMatch.flippedIndices s) <= 2)%nat
  /\ (MemoryMatch.status s = win ->
      forall card, card ∈ MemoryMatch.board s ->
                   MemoryMatch.isMatched card = true)
  /\ (MemoryMatch.status s = win \/ MemoryMatch.status s = in_progress).

(** Wordle scoring, per letter [c]: the positions of the guess, counted
    from [i], that hold [c] on a slot still unmarked; and those that hold
    [c] where the target holds [c] too. *)
Fixpoint pending (c : N) (guessLetters : list N) (i : nat)
    (row : TurkishWordle.GuessRow) : nat :=
  match guessLetters with
  | [] => 0
  | ch :: rest =>
      (b2n (bool_decide (ch = c)
            && bool_decide (TurkishWordle.slot row i = None))
       + pending c rest (S i) row)%nat
  end.

Fixpoint exactHits (c : N) (targetLetters guessLetters : list N) (i : nat)
  : nat :=
  match guessLetters with
  | [] => 0
  | ch :: rest =>
      (b2n (bool_decide (ch = c)
            && bool_decide (targetLetters !! i = Some c))
       + exactHits c targetLetters rest (S i))%nat
  end.

(** ** Turkish Wordle: a session (turkishwordle/logic.ts and
    TurkishWordleScreen.tsx) *)

(** [x || d] on a number: zero and a missing value fall back to [d]. *)
Definition orDefault (x : option Z) (d : Z) : Z :=
  match x with
  | Some n => if decide (n = 0) then d else n
  | None => d
  end.

Definition DEFAULT_WORD_LENGTH : Z := 5.
Definition DEFAULT_MAX_ATTEMPTS : Z := 6.

(** [initTurkishWordleGame(config)]; [TARGET_WORDS_TR] is the list
    exported by [words.ts], [k] the random draw.  When no target has the
    requested length, [targetWord] is [undefined], which the state type
    does not hold. *)
Definition initTurkishWordleGame (TARGET_WORDS_TR : list jsstring)
    (configWordLength configMaxAttempts : option Z) (k : nat)
  : result TurkishWordle.TurkishWordleState :=
  let wordLength := orDefault configWordLength DEFAULT_WORD_LENGTH in
  let maxAttempts := orDefault configMaxAttempts DEFAULT_MAX_ATTEMPTS in
  let possibleTargets :=
    filter (fun w => Z.of_nat (length w) = wordLength) TARGET_WORDS_TR in
  match possibleTargets !! (k mod length possibleTargets)%nat with
  | None => OffModel
  | Some targetWord =>
      Return {| TurkishWordle.currentPlayer := P1;
                TurkishWordle.mode := Some singleplayer;
                TurkishWordle.winner := None;
                TurkishWordle.targetWord := targetWord;
                TurkishWordle.guesses := [];
                TurkishWordle.maxAttempts := maxAttempts;
                TurkishWordle.currentAttemptIndex := 0;
                TurkishWordle.wordLength := wordLength;
                TurkishWordle.status := in_progress;
                TurkishWordle.currentGuess := [];
                TurkishWordle.errorMessage := None |}
  end.

(** The handlers of [TurkishWordleScreen]; each replaces the screen's
    state by what it computes. *)
Definition handleKeyPress (toLocaleUpperCase : jsstring -> jsstring)
    (gameState : TurkishWordle.TurkishWordleState) (key : jsstring)
  : TurkishWordle.TurkishWordleState :=
  if bool_decide (TurkishWordle.status gameState <> in_progress) then gameState
  else if bool_decide (Z.of_nat (length (TurkishWordle.currentGuess gameState))
                       < TurkishWordle.wordLength gameState)
  then TurkishWordle.updateCurrentGuess toLocaleUpperCase gameState
         (TurkishWordle.currentGuess gameState ++ key)
  else gameState.

(** [s.slice(0, -1)] *)
Definition dropLast (s : jsstring) : jsstring := take (length s - 1) s.

Definition handleDelete (toLocaleUpperCase : jsstring -> jsstring)
    (gameState : TurkishWordle.TurkishWordleState)
  : TurkishWordle.TurkishWordleState :=
  if bool_decide (TurkishWordle.status gameState <> in_progress) then gameState
  else TurkishWordle.updateCurrentGuess toLocaleUpperCase gameState
         (dropLast (TurkishWordle.currentGuess gameState)).

Inductive WordleEvent : Type :=
  | KeyPress (key : jsstring)
  | Delete
  | Submit
  | Reset (k : nat).

Section WordleSession.

Variable toLocaleUpperCase : jsstring -> jsstring.
Variable ALLOWED_WORDS_TR : list jsstring.
Variable TARGET_WORDS_TR : list jsstring.

Definition wordleHandle (gameState : TurkishWordle.TurkishWordleState)
    (e : WordleEvent) : result TurkishWordle.TurkishWordleState :=
  match e with
  | KeyPress key => Return (handleKeyPress toLocaleUpperCase gameState key)
  | Delete => Return (handleDelete toLocaleUpperCase gameState)
  | Submit =>
      Return (TurkishWordle.submitGuess toLocaleUpperCase ALLOWED_WORDS_TR
                gameState)
  | Reset k => initTurkishWordleGame TARGET_WORDS_TR None None k
  end.

Fixpoint wordleSession (gameState : TurkishWordle.TurkishWordleState)
    (events : list WordleEvent) : result TurkishWordle.TurkishWordleState :=
  match events with
  | [] => Return gameState
  | e :: rest =>
      s ← wordleHandle gameState e; wordleSession s rest
  end.

End WordleSession.

(** A row with exactly [n] slots, each holding a letter. *)
Definition fullRow (n : Z) (row : TurkishWordle.GuessRow) : Prop :=
  Z.of_nat (length row) = n
  /\ forall i, (i < length row)%nat -> TurkishWordle.slot row i <> None.

(** A row whose slots below [n] are all marked [correct]. *)
Definition allCorrect (n : nat) (row : TurkishWordle.GuessRow) : Prop :=
  forall i, (i < n)%nat -> TurkishWordle.feedbackAt row i = Some TurkishWordle.correct.

(** What holds of a Wordle state throughout a session. *)
Definition wordleInv (TARGET_WORDS_TR : list jsstring)
    (s : TurkishWordle.TurkishWordleState) : Prop :=
  TurkishWordle.targetWord s ∈ TARGET_WORDS_TR
  /\ Z.of_nat (length (TurkishWordle.targetWord s)) = TurkishWordle.wordLength s
  /\ 0 < TurkishWordle.maxAttempts s
  /\ TurkishWordle.currentAttemptIndex s
     = Z.of_nat (length (TurkishWordle.guesses s))
  /\ Z.of_nat (length (TurkishWordle.guesses s)) <= TurkishWordle.maxAttempts s
  /\ (TurkishWordle.status s = in_progress ->
      Z.of_nat (length (TurkishWordle.guesses s)) < TurkishWordle.maxAttempts s)
  /\ (TurkishWordle.status s = lose ->
      Z.of_nat (length (TurkishWordle.guesses s)) = TurkishWordle.maxAttempts s)
  /\ (TurkishWordle.status s = in_progress \/ TurkishWordle.status s = win
      \/ TurkishWordle.status s = lose)
  /\ TurkishWordle.winner s
     = (if bool_decide (TurkishWordle.status s = win) then Some P1 else None)
  /\ Z.of_nat (length (TurkishWordle.currentGuess s))
     <= TurkishWordle.wordLength s
  /\ (TurkishWordle.status s <> in_progress -> TurkishWordle.currentGuess s = []).

(** What holds of the rows of a session: each is full, and an all-green
    row is the last one, of a game that is won. *)
Definition wordleRowsInv (s : TurkishWordle.TurkishWordleState) : Prop :=
  Forall (fullRow (TurkishWordle.wordLength s)) (TurkishWordle.guesses s)
  /\ (forall i row,
        TurkishWordle.guesses s !! i = Some row ->
        allCorrect (Z.to_nat (TurkishWordle.wordLength s)) row ->
        TurkishWordle.status s = win
        /\ S i = length (TurkishWordle.guesses s))
  /\ (TurkishWordle.status s = win ->
      exists row,
        last (TurkishWordle.guesses s) = Some row
        /\ allCorrect (Z.to_nat (TurkishWordle.wordLength s)) row).

(** ** ConnectFour: runs of four *)

(** The four directions in which [checkWinner] looks: right, down,
    down-right and up-right. *)
Definition RUN_DIRECTIONS : list (Z * Z) := [(0, 1); (1, 0); (1, 1); (-1, 1)].

Definition onBoard (r c : Z) : Prop :=
  0 <= r < FourInARow.ROWS /\ 0 <= c < FourInARow.COLS.

(** Player [p] holds the four cells that start at [start] and go in
    direction [dir], all of them on the 6 x 7 board. *)
Definition holdsRun (board : FourInARow.FourInARowBoardState) (p : Player)
    (start dir : Z * Z) : Prop :=
  dir ∈ RUN_DIRECTIONS
  /\ onBoard start.1 start.2
  /\ onBoard (start.1 + 3 * dir.1) (start.2 + 3 * dir.2)
  /\ forall k, 0 <= k < 4 ->
       FourInARow.cell board (start.1 + k * dir.1) (start.2 + k * dir.2)
       = Return (Some (Some p)).

(** ** ConnectFour: play *)

Fixpoint playConnectFour (s : FourInARow.FourInARowState) (columns : list Z)
  : result FourInARow.FourInARowState :=
  match columns with
  | [] => Return s
  | colIndex :: rest =>
      s' ← FourInARow.makeMove s colIndex; playConnectFour s' rest
  end.

(** Six rows of seven cells. *)
Definition boardShape (board : FourInARow.FourInARowBoardState) : Prop :=
  Z.of_nat (length board) = FourInARow.ROWS
  /\ Forall (fun row => Z.of_nat (length row) = FourInARow.COLS) board.

Definition occupied (board : FourInARow.FourInARowBoardState) (r c : Z)
  : Prop :=
  exists p, FourInARow.cell board r c = Return (Some (Some p)).

(** The number of pieces of player [p] on the board. *)
Definition pieces (p : Player) (board : FourInARow.FourInARowBoardState)
  : nat :=
  count (fun x => bool_decide (x = Some p)) (concat board).

(** The player who placed the last piece: the one who is not to move
    while the game goes on, and the one the turn stayed with when it
    ended. *)
Definition lastMover (s : FourInARow.FourInARowState) : Player :=
  if bool_decide (FourInARow.status s = in_progress)
  then other (FourInARow.currentPlayer s)
  else FourInARow.currentPlayer s.

(** What every ConnectFour state reached by play satisfies. *)
Definition connectFourInv (s : FourInARow.FourInARowState) : Prop :=
  let board := FourInARow.board s in
  boardShape board
  /\ (forall r c, occupied board r c -> r + 1 < FourInARow.ROWS ->
                  occupied board (r + 1) c)
  /\ pieces P1 board
     = (pieces P2 board + b2n (bool_decide (lastMover s = P1)))%nat
  /\ match FourInARow.status s with
     | in_progress =>
         FourInARow.winner s = None
         /\ forall p start dir, ~ holdsRun board p start dir
     | win =>
         FourInARow.winner s = Some (FourInARow.currentPlayer s)
         /\ (exists start dir,
               holdsRun board (FourInARow.currentPlayer s) start dir)
         /\ forall start dir,
              ~ holdsRun board (other (FourInARow.currentPlayer s)) start dir
     | draw =>
         FourInARow.winner s = None
         /\ (forall p start dir, ~ holdsRun board p start dir)
         /\ forall r c, onBoard r c -> occupied board r c
     | lose => False
     end.

(** ** Battleship: play *)

(** The five operations of battleship/logic.ts on a state. *)
Definition battleshipStep (s : Battleship.BattleshipState)
    (a : BattleshipAction) : result Battleship.BattleshipState :=
  match a with
  | PlaceShip r c => Battleship.placeShip s r c
  | SelectShip shipId => Return (Battleship.selectShip s shipId)
  | ToggleOrientation => Return (Battleship.toggleOrientation s)
  | FinishSetup => Return (Battleship.finishSetup s)
  | FireShot r c => Battleship.fireShot s r c
  end.

Fixpoint playBattleship (s : Battleship.BattleshipState)
    (script : list BattleshipAction) : result Battleship.BattleshipState :=
  match script with
  | [] => Return s
  | a :: rest => s' ← battleshipStep s a; playBattleship s' rest
  end.

(** The cell holds [v]. *)
Definition cellIs (g : Battleship.Grid) (v : Battleship.CellStatus)
    (cell : Z * Z) : Prop :=
  Battleship.cellAt g cell.1 cell.2 = Return (Some v).

(** Every ship of the list is placed. *)
Definition allPlaced (ships : list Battleship.Ship) : Prop :=
  Forall (fun sh => Battleship.placed sh = true) ships.

(** The cells a ship is recorded on; none before it is placed. *)
Definition spanOf (sh : Battleship.Ship) : list (Z * Z) :=
  match Battleship.position sh with
  | Some pos =>
      Battleship.span (Battleship.row pos) (Battleship.col pos)
        (Battleship.orientation pos) (Battleship.size sh)
  | None => []
  end.

Definition isHitAt (g : Battleship.Grid) (cell : Z * Z) : bool :=
  match Battleship.cellAt g cell.1 cell.2 with
  | Return (Some Battleship.hit) => true
  | _ => false
  end.

(** [ships.every(s => s.hits === s.size)] *)
Definition allSunk (ships : list Battleship.Ship) : bool :=
  forallb (fun s => bool_decide (Battleship.hits s = Battleship.size s)) ships.

(** What holds of a player's board throughout a game: the grids are six
    by six; the ships are the five initial ones, in order; a ship is
    placed exactly when it has a position, and then lies inside the grid;
    the cells marked [ship] or [hit] are exactly the cells of the ships;
    no cell of the own grid is marked [miss]; no two ships share a cell;
    and a ship's hit count is the number of its cells marked [hit]. *)
Definition fleetInv (p : Battleship.PlayerBoardState) : Prop :=
  gridShape (Battleship.grid p)
  /\ gridShape (Battleship.shots p)
  /\ Battleship.id <$> Battleship.ships p
     = Battleship.id <$> Battleship.INITIAL_SHIPS
  /\ Battleship.size <$> Battleship.ships p
     = Battleship.size <$> Battleship.INITIAL_SHIPS
  /\ (forall sh, sh ∈ Battleship.ships p ->
        Battleship.placed sh = true <-> Battleship.position sh <> None)
  /\ (forall sh, sh ∈ Battleship.ships p -> Forall inGrid (spanOf sh))
  /\ (forall cell,
        cellIs (Battleship.grid p) Battleship.ship cell
        \/ cellIs (Battleship.grid p) Battleship.hit cell
        <-> exists sh, sh ∈ Battleship.ships p /\ cell ∈ spanOf sh)
  /\ (forall cell, ~ cellIs (Battleship.grid p) Battleship.miss cell)
  /\ (forall i j sh sh' cell,
        Battleship.ships p !! i = Some sh ->
        Battleship.ships p !! j = Some sh' ->
        cell ∈ spanOf sh -> cell ∈ spanOf sh' -> i = j)
  /\ (forall sh, sh ∈ Battleship.ships p ->
        Battleship.hits sh
        = Z.of_nat (count (isHitAt (Battleship.grid p)) (spanOf sh))).

(** Nothing on the board has been hit. *)
Definition unhit (p : Battleship.PlayerBoardState) : Prop :=
  (forall sh, sh ∈ Battleship.ships p -> Battleship.hits sh = 0)
  /\ forall cell, ~ cellIs (Battleship.grid p) Battleship.hit cell.

Definition boardOf (w : Player) (s : Battleship.BattleshipState)
  : Battleship.PlayerBoardState :=
  match w with P1 => Battleship.p1 s | P2 => Battleship.p2 s end.

(** What holds of a Battleship state throughout a game. *)
Definition battleshipInv (s : Battleship.BattleshipState) : Prop :=
  fleetInv (Battleship.p1 s) /\ fleetInv (Battleship.p2 s)
  /\ match Battleship.phase s with
     | Battleship.setup_p1 =>
         unhit (Battleship.p1 s) /\ unhit (Battleship.p2 s)
         /\ Battleship.winner s = None
     | Battleship.setup_p2 =>
         unhit (Battleship.p1 s) /\ unhit (Battleship.p2 s)
         /\ Battleship.winner s = None
         /\ allPlaced (Battleship.ships (Battleship.p1 s))
     | Battleship.phase_in_progress =>
         allPlaced (Battleship.ships (Battleship.p1 s))
         /\ allPlaced (Battleship.ships (Battleship.p2 s))
         /\ allSunk (Battleship.ships (Battleship.p1 s)) = false
         /\ allSunk (Battleship.ships (Battleship.p2 s)) = false
         /\ Battleship.winner s = None
     | Battleship.finished =>
         allPlaced (Battleship.ships (Battleship.p1 s))
         /\ allPlaced (Battleship.ships (Battleship.p2 s))
         /\ exists w,
              Battleship.winner s = Some w
              /\ allSunk (Battleship.ships (boardOf (other w) s)) = true
              /\ allSunk (Battleship.ships (boardOf w s)) = false
     end.

(** ** Turkish Wordle: the colour of a key (TurkishWordleBoard.tsx) *)

(** [row.find(l => l.char === key)]; the callback reads [l.char], which
    raises on a slot that is [null]. *)
Fixpoint findLetter (row : TurkishWordle.GuessRow) (key : jsstring)
  : result (option TurkishWordle.WordleLetter) :=
  match row with
  | [] => Return None
  | None :: _ => Throw
  | Some l :: rest =>
      if bool_decide ([TurkishWordle.char l] = key) then Return (Some l)
      else findLetter rest key
  end.

(** The loop of [getKeyColor] over the guessed rows, with its [break]. *)
Fixpoint keyFeedback (guesses : list TurkishWordle.GuessRow) (key : jsstring)
    (feedback : option TurkishWordle.LetterFeedback)
  : result (option TurkishWordle.LetterFeedback) :=
  match guesses with
  | [] => Return feedback
  | row :: rest =>
      letter ← findLetter row key;
      match letter with
      | Some l =>
          if bool_decide (TurkishWordle.feedback l = TurkishWordle.correct)
          then Return (Some TurkishWordle.correct)
          else
            let feedback1 :=
              if bool_decide (TurkishWordle.feedback l = TurkishWordle.present)
                 && bool_decide (feedback <> Some TurkishWordle.correct)
              then Some TurkishWordle.present else feedback in
            let feedback2 :=
              if bool_decide (TurkishWordle.feedback l = TurkishWordle.absent)
                 && bool_decide (feedback1 = None)
              then Some TurkishWordle.absent else feedback1 in
            keyFeedback rest key feedback2
      | None => keyFeedback rest key feedback
      end
  end.

(** [getKeyColor(key)]: the background and the text colour of the key. *)
Definition getKeyColor (state : TurkishWordle.TurkishWordleState)
    (key : jsstring) : result (jsstring * jsstring) :=
  feedback ← keyFeedback (TurkishWordle.guesses state) key None;
  Return
    match feedback with
    | Some TurkishWordle.correct => (str "#6AAA64", str "white")
    | Some TurkishWordle.present => (str "#C9B458", str "white")
    | Some TurkishWordle.absent => (str "#787C7E", str "white")
    | _ => (str "#F5F5F5", str "#000000")
    end.

(** The mark of the first letter of the row that is the key, if any. *)
Fixpoint firstMark (row : TurkishWordle.GuessRow) (key : jsstring)
  : option TurkishWordle.LetterFeedback :=
  match row with
  | [] => None
  | Some l :: rest =>
      if bool_decide ([TurkishWordle.char l] = key)
      then Some (TurkishWordle.feedback l)
      else firstMark rest key
  | None :: rest => firstMark rest key
  end.

(** The best of a list of marks: [correct] before [present] before
    [absent]. *)
Definition bestMark (marks : list (option TurkishWordle.LetterFeedback))
  : option TurkishWordle.LetterFeedback :=
  if bool_decide (Some TurkishWordle.correct ∈ marks)
  then Some TurkishWordle.correct
  else if bool_decide (Some TurkishWordle.present ∈ marks)
  then Some TurkishWordle.present
  else if bool_decide (Some TurkishWordle.absent ∈ marks)
  then Some TurkishWordle.absent
  else None.

(** No slot of any row is [null]. *)
Definition rowsFilled (guesses : list TurkishWordle.GuessRow) : Prop :=
  Forall (Forall (fun slot => slot <> None)) guesses.

(** Nothing has been fired from this board. *)
Definition shotsEmpty (p : Battleship.PlayerBoardState) : Prop :=
  forall cell x,
    Battleship.cellAt (Battleship.shots p) cell.1 cell.2 = Return (Some x) ->
    x = Battleship.empty.

(** The tracking grid of player [w] agrees with the grid of the
    opponent: it shows [hit] exactly on the opponent's cells that are
    marked [hit], it shows [miss] only on cells the opponent has
    [empty], and it never shows [ship]. *)
Definition tracks (s : Battleship.BattleshipState) (w : Player) : Prop :=
  forall cell,
    (cellIs (Battleship.shots (boardOf w s)) Battleship.hit cell
     <-> cellIs (Battleship.grid (boardOf (other w) s)) Battleship.hit cell)
    /\ (cellIs (Battleship.shots (boardOf w s)) Battleship.miss cell ->
        cellIs (Battleship.grid (boardOf (other w) s)) Battleship.empty cell)
    /\ ~ cellIs (Battleship.shots (boardOf w s)) Battleship.ship cell.

Definition trackingInv (s : Battleship.BattleshipState) : Prop :=
  match Battleship.phase s with
  | Battleship.setup_p1 | Battleship.setup_p2 =>
      shotsEmpty (Battleship.p1 s) /\ shotsEmpty (Battleship.p2 s)
  | _ => forall w, tracks s w
  end.

(** ** TicTacToe: turns and the draw *)

(** The number of marks of player [p] on the board. *)
Definition marksOf (p : Player) (board : TicTacToe.TicTacToeBoardState)
  : nat :=
  count (fun x => bool_decide (x = Some p)) board.

(** The player who made the last mark: the one who is not to move while
    the game goes on, and the one the turn stayed with when it ended. *)
Definition lastMarker (s : TicTacToe.TicTacToeState) : Player :=
  if bool_decide (TicTacToe.status s = in_progress)
  then other (TicTacToe.currentPlayer s)
  else TicTacToe.currentPlayer s.

Definition tictactoeTurnInv (s : TicTacToe.TicTacToeState) : Prop :=
  length (TicTacToe.board s) = 9%nat
  /\ marksOf P1 (TicTacToe.board s)
     = (marksOf P2 (TicTacToe.board s)
        + b2n (bool_decide (lastMarker s = P1)))%nat
  /\ (marksOf P1 (TicTacToe.board s) + marksOf P2 (TicTacToe.board s)
      <= 9)%nat
  /\ match TicTacToe.status s with
     | in_progress => exists i, idx (TicTacToe.board s) i = Some None
     | draw =>
         TicTacToe.winner s = None
         /\ forall i, 0 <= i < 9 ->
              exists p, idx (TicTacToe.board s) i = Some (Some p)
     | win => True
     | lose => False
     end.

(** ** Concrete states on which the model is run *)

Module Examples.

(** A MemoryMatch board with two face-up cards of equal value. *)
Definition card (v : string) (flipped matched : bool) : MemoryMatch.Card :=
  {| MemoryMatch.id := str v; MemoryMatch.value := str v;
     MemoryMatch.isFlipped := flipped; MemoryMatch.isMatched := matched |}.


(** The same board with one card face up. *)
Definition one_up : MemoryMatch.MemoryMatchState :=
  {| MemoryMatch.board :=
       [card "dog" true false; card "cat" false false;
        card "dog" false false; card "cat" false false];
     MemoryMatch.currentPlayer := P1; MemoryMatch.status := in_progress;
     MemoryMatch.winner := None; MemoryMatch.movesCount := 0;
     MemoryMatch.flippedIndices := [0];
     MemoryMatch.mode := Some singleplayer |}.



(** ConnectFour after six alternating drops into column 0. *)
Definition column0_full : FourInARow.FourInARowState :=
  {| FourInARow.board :=
       [ [Some P2; None; None; None; None; None; None];
         [Some P1; None; None; None; None; None; None];
         [Some P2; None; None; None; None; None; None];
         [Some P1; None; None; None; None; None; None];
         [Some P2; None; None; None; None; None; None];
         [Some P1; None; None; None; None; None; None] ];
     FourInARow.currentPlayer := P1; FourInARow.status := in_progress;
     FourInARow.winner := None |}.

(** Words of the Wordle examples, already in upper case. *)
Definition ALMA : jsstring := str "ALMA".
Definition MAMA : jsstring := str "MAMA".
Definition ELMAS : jsstring := str "ELMAS".
Definition KALEM : jsstring := str "KALEM".
Definition letter_A : N := 65%N.

(** A Wordle state whose input buffer holds a word in lower case, and a
    dictionary for it. *)
Definition dictionary : list jsstring := [ELMAS; KALEM].

Definition lowercase_guess : TurkishWordle.TurkishWordleState :=
  {| TurkishWordle.currentPlayer := P1;
     TurkishWordle.mode := Some singleplayer;
     TurkishWordle.winner := None;
     TurkishWordle.targetWord := KALEM;
     TurkishWordle.guesses := [];
     TurkishWordle.maxAttempts := 6;
     TurkishWordle.currentAttemptIndex := 0;
     TurkishWordle.wordLength := 5;
     TurkishWordle.status := in_progress;
     TurkishWordle.currentGuess := str "elmas";
     TurkishWordle.errorMessage := None |}.

Definition short_guess : TurkishWordle.TurkishWordleState :=
  {| TurkishWordle.currentPlayer := P1;
     TurkishWordle.mode := Some singleplayer;
     TurkishWordle.winner := None;
     TurkishWordle.targetWord := KALEM;
     TurkishWordle.guesses := [];
     TurkishWordle.maxAttempts := 6;
     TurkishWordle.currentAttemptIndex := 0;
     TurkishWordle.wordLength := 5;
     TurkishWordle.status := in_progress;
     TurkishWordle.currentGuess := ALMA;
     TurkishWordle.errorMessage := None |}.

(** A complete Battleship game up to the last shot. Both players place
    their five ships horizontally at column 0 of rows 0 to 4. *)
Definition fleet : list BattleshipAction :=
  [ SelectShip (str "carrier"); PlaceShip 0 0;
    SelectShip (str "battleship"); PlaceShip 1 0;
    SelectShip (str "cruiser"); PlaceShip 2 0;
    SelectShip (str "destroyer"); PlaceShip 3 0;
    SelectShip (str "submarine"); PlaceShip 4 0;
    FinishSetup ].

(** The cells of a fleet, in the order P1 shoots at them, and the empty
    cells P2 shoots at in between. *)
Definition hits_of_p1 : list (Z * Z) :=
  [ (0, 0); (0, 1); (0, 2); (0, 3); (1, 0); (1, 1); (1, 2);
    (2, 0); (2, 1); (2, 2); (3, 0); (3, 1); (4, 0) ].
Definition misses_of_p2 : list (Z * Z) :=
  [ (5, 0); (5, 1); (5, 2); (5, 3); (5, 4); (5, 5); (0, 4);
    (0, 5); (1, 3); (1, 4); (1, 5); (2, 3); (2, 4) ].

Fixpoint alternate (a b : list (Z * Z)) : list BattleshipAction :=
  match a, b with
  | x :: a', y :: b' =>
      FireShot x.1 x.2 :: FireShot y.1 y.2 :: alternate a' b'
  | _, _ => []
  end.

Definition to_last_shot : list BattleshipAction :=
  fleet ++ fleet ++ alternate hits_of_p1 misses_of_p2.

Definition play (script : list BattleshipAction)
  : result Battleship.BattleshipState :=
  run (fun u => u) (fun u => u) [] GBattleship Battleship.INITIAL_STATE script.

(** P1 to move; the only cell of P2's fleet not yet hit is (4, 1). *)
Definition before_last_shot : Battleship.BattleshipState :=
  Eval vm_compute in
  match play to_last_shot with
  | Return s => s
  | _ => Battleship.INITIAL_STATE
  end.

(** The same game after P1 has fired at (4, 1). *)
Definition game_over : Battleship.BattleshipState :=
  Eval vm_compute in
  match play (to_last_shot ++ [FireShot 4 1]) with
  | Return s => s
  | _ => Battleship.INITIAL_STATE
  end.

(** P2's submarine in that state: one of its two cells is hit. *)
Definition submarine_of_p2 : Battleship.Ship :=
  {| Battleship.id := str "submarine"; Battleship.name := str "Submarine";
     Battleship.size := 2; Battleship.hits := 1; Battleship.placed := true;
     Battleship.position :=
       Some {| Battleship.row := 4; Battleship.col := 0;
               Battleship.orientation := Battleship.horizontal |} |}.

(** The state before the last shot with its [status] field set to [win],
    a value that the Battleship functions themselves never write. *)
Definition status_won : Battleship.BattleshipState :=
  {| Battleship.currentPlayer := Battleship.currentPlayer before_last_shot;
     Battleship.status := win;
     Battleship.winner := Battleship.winner before_last_shot;
     Battleship.mode := Battleship.mode before_last_shot;
     Battleship.phase := Battleship.phase before_last_shot;
     Battleship.p1 := Battleship.p1 before_last_shot;
     Battleship.p2 := Battleship.p2 before_last_shot;
     Battleship.lastActionMessage := Battleship.lastActionMessage before_last_shot;
     Battleship.setup := Battleship.setup before_last_shot |}.

End Examples.


(** ** Further concrete states *)

Module MoreExamples.

(** TicTacToe after P1 took the top row. *)
Definition top_row_board : TicTacToe.TicTacToeBoardState :=
  [Some P1; Some P1; Some P1; None; Some P2; Some P2; None; None; None].

(** A deal and the state after flipping two cards and resolving them. *)
Definition draws (i : nat) : nat := (7 * i + 3)%nat.

Definition first_pair_script : list MemoryAction :=
  [FlipCard 0; FlipCard 1; CheckMatch].

Definition after_first_pair : MemoryMatch.MemoryMatchState :=
  Eval vm_compute in
  match playMemoryMatch (memoryMatchStart draws) first_pair_script with
  | Return s => s
  | _ => MemoryMatch.INITIAL_STATE
  end.

(** A Wordle session over the two-word list: a miss, then the target. *)
Definition typed (word : string) : list WordleEvent :=
  map (fun u => KeyPress [u]) (str word).

Definition wordle_events : list WordleEvent :=
  typed "elmas" ++ [Submit] ++ typed "kalen" ++ [Delete] ++ typed "m"
  ++ [Submit].

Definition wordle_start : TurkishWordle.TurkishWordleState :=
  Eval vm_compute in
  match initTurkishWordleGame Examples.dictionary None None 1 with
  | Return s => s
  | _ => Examples.lowercase_guess
  end.

Definition wordle_end : TurkishWordle.TurkishWordleState :=
  Eval vm_compute in
  match wordleSession TurkishWordle.trUpper Examples.dictionary
          Examples.dictionary wordle_start wordle_events with
  | Return s => s
  | _ => Examples.lowercase_guess
  end.

(** ConnectFour: P1 stacks four pieces in column 0. *)
Definition vertical_win : FourInARow.FourInARowState :=
  Eval vm_compute in
  match playConnectFour FourInARow.INITIAL_STATE [0; 1; 0; 1; 0; 1; 0] with
  | Return s => s
  | _ => FourInARow.INITIAL_STATE
  end.

End MoreExamples.

(** * Properties *)

(** ** Array reads and writes *)

Lemma idx_Some_range {A} (a : list A) (i : Z) (x : A) :
  idx a i = Some x -> 0 <= i < Z.of_nat (length a).
Proof.
  unfold idx. destruct (decide (0 <= i)); [|done]. intros Hx.
  apply lookup_lt_Some in Hx. lia.
Qed.

Lemma idx_in_range {A} (a : list A) (i : Z) :
  0 <= i < Z.of_nat (length a) -> exists x, idx a i = Some x.
Proof.
  intros H. unfold idx. rewrite decide_True by lia.
  apply lookup_lt_is_Some_2. lia.
Qed.

Lemma idx_set_idx_eq {A} (a : list A) (i : Z) (x v : A) :
  idx a i = Some x -> idx (set_idx a i v) i = Some v.
Proof.
  intros H. pose proof (idx_Some_range _ _ _ H) as Hr.
  unfold idx, set_idx. rewrite !decide_True by lia.
  apply list_lookup_insert_eq. lia.
Qed.

Lemma idx_set_idx_ne {A} (a : list A) (i j : Z) (v : A) :
  i <> j -> idx (set_idx a i v) j = idx a j.
Proof.
  intros Hne. unfold idx, set_idx.
  destruct (decide (0 <= j)); [|done].
  destruct (decide (0 <= i)); [|done].
  apply list_lookup_insert_ne. lia.
Qed.

Lemma length_set_idx {A} (a : list A) (i : Z) (v : A) :
  length (set_idx a i v) = length a.
Proof. unfold set_idx. case_decide; [apply length_insert | done]. Qed.

Lemma elem_Return {A} (a : list A) (i : Z) (x : A) :
  elem a i = Return x <-> idx a i = Some x.
Proof. unfold elem. destruct (idx a i); split; congruence. Qed.

Lemma elem_in_range {A} (a : list A) (i : Z) :
  0 <= i < Z.of_nat (length a) -> exists x, elem a i = Return x.
Proof.
  intros H. destruct (idx_in_range a i H) as [x Hx].
  exists x. by apply elem_Return.
Qed.

(** ** NumberDuel *)



(** ** MemoryMatch *)





(** ** ConnectFour *)

Section FourInARowFacts.

Import FourInARow.

Lemma cell_returns (b : FourInARowBoardState) (r c : Z) :
  0 <= r < Z.of_nat (length b) -> exists x, cell b r c = Return x.
Proof.
  intros Hr. unfold cell.
  destruct (elem_in_range b r Hr) as [rw ->]. by eexists.
Qed.

Lemma run4_returns (b : FourInARowBoardState) (r c dr dc : Z) :
  0 <= r < Z.of_nat (length b) ->
  0 <= r + 3 * dr < Z.of_nat (length b) ->
  exists o, run4 b r c dr dc = Return o.
Proof.
  intros H0 H3. unfold run4.
  destruct (cell_returns b r c) as [x0 ->]; [lia|]. cbn [mbind result_bind].
  destruct x0 as [[p|]|]; try by eexists.
  destruct (cell_returns b (r + dr) (c + dc)) as [x1 ->]; [lia|].
  cbn [mbind result_bind]. case_bool_decide; [|by eexists].
  destruct (cell_returns b (r + 2 * dr) (c + 2 * dc)) as [x2 ->]; [lia|].
  cbn [mbind result_bind]. case_bool_decide; [|by eexists].
  destruct (cell_returns b (r + 3 * dr) (c + 3 * dc)) as [x3 ->]; [lia|].
  cbn [mbind result_bind]. case_bool_decide; by eexists.
Qed.

Lemma scan_returns (b : FourInARowBoardState) (dr dc : Z)
    (starts : list (Z * Z)) (k : result (option Player)) :
  forallb (run_inside (Z.of_nat (length b)) dr) starts = true ->
  returns k -> returns (scan b dr dc starts k).
Proof.
  intros Hall Hk. induction starts as [|[r c] rest IH]; [done|].
  cbn [forallb] in Hall. apply andb_prop in Hall as [Hrc Hrest].
  unfold run_inside in Hrc. apply andb_prop in Hrc as [H0 H3].
  apply bool_decide_eq_true in H0, H3. cbn [fst] in H0, H3.
  cbn [scan].
  destruct (run4_returns b r c dr dc H0 H3) as [o ->].
  cbn [mbind result_bind]. destruct o; [by eexists | by apply IH].
Qed.

Lemma checkWinner_returns (b : FourInARowBoardState) :
  Z.of_nat (length b) = ROWS -> returns (checkWinner b).
Proof.
  intros Hlen. unfold checkWinner.
  repeat (apply scan_returns; [rewrite Hlen; reflexivity|]).
  by eexists.
Qed.

Lemma checkDraw_returns (b : FourInARowBoardState) :
  Z.of_nat (length b) = ROWS -> returns (checkDraw b).
Proof.
  intros Hlen. unfold checkDraw.
  destruct (elem_in_range b 0) as [top ->]; [unfold ROWS in Hlen; lia|].
  by eexists.
Qed.

(** The downward scan of a column finds the empty cell with the largest
    row index among the first [n] rows, or answers [-1]. *)
Lemma lowestEmptyRow_spec (b : FourInARowBoardState) (c : Z) (n : nat) :
  (n <= length b)%nat ->
  exists z, lowestEmptyRow b c n = Return z
    /\ ((z = -1
         /\ forall r, 0 <= r < Z.of_nat n -> cell b r c <> Return (Some None))
        \/ (0 <= z < Z.of_nat n
            /\ cell b z c = Return (Some None)
            /\ forall r, z < r < Z.of_nat n ->
                 cell b r c <> Return (Some None))).
Proof.
  induction n as [|n IH]; intros Hn.
  - exists (-1). split; [done|]. left. split; [done|]. lia.
  - cbn [lowestEmptyRow].
    destruct (cell_returns b (Z.of_nat n) c) as [x Hx]; [lia|].
    rewrite Hx. cbn [mbind result_bind].
    case_bool_decide as Hnull.
    + subst x. eexists. split; [done|]. right.
      split; [lia|]. split; [done|]. lia.
    + destruct IH as (z & Hz & Hcases); [lia|].
      exists z. split; [done|].
      assert (forall r, r = Z.of_nat n -> cell b r c <> Return (Some None))
        as Hhere by (intros r ->; rewrite Hx; congruence).
      destruct Hcases as [[-> Hnone]|(Hr & Hempty & Habove)].
      * left. split; [done|]. intros r Hr.
        destruct (decide (r = Z.of_nat n)); [by apply Hhere|apply Hnone; lia].
      * right. split; [lia|]. split; [done|]. intros r Hr'.
        destruct (decide (r = Z.of_nat n)); [by apply Hhere|apply Habove; lia].
Qed.

Lemma length_set_cell (b : FourInARowBoardState) (r c : Z) (v : CellValue) :
  length (set_cell b r c v) = length b.
Proof. unfold set_cell. case_decide; [apply length_alter | done]. Qed.

Lemma cell_unfold (b : FourInARowBoardState) (r c : Z) :
  cell b r c = match idx b r with
               | Some rw => Return (idx rw c)
               | None => Throw
               end.
Proof. unfold cell, elem. by destruct (idx b r). Qed.

Lemma idx_set_cell_eq (b : FourInARowBoardState) (r c : Z) (v : CellValue) :
  idx (set_cell b r c v) r = (fun rw => set_idx rw c v) <$> idx b r.
Proof.
  unfold set_cell, idx. destruct (decide (0 <= r)); [|done].
  apply list_lookup_alter_eq.
Qed.

Lemma idx_set_cell_ne (b : FourInARowBoardState) (r c r' : Z) (v : CellValue) :
  r <> r' -> idx (set_cell b r c v) r' = idx b r'.
Proof.
  intros Hne. unfold set_cell, idx.
  destruct (decide (0 <= r)); [|done].
  destruct (decide (0 <= r')); [|done].
  apply list_lookup_alter_ne. lia.
Qed.

Lemma cell_set_cell_eq (b : FourInARowBoardState) (r c : Z) (x v : CellValue) :
  cell b r c = Return (Some x) -> cell (set_cell b r c v) r c = Return (Some v).
Proof.
  rewrite !cell_unfold, idx_set_cell_eq.
  destruct (idx b r) as [rw|]; [|done]. cbn.
  intros [= Hc]. by erewrite idx_set_idx_eq.
Qed.

Lemma cell_set_cell_ne (b : FourInARowBoardState) (r c r' c' : Z)
    (v : CellValue) :
  (r', c') <> (r, c) -> cell (set_cell b r c v) r' c' = cell b r' c'.
Proof.
  intros Hne. rewrite !cell_unfold.
  destruct (decide (r = r')) as [<-|Hrr].
  - rewrite idx_set_cell_eq. destruct (idx b r) as [rw|]; [|done]. cbn.
    rewrite idx_set_idx_ne; [done|congruence].
  - by rewrite idx_set_cell_ne.
Qed.

End FourInARowFacts.

(** C5. On an in-progress ConnectFour state with its six rows: if the
    chosen column has an empty cell, [makeMove] returns a state whose board
    holds the current player's piece in the lowest empty row of that column
    (the empty cell with the largest row index) and agrees with the input
    board everywhere else; if the column has no empty cell, [makeMove]
    returns the input state, so [currentPlayer] does not alternate. *)
Theorem connectfour_gravity :
  forall (s : FourInARow.FourInARowState) (colIndex : Z),
    FourInARow.status s = in_progress ->
    Z.of_nat (length (FourInARow.board s)) = FourInARow.ROWS ->
    ((exists r, 0 <= r < FourInARow.ROWS
                /\ FourInARow.cell (FourInARow.board s) r colIndex
                   = Return (Some None)) ->
     exists r s',
       FourInARow.makeMove s colIndex = Return s'
       /\ 0 <= r < FourInARow.ROWS
       /\ FourInARow.cell (FourInARow.board s) r colIndex = Return (Some None)
       /\ (forall r', r < r' < FourInARow.ROWS ->
             FourInARow.cell (FourInARow.board s) r' colIndex
             <> Return (Some None))
       /\ FourInARow.cell (FourInARow.board s') r colIndex
          = Return (Some (Some (FourInARow.currentPlayer s)))
       /\ (forall r' c', (r', c') <> (r, colIndex) ->
             FourInARow.cell (FourInARow.board s') r' c'
             = FourInARow.cell (FourInARow.board s) r' c'))
    /\ ((forall r, 0 <= r < FourInARow.ROWS ->
           FourInARow.cell (FourInARow.board s) r colIndex
           <> Return (Some None)) ->
        FourInARow.makeMove s colIndex = Return s).
Proof.
  intros s colIndex Hst Hlen.
  destruct (lowestEmptyRow_spec (FourInARow.board s) colIndex
              (Z.to_nat FourInARow.ROWS)) as (z & Hz & Hcases).
  { unfold FourInARow.ROWS in *. lia. }
  replace (Z.of_nat (Z.to_nat FourInARow.ROWS)) with FourInARow.ROWS
    in Hcases by (unfold FourInARow.ROWS; lia).
  unfold FourInARow.makeMove.
  rewrite bool_decide_eq_false_2 by (rewrite Hst; auto).
  rewrite Hz. cbn [mbind result_bind].
  split.
  - intros (r0 & Hr0 & Hempty0).
    destruct Hcases as [[-> Hnone]|(Hr & Hempty & Habove)].
    { exfalso. by apply (Hnone r0). }
    rewrite bool_decide_eq_false_2 by lia.
    set (newBoard := FourInARow.set_cell _ _ _ _).
    assert (Z.of_nat (length newBoard) = FourInARow.ROWS) as Hlen'.
    { subst newBoard. by rewrite length_set_cell. }
    destruct (checkWinner_returns newBoard Hlen') as [w ->].
    destruct (checkDraw_returns newBoard Hlen') as [d Hd].
    assert (FourInARow.cell newBoard z colIndex
            = Return (Some (Some (FourInARow.currentPlayer s)))) as Hput.
    { subst newBoard. by eapply cell_set_cell_eq. }
    assert (forall r' c', (r', c') <> (z, colIndex) ->
              FourInARow.cell newBoard r' c'
              = FourInARow.cell (FourInARow.board s) r' c') as Hrest.
    { intros r' c' Hne. subst newBoard. by apply cell_set_cell_ne. }
    exists z. cbn [mbind result_bind].
    destruct w as [p|].
    + eexists. split; [reflexivity|]. cbn [FourInARow.board]. auto 10.
    + rewrite Hd. cbn [mbind result_bind].
      destruct d; (eexists; split; [reflexivity|]; cbn [FourInARow.board]; auto 10).
  - intros Hfull.
    destruct Hcases as [[-> _]|(Hr & Hempty & _)].
    + by rewrite bool_decide_eq_true_2.
    + exfalso. by apply (Hfull z).
Qed.

Lemma connectfour_gravity_witness :
  (exists r s',
      FourInARow.makeMove FourInARow.INITIAL_STATE 3 = Return s'
      /\ 0 <= r < FourInARow.ROWS
      /\ FourInARow.cell FourInARow.INITIAL_BOARD r 3 = Return (Some None)
      /\ (forall r', r < r' < FourInARow.ROWS ->
            FourInARow.cell FourInARow.INITIAL_BOARD r' 3 <> Return (Some None))
      /\ FourInARow.cell (FourInARow.board s') r 3 = Return (Some (Some P1))
      /\ (forall r' c', (r', c') <> (r, 3) ->
            FourInARow.cell (FourInARow.board s') r' c'
            = FourInARow.cell FourInARow.INITIAL_BOARD r' c'))
  /\ FourInARow.makeMove Examples.column0_full 0 = Return Examples.column0_full.
Proof.
  split.
  - apply (connectfour_gravity FourInARow.INITIAL_STATE 3);
      [reflexivity | reflexivity |].
    exists 0. split; [unfold FourInARow.ROWS; lia | reflexivity].
  - apply (connectfour_gravity Examples.column0_full 0);
      [reflexivity | reflexivity |].
    intros r Hr. unfold FourInARow.ROWS in Hr.
    assert (r = 0 \/ r = 1 \/ r = 2 \/ r = 3 \/ r = 4 \/ r = 5) as Hcases by lia.
    destruct Hcases as [->|[->|[->|[->|[->| ->]]]]]; by vm_compute.
Defined.

(** ** Turkish Wordle: duplicate-letter scoring *)

Section CountFacts.

Context {A : Type} (f : A -> bool).

Lemma count_nil : count f [] = 0%nat.
Proof. done. Qed.

Lemma count_cons (x : A) (l : list A) :
  count f (x :: l) = (b2n (f x) + count f l)%nat.
Proof.
  unfold count. rewrite filter_cons. by destruct (f x); case_decide.
Qed.

Lemma count_app (l k : list A) :
  count f (l ++ k) = (count f l + count f k)%nat.
Proof. unfold count. by rewrite filter_app, length_app. Qed.

Lemma count_replicate_false (n : nat) (x : A) :
  f x = false -> count f (replicate n x) = 0%nat.
Proof.
  intros Hx. induction n as [|n IH]; [done|].
  cbn [replicate]. rewrite count_cons, Hx, IH. done.
Qed.

Lemma count_insert (l : list A) (i : nat) (x y : A) :
  l !! i = Some y ->
  (count f (<[i := x]> l) + b2n (f y) = count f l + b2n (f x))%nat.
Proof.
  revert i. induction l as [|z l IH]; intros [|i] Hi; try done.
  - injection Hi as ->. change (<[0%nat := x]> (y :: l)) with (x :: l).
    rewrite !count_cons. lia.
  - change (<[S i := x]> (z :: l)) with (z :: <[i := x]> l).
    rewrite !count_cons. specialize (IH i Hi). lia.
Qed.

End CountFacts.

Section WordleScoring.

Import TurkishWordle.

Lemma indexOf_lookup {A} `{EqDecision A} (l : list A) (x : A) (k : nat) :
  indexOf l x = Some k -> l !! k = Some x.
Proof.
  revert k. induction l as [|y l IH]; intros k; [done|].
  cbn [indexOf]. destruct (decide (y = x)) as [->|Hne].
  - by intros [= <-].
  - destruct (indexOf l x) as [k'|]; [|done].
    intros [= <-]. by apply IH.
Qed.

(** Writing slot [i] fills it and leaves every other slot as it was. *)
Lemma slot_row_set_eq (row : GuessRow) (i : nat) (v : WordleLetter) :
  slot (row_set row i v) i = Some v.
Proof.
  unfold slot, row_set. case_decide as Hi.
  - by rewrite list_lookup_insert_eq.
  - rewrite lookup_app_r by lia.
    rewrite lookup_app_r by (rewrite length_replicate; lia).
    rewrite length_replicate.
    by replace (i - length row - (i - length row))%nat with 0%nat by lia.
Qed.

Lemma slot_row_set_ne (row : GuessRow) (i j : nat) (v : WordleLetter) :
  i <> j -> slot (row_set row i v) j = slot row j.
Proof.
  intros Hne. unfold slot, row_set. case_decide as Hi.
  - by rewrite list_lookup_insert_ne.
  - destruct (decide (j < length row)%nat) as [Hj|Hj].
    + by rewrite lookup_app_l.
    + rewrite (lookup_ge_None_2 row j) by lia.
      rewrite lookup_app_r by lia.
      destruct (decide (j - length row < i - length row)%nat).
      * rewrite lookup_app_l by (rewrite length_replicate; lia).
        by rewrite lookup_replicate_2.
      * rewrite lookup_app_r by (rewrite length_replicate; lia).
        rewrite length_replicate.
        rewrite lookup_ge_None_2; [done|]. cbn. lia.
Qed.

(** A write adds at most the mark of the letter written. *)
Lemma marksFor_row_set (c : N) (row : GuessRow) (i : nat) (v : WordleLetter) :
  (marksFor c (row_set row i v) <= marksFor c row + b2n (scores c (Some v)))%nat.
Proof.
  unfold marksFor, row_set. case_decide as Hi.
  - destruct (lookup_lt_is_Some_2 row i Hi) as [y Hy].
    pose proof (count_insert (scores c) row i (Some v) y Hy). lia.
  - rewrite !count_app, count_replicate_false by done.
    rewrite count_cons, count_nil. lia.
Qed.

Lemma availableFor_consume (c ch : N) (available : list (option N)) (k : nat) :
  available !! k = Some (Some ch) ->
  (availableFor c (<[k := None]> available) + b2n (bool_decide (ch = c))
   = availableFor c available)%nat.
Proof.
  intros Hk. unfold availableFor.
  pose proof (count_insert (fun o => bool_decide (o = Some c))
                available k None (Some ch) Hk) as Hc.
  cbn beta in Hc.
  rewrite (bool_decide_eq_false_2 (None = Some c)) in Hc by done.
  destruct (decide (ch = c)) as [->|Hne].
  - rewrite bool_decide_eq_true_2 in Hc by done.
    rewrite bool_decide_eq_true_2 by done. cbn [b2n] in *. lia.
  - rewrite bool_decide_eq_false_2 in Hc by congruence.
    rewrite bool_decide_eq_false_2 by done. cbn [b2n] in *. lia.
Qed.

Lemma availableFor_initial (c : N) (letters : list N) :
  availableFor c (map Some letters) = occurrences c letters.
Proof.
  unfold availableFor, occurrences.
  induction letters as [|u l IH]; [done|].
  cbn [map]. rewrite !count_cons, IH. f_equal.
  destruct (decide (u = c)) as [->|Hne].
  - by rewrite !bool_decide_eq_true_2.
  - rewrite !bool_decide_eq_false_2; congruence.
Qed.

Lemma scores_mark (c ch : N) (fb : LetterFeedback) :
  (b2n (scores c (Some {| char := ch; feedback := fb |}))
   <= b2n (bool_decide (ch = c)))%nat.
Proof.
  cbn [scores char feedback]. destruct (bool_decide (ch = c)); cbn; [|lia].
  destruct (_ || _); cbn; lia.
Qed.

(** The budget: marks awarded to [c] plus instances of [c] still
    available never exceed a bound that holds at the start. *)
Lemma firstPass_budget (c : N) (T gs : list N) (n : nat) :
  forall (i : nat) (row : GuessRow) (available : list (option N)),
    (forall j, (i <= j)%nat -> available !! j = Some <$> T !! j) ->
    (marksFor c row + availableFor c available <= n)%nat ->
    (marksFor c (firstPass T gs i row available).1
     + availableFor c (firstPass T gs i row available).2 <= n)%nat.
Proof.
  induction gs as [|ch rest IH]; intros i row available Hfresh Hle; [done|].
  cbn [firstPass]. destruct (decide (T !! i = Some ch)) as [Hhit|Hno].
  - apply IH.
    + intros j Hj. rewrite list_lookup_insert_ne by lia. apply Hfresh. lia.
    + assert (available !! i = Some (Some ch)) as Hav.
      { rewrite Hfresh by lia. by rewrite Hhit. }
      pose proof (availableFor_consume c ch available i Hav).
      pose proof (marksFor_row_set c row i {| char := ch; feedback := correct |}).
      pose proof (scores_mark c ch correct). lia.
  - apply IH; [|done]. intros j Hj. apply Hfresh. lia.
Qed.

Lemma secondPass_budget (c : N) (gs : list N) (n : nat) :
  forall (i : nat) (row : GuessRow) (available : list (option N)),
    (marksFor c row + availableFor c available <= n)%nat ->
    (marksFor c (secondPass gs i row available) <= n)%nat.
Proof.
  induction gs as [|ch rest IH]; intros i row available Hle.
  - cbn [secondPass]. lia.
  - cbn [secondPass].
    destruct (row !! i) as [[l|]|] eqn:Hrow; try (by apply (IH _ _ available));
      (destruct (indexOf available (Some ch)) as [k|] eqn:Hk;
       [ apply indexOf_lookup in Hk;
         pose proof (availableFor_consume c ch available k Hk);
         pose proof (marksFor_row_set c row i {| char := ch; feedback := present |});
         pose proof (scores_mark c ch present);
         apply (IH _ _ (<[k := None]> available)); lia
       | pose proof (marksFor_row_set c row i {| char := ch; feedback := absent |});
         assert (scores c (Some {| char := ch; feedback := absent |}) = false)
           as Hs by (cbn; by rewrite andb_false_r);
         rewrite Hs in *; cbn [b2n] in *;
         apply (IH _ _ available); lia ]).
Qed.

(** What each pass leaves in slot [j]. *)
Lemma firstPass_slot (T gs : list N) (j : nat) :
  forall (i : nat) (row : GuessRow) (available : list (option N)),
    slot (firstPass T gs i row available).1 j =
      match gs !! (j - i)%nat with
      | Some ch =>
          if bool_decide (i <= j)%nat && bool_decide (T !! j = Some ch)
          then Some {| char := ch; feedback := correct |}
          else slot row j
      | None => slot row j
      end.
Proof.
  induction gs as [|ch rest IH]; intros i row available; [done|].
  cbn [firstPass].
  destruct (decide (T !! i = Some ch)) as [Hhit|Hno]; rewrite IH; clear IH.
  - destruct (decide (j = i)) as [->|Hne].
    + replace (i - S i)%nat with 0%nat by lia.
      replace (i - i)%nat with 0%nat by lia. cbn [lookup list_lookup].
      rewrite (bool_decide_eq_false_2 (S i <= i)%nat) by lia.
      rewrite (bool_decide_eq_true_2 (i <= i)%nat) by lia.
      rewrite (bool_decide_eq_true_2 _ Hhit). cbn.
      rewrite slot_row_set_eq. by destruct (rest !! 0%nat).
    + rewrite slot_row_set_ne by done.
      destruct (decide (i < j)%nat) as [Hlt|Hge].
      * replace (j - i)%nat with (S (j - S i)) by lia. cbn [lookup list_lookup].
        destruct (rest !! (j - S i)%nat); [|done].
        rewrite (bool_decide_eq_true_2 (S i <= j)%nat) by lia.
        by rewrite (bool_decide_eq_true_2 (i <= j)%nat) by lia.
      * replace (j - i)%nat with 0%nat by lia.
        replace (j - S i)%nat with 0%nat by lia. cbn [lookup list_lookup].
        rewrite (bool_decide_eq_false_2 (S i <= j)%nat) by lia.
        rewrite (bool_decide_eq_false_2 (i <= j)%nat) by lia.
        by destruct (rest !! 0%nat).
  - destruct (decide (j = i)) as [->|Hne].
    + replace (i - S i)%nat with 0%nat by lia.
      replace (i - i)%nat with 0%nat by lia. cbn [lookup list_lookup].
      rewrite (bool_decide_eq_false_2 (S i <= i)%nat) by lia.
      rewrite (bool_decide_eq_false_2 _ Hno). rewrite andb_false_r.
      by destruct (rest !! 0%nat).
    + destruct (decide (i < j)%nat) as [Hlt|Hge].
      * replace (j - i)%nat with (S (j - S i)) by lia. cbn [lookup list_lookup].
        destruct (rest !! (j - S i)%nat); [|done].
        rewrite (bool_decide_eq_true_2 (S i <= j)%nat) by lia.
        by rewrite (bool_decide_eq_true_2 (i <= j)%nat) by lia.
      * replace (j - i)%nat with 0%nat by lia.
        replace (j - S i)%nat with 0%nat by lia. cbn [lookup list_lookup].
        rewrite (bool_decide_eq_false_2 (S i <= j)%nat) by lia.
        rewrite (bool_decide_eq_false_2 (i <= j)%nat) by lia.
        by destruct (rest !! 0%nat).
Qed.

Lemma lookup_cons_None_inv (c : N) (rest : list N) (j i : nat) :
  (c :: rest) !! (j - i)%nat = None ->
  (i < j)%nat /\ rest !! (j - S i)%nat = None.
Proof.
  intros Hnone. destruct (decide (i < j)%nat) as [Hlt|Hge].
  - split; [done|].
    by replace (j - i)%nat with (S (j - S i)) in Hnone by lia.
  - by replace (j - i)%nat with 0%nat in Hnone by lia.
Qed.

Lemma pass2_skip (c : N) (rest : list N) (j i : nat) (row final : GuessRow)
    (l : WordleLetter) :
  slot row i = Some l ->
  pass2_post rest j (S i) row final -> pass2_post (c :: rest) j i row final.
Proof.
  intros Hl [IHa IHb]. split.
  - intros [Hlt|Hnone]; [apply IHa; left; lia|].
    apply lookup_cons_None_inv in Hnone as [Hlt Hnone]. apply IHa. by right.
  - intros ch Hij Hch. destruct (decide (j = i)) as [->|Hne].
    + rewrite Hl. rewrite IHa by (left; lia). done.
    + replace (j - i)%nat with (S (j - S i)) in Hch by lia.
      apply IHb; [lia | done].
Qed.

Lemma pass2_write (c : N) (rest : list N) (j i : nat) (row final : GuessRow)
    (fb : LetterFeedback) :
  slot row i = None -> fb = present \/ fb = absent ->
  pass2_post rest j (S i) (row_set row i {| char := c; feedback := fb |}) final ->
  pass2_post (c :: rest) j i row final.
Proof.
  intros Hnone Hfb [IHa IHb]. split.
  - intros [Hlt|Hn].
    + rewrite IHa by (left; lia). apply slot_row_set_ne. lia.
    + apply lookup_cons_None_inv in Hn as [Hlt Hn].
      rewrite IHa by (by right). apply slot_row_set_ne. lia.
  - intros ch Hij Hch. destruct (decide (j = i)) as [->|Hne].
    + replace (i - i)%nat with 0%nat in Hch by lia. injection Hch as <-.
      rewrite Hnone. rewrite IHa by (left; lia). rewrite slot_row_set_eq.
      destruct Hfb as [-> | ->]; auto.
    + replace (j - i)%nat with (S (j - S i)) in Hch by lia.
      specialize (IHb ch ltac:(lia) Hch).
      by rewrite slot_row_set_ne in IHb by done.
Qed.

Lemma secondPass_slot (gs : list N) (j : nat) :
  forall (i : nat) (row : GuessRow) (available : list (option N)),
    pass2_post gs j i row (secondPass gs i row available).
Proof.
  induction gs as [|c rest IH]; intros i row available.
  { split; [done|]. intros ch _ Hch. by rewrite lookup_nil in Hch. }
  cbn [secondPass].
  destruct (row !! i) as [[l|]|] eqn:Hrow.
  - eapply pass2_skip; [|apply IH]. unfold slot. by rewrite Hrow.
  - assert (slot row i = None) as Hs by (unfold slot; by rewrite Hrow).
    destruct (indexOf available (Some c));
      (eapply pass2_write; [exact Hs | | apply IH]); auto.
  - assert (slot row i = None) as Hs by (unfold slot; by rewrite Hrow).
    destruct (indexOf available (Some c));
      (eapply pass2_write; [exact Hs | | apply IH]); auto.
Qed.

Lemma slot_replicate_None (n j : nat) :
  slot (replicate n (None : option WordleLetter)) j = None.
Proof.
  unfold slot. destruct (decide (j < n)%nat).
  - by rewrite lookup_replicate_2.
  - rewrite lookup_ge_None_2; [done|]. rewrite length_replicate. lia.
Qed.

Lemma marksFor_replicate_None (c : N) (n : nat) :
  marksFor c (replicate n None) = 0%nat.
Proof. unfold marksFor. by apply count_replicate_false. Qed.

Lemma lookup_map_Some (T : list N) (j : nat) :
  map Some T !! j = Some <$> T !! j.
Proof. apply list_lookup_fmap. Qed.

End WordleScoring.

(** C1. For every target word and every guess (in particular every guess
    of the target's length), with both words locale-uppercased,
    [evaluateTurkishWordleGuess] marks position [i] of the guess [correct]
    exactly when the guess letter at [i] equals the target letter at [i],
    and for every letter the number of [correct] and [present] marks given
    to that letter never exceeds its number of occurrences in the target;
    for target ALMA and guess MAMA the letter A receives exactly as many
    marks as there are As in ALMA. *)
Theorem wordle_duplicate_letter_scoring :
  forall toLocaleUpperCase : jsstring -> jsstring,
    (forall (target guess : jsstring),
        let row :=
          TurkishWordle.evaluateTurkishWordleGuess toLocaleUpperCase target guess in
        (forall (i : nat) (c : N),
            toLocaleUpperCase guess !! i = Some c ->
            (TurkishWordle.feedbackAt row i = Some TurkishWordle.correct
             <-> toLocaleUpperCase target !! i = Some c))
        /\ (forall c : N,
              (TurkishWordle.marksFor c row
               <= TurkishWordle.occurrences c (toLocaleUpperCase target))%nat))
    /\ (toLocaleUpperCase Examples.ALMA = Examples.ALMA ->
        toLocaleUpperCase Examples.MAMA = Examples.MAMA ->
        TurkishWordle.marksFor Examples.letter_A
          (TurkishWordle.evaluateTurkishWordleGuess toLocaleUpperCase
             Examples.ALMA Examples.MAMA)
        = TurkishWordle.occurrences Examples.letter_A Examples.ALMA).
Proof.
  intros up. split.
  - intros target guess row. subst row.
    unfold TurkishWordle.evaluateTurkishWordleGuess.
    set (T := up target). set (G := up guess).
    destruct (TurkishWordle.firstPass T G 0 _ _) as [row1 available1] eqn:Hp1.
    split.
    + intros i c Hc.
      pose proof (firstPass_slot T G i 0
                    (replicate (length target) None) (map Some T)) as H1.
      rewrite Hp1 in H1. cbn [fst] in H1.
      replace (i - 0)%nat with i in H1 by lia. rewrite Hc in H1.
      rewrite slot_replicate_None in H1.
      rewrite (bool_decide_eq_true_2 (0 <= i)%nat) in H1 by lia. cbn in H1.
      destruct (secondPass_slot G i 0 row1 available1) as [_ H2].
      specialize (H2 c ltac:(lia)).
      replace (i - 0)%nat with i in H2 by lia. specialize (H2 Hc).
      unfold TurkishWordle.feedbackAt.
      case_bool_decide as Heq.
      * rewrite H1 in H2. rewrite H2. done.
      * rewrite H1 in H2. destruct H2 as [-> | ->]; cbn; split; congruence.
    + intros c.
      apply (secondPass_budget c G _ 0%nat row1 available1).
      pose proof (firstPass_budget c T G
                    (TurkishWordle.occurrences c T) 0
                    (replicate (length target) None) (map Some T)) as Hb.
      rewrite Hp1 in Hb. cbn [fst snd] in Hb. apply Hb.
      * intros j _. apply lookup_map_Some.
      * rewrite marksFor_replicate_None, availableFor_initial. lia.
  - intros Ha Hm. unfold TurkishWordle.evaluateTurkishWordleGuess.
    rewrite Ha, Hm. reflexivity.
Qed.

Lemma wordle_duplicate_letter_scoring_witness :
  TurkishWordle.trUpper Examples.ALMA = Examples.ALMA
  /\ TurkishWordle.trUpper Examples.MAMA = Examples.MAMA
  /\ TurkishWordle.marksFor Examples.letter_A
       (TurkishWordle.evaluateTurkishWordleGuess TurkishWordle.trUpper
          Examples.ALMA Examples.MAMA)
     = TurkishWordle.occurrences Examples.letter_A Examples.ALMA.
Proof.
  split; [reflexivity|]. split; [reflexivity|].
  apply (proj2 (wordle_duplicate_letter_scoring TurkishWordle.trUpper));
    reflexivity.
Defined.

(** ** Running the model on examples *)

Example tictactoe_top_row :
  foldl TicTacToe.makeMove TicTacToe.INITIAL_STATE [0; 4; 1; 5; 2]
  = {| TicTacToe.board :=
         [Some P1; Some P1; Some P1; None; Some P2; Some P2; None; None; None];
       TicTacToe.currentPlayer := P1; TicTacToe.status := win;
       TicTacToe.winner := Some P1 |}.
Proof. reflexivity. Qed.

Example wordle_ALMA_MAMA :
  TurkishWordle.evaluateTurkishWordleGuess TurkishWordle.trUpper
    Examples.ALMA Examples.MAMA
  = [ Some {| TurkishWordle.char := 77; TurkishWordle.feedback := TurkishWordle.absent |};
      Some {| TurkishWordle.char := 65; TurkishWordle.feedback := TurkishWordle.present |};
      Some {| TurkishWordle.char := 77; TurkishWordle.feedback := TurkishWordle.correct |};
      Some {| TurkishWordle.char := 65; TurkishWordle.feedback := TurkishWordle.correct |} ].
Proof. reflexivity. Qed.

Example wordle_ELMAS_all_correct :
  TurkishWordle.feedbackAt
    (TurkishWordle.evaluateTurkishWordleGuess TurkishWordle.trUpper
       Examples.ELMAS Examples.ELMAS)
  <$> [0; 1; 2; 3; 4]%nat
  = replicate 5 (Some TurkishWordle.correct).
Proof. reflexivity. Qed.

Example battleship_script_runs :
  Examples.play Examples.to_last_shot = Return Examples.before_last_shot
  /\ Battleship.fireShot Examples.before_last_shot 4 1
     = Return Examples.game_over.
Proof. split; vm_compute; reflexivity. Qed.

Example battleship_before_last_shot :
  Battleship.phase Examples.before_last_shot = Battleship.phase_in_progress
  /\ Battleship.currentPlayer Examples.before_last_shot = P1
  /\ Battleship.status Examples.before_last_shot = in_progress
  /\ (fun s => (Battleship.hits s, Battleship.size s))
       <$> Battleship.ships (Battleship.p2 Examples.before_last_shot)
     = [(4, 4); (3, 3); (3, 3); (2, 2); (1, 2)].
Proof. vm_compute. auto. Qed.

Example battleship_game_over :
  Battleship.phase Examples.game_over = Battleship.finished
  /\ Battleship.winner Examples.game_over = Some P1
  /\ Battleship.currentPlayer Examples.game_over = P2
  /\ Battleship.status Examples.game_over = in_progress
  /\ Battleship.lastActionMessage Examples.game_over
     = Some (str "P1 wins! All enemy ships sunk.").
Proof. vm_compute. auto 10. Qed.

Example connectfour_column0_full :
  foldl (fun r col => s ← r; FourInARow.makeMove s col)
        (Return FourInARow.INITIAL_STATE) [0; 0; 0; 0; 0; 0]
  = Return Examples.column0_full.
Proof. reflexivity. Qed.

Example initial_states_well_shaped :
  well_shaped GConnectFour FourInARow.INITIAL_STATE
  /\ well_shaped GBattleship Battleship.INITIAL_STATE
  /\ well_shaped GMemoryMatch MemoryMatch.INITIAL_STATE.
Proof.
  split; [reflexivity|]. split; [|by constructor].
  cbn. unfold playerShape, gridShape, shipInside.
  repeat split; repeat constructor.
Qed.

(** ** Turkish Wordle: rejected submissions *)

(** C8, as stated, fails: the buffer "elmas" is not a member of the
    dictionary [ELMAS; KALEM], yet [submitGuess] upper-cases it before the
    dictionary test, accepts it and consumes an attempt. *)
Lemma wordle_rejection_counterexample :
  let s := Examples.lowercase_guess in
  let s' := TurkishWordle.submitGuess TurkishWordle.trUpper Examples.dictionary s in
  ~ (TurkishWordle.status s = in_progress ->
     Z.of_nat (length (TurkishWordle.currentGuess s)) <> TurkishWordle.wordLength s
     \/ TurkishWordle.currentGuess s ∉ Examples.dictionary ->
     TurkishWordle.errorMessage s' <> None
     /\ TurkishWordle.guesses s' = TurkishWordle.guesses s
     /\ TurkishWordle.currentAttemptIndex s' = TurkishWordle.currentAttemptIndex s
     /\ TurkishWordle.status s' = TurkishWordle.status s
     /\ TurkishWordle.winner s' = TurkishWordle.winner s
     /\ TurkishWordle.targetWord s' = TurkishWordle.targetWord s).
Proof.
  intros s s' Hclaim.
  destruct Hclaim as [Herr _];
    [reflexivity | right; apply (bool_decide_unpack _); by vm_compute |].
  apply Herr. reflexivity.
Qed.

(** C8, amended. In an in-progress state, if the guess that [submitGuess]
    checks, the locale-uppercased [currentGuess], has a length other than
    [wordLength] or is not in the allowed-word dictionary, the returned
    state carries an error message and has the same [guesses],
    [currentAttemptIndex], [status], [winner] and [targetWord]. *)
Theorem wordle_rejected_submission :
  forall (toLocaleUpperCase : jsstring -> jsstring)
         (ALLOWED_WORDS_TR : list jsstring)
         (s : TurkishWordle.TurkishWordleState),
    TurkishWordle.status s = in_progress ->
    let guess := toLocaleUpperCase (TurkishWordle.currentGuess s) in
    Z.of_nat (length guess) <> TurkishWordle.wordLength s
    \/ guess ∉ ALLOWED_WORDS_TR ->
    let s' := TurkishWordle.submitGuess toLocaleUpperCase ALLOWED_WORDS_TR s in
    TurkishWordle.errorMessage s' <> None
    /\ TurkishWordle.guesses s' = TurkishWordle.guesses s
    /\ TurkishWordle.currentAttemptIndex s' = TurkishWordle.currentAttemptIndex s
    /\ TurkishWordle.status s' = TurkishWordle.status s
    /\ TurkishWordle.winner s' = TurkishWordle.winner s
    /\ TurkishWordle.targetWord s' = TurkishWordle.targetWord s.
Proof.
  intros up dict s Hst guess Hbad s'. subst s' guess.
  unfold TurkishWordle.submitGuess.
  rewrite bool_decide_eq_false_2 by (rewrite Hst; auto).
  case_bool_decide as Hlen; [done|].
  unfold TurkishWordle.isValidTurkishWord.
  rewrite bool_decide_eq_false_2 by (intros Hn; by apply Hn).
  destruct Hbad as [Hbad|Hbad]; [done|].
  unfold arr_includes. rewrite (bool_decide_eq_false_2 _ Hbad). done.
Qed.

Lemma wordle_rejected_submission_witness :
  let s' := TurkishWordle.submitGuess TurkishWordle.trUpper Examples.dictionary
              Examples.short_guess in
  TurkishWordle.errorMessage s' <> None
  /\ TurkishWordle.guesses s' = []
  /\ TurkishWordle.currentAttemptIndex s' = 0
  /\ TurkishWordle.status s' = in_progress
  /\ TurkishWordle.winner s' = None
  /\ TurkishWordle.targetWord s' = Examples.KALEM.
Proof.
  apply (wordle_rejected_submission TurkishWordle.trUpper Examples.dictionary
           Examples.short_guess); [reflexivity|].
  left. vm_compute. discriminate.
Defined.

(** ** Battleship: the winning shot *)

Section BattleshipFacts.

Import Battleship.

Lemma cellAt_unfold (g : Grid) (r c : Z) :
  cellAt g r c = match idx g r with
                 | Some rw => Return (idx rw c)
                 | None => Throw
                 end.
Proof. unfold cellAt, elem. by destruct (idx g r). Qed.

Lemma cellAt_returns (g : Grid) (r c : Z) :
  0 <= r < Z.of_nat (length g) -> exists x, cellAt g r c = Return x.
Proof.
  intros Hr. rewrite cellAt_unfold.
  destruct (idx_in_range g r Hr) as [rw ->]. by eexists.
Qed.

(** A write onto an existing cell returns. *)
Lemma write_returns (g : Grid) (r c : Z) (x v : CellStatus) :
  cellAt g r c = Return (Some x) -> exists g', write g r c v = Return g'.
Proof.
  rewrite cellAt_unfold. unfold write, elem.
  destruct (idx g r) as [rw|]; [|done]. intros [= Hc].
  cbn [mbind result_bind].
  apply idx_Some_range in Hc. rewrite decide_True by done. by eexists.
Qed.

Lemma forallb_fmap_lookup {A B} (f : A -> B) (p : B -> bool) (l : list A) :
  (forall j x, l !! j = Some x -> p (f x) = true) ->
  forallb p (f <$> l) = true.
Proof.
  intros H. apply forallb_forall. intros y Hy.
  apply list_elem_of_In, list_elem_of_fmap in Hy as (x & -> & Hx).
  apply list_elem_of_lookup in Hx as [j Hj]. by eapply H.
Qed.

Lemma hitShip_covers (r c : Z) (sh : Ship) :
  Battleship.covers sh r c = true -> hits (hitShip r c sh) = hits sh + 1
                          /\ size (hitShip r c sh) = size sh.
Proof.
  unfold covers, hitShip. destruct (position sh); [|done]. by intros ->.
Qed.

Lemma hitShip_not_covers (r c : Z) (sh : Ship) :
  Battleship.covers sh r c = false -> hitShip r c sh = sh.
Proof.
  unfold covers, hitShip. destruct (position sh); [|done]. by intros ->.
Qed.

End BattleshipFacts.

Lemma before_last_shot_is_last_cell :
  Battleship.lastCellOfLastShip Examples.before_last_shot 4 1 4
    Examples.submarine_of_p2.
Proof.
  unfold Battleship.lastCellOfLastShip. split_and!; try reflexivity.
  intros j sh Hne Hj.
  destruct j as [|[|[|[|[|j]]]]];
    [injection Hj as <-; by split .. | by destruct Hne | done].
Qed.

(** C2, as stated, fails on its last clause. Before the last shot of the
    example game the phase is [in_progress] and (4, 1) is the last cell of
    P2's last unsunk ship; after P1 fires there the phase is [finished] and
    the winner is P1, but [status] is still [in_progress]: [fireShot] never
    writes it. *)
Lemma battleship_winning_shot_counterexample :
  Battleship.phase Examples.before_last_shot = Battleship.phase_in_progress
  /\ Battleship.lastCellOfLastShip Examples.before_last_shot 4 1 4
       Examples.submarine_of_p2
  /\ Battleship.fireShot Examples.before_last_shot 4 1 = Return Examples.game_over
  /\ Battleship.phase Examples.game_over = Battleship.finished
  /\ Battleship.winner Examples.game_over
     = Some (Battleship.currentPlayer Examples.before_last_shot)
  /\ is_terminal (Battleship.status Examples.game_over) = false.
Proof.
  split; [reflexivity|]. split; [exact before_last_shot_is_last_cell|].
  repeat split; by vm_compute.
Qed.

(** C2, amended. In phase [in_progress], if firing at [(r, c)] hits the
    last cell of the only remaining unsunk ship of the defender (the cell
    has not been fired at, holds a ship on the defender's grid, lies in the
    span of that ship and of no other, and every other ship is sunk), then
    [fireShot] returns a state in which that ship's hits equal its size,
    every defender ship has hits equal to size, the phase is [finished]
    and the winner is the attacker; [status] keeps its value. *)
Theorem battleship_winning_shot :
  forall (s : Battleship.BattleshipState) (r c : Z) (k : nat)
         (last : Battleship.Ship),
    Battleship.phase s = Battleship.phase_in_progress ->
    Battleship.lastCellOfLastShip s r c k last ->
    exists s' last',
      Battleship.fireShot s r c = Return s'
      /\ Battleship.ships (Battleship.boardOfOpponent (Battleship.currentPlayer s) s') !! k
         = Some last'
      /\ Battleship.hits last' = Battleship.size last'
      /\ (forall sh,
            sh ∈ Battleship.ships (Battleship.boardOfOpponent (Battleship.currentPlayer s) s') ->
            Battleship.hits sh = Battleship.size sh)
      /\ Battleship.phase s' = Battleship.finished
      /\ Battleship.winner s' = Some (Battleship.currentPlayer s)
      /\ Battleship.status s' = Battleship.status s.
Proof.
  intros s r c k last Hph (Hfired & Haimed & Hk & Hcov & Hlast & Hothers).
  unfold Battleship.attackerBoard, Battleship.defenderBoard in *.
  unfold Battleship.fireShot.
  rewrite bool_decide_eq_false_2 by (rewrite Hph; auto).
  rewrite Hfired. cbn [mbind result_bind].
  rewrite bool_decide_eq_false_2 by auto.
  rewrite Haimed. cbn [mbind result_bind].
  rewrite (bool_decide_eq_true_2 (Some Battleship.ship = Some Battleship.ship))
    by done.
  destruct (write_returns _ _ _ _ Battleship.hit Hfired) as [shots' ->].
  destruct (write_returns _ _ _ _ Battleship.hit Haimed) as [grid' ->].
  cbn [mbind result_bind].
  set (target := if bool_decide (Battleship.currentPlayer s = P1)
                 then Battleship.p2 s else Battleship.p1 s) in *.
  assert (forall j x, Battleship.ships target !! j = Some x ->
            bool_decide (Battleship.hits (Battleship.hitShip r c x)
                         = Battleship.size (Battleship.hitShip r c x)) = true)
    as Hsunk.
  { intros j x Hj. apply bool_decide_eq_true.
    destruct (decide (j = k)) as [->|Hne].
    - assert (x = last) as -> by congruence.
      destruct (hitShip_covers r c last Hcov) as [-> ->]. done.
    - destruct (Hothers j x Hne Hj) as [Hs Hn].
      by rewrite (hitShip_not_covers r c x Hn). }
  rewrite (forallb_fmap_lookup (Battleship.hitShip r c)
             (fun sh => bool_decide (Battleship.hits sh = Battleship.size sh))
             (Battleship.ships target) Hsunk).
  eexists _, (Battleship.hitShip r c last). split; [reflexivity|].
  unfold Battleship.boardOfOpponent.
  cbn [Battleship.phase Battleship.winner Battleship.status
       Battleship.p1 Battleship.p2].
  assert (Battleship.hits (Battleship.hitShip r c last)
          = Battleship.size (Battleship.hitShip r c last)) as Hlast'.
  { by destruct (hitShip_covers r c last Hcov) as [-> ->]. }
  assert (forall sh, sh ∈ Battleship.hitShip r c <$> Battleship.ships target ->
            Battleship.hits sh = Battleship.size sh) as Hall.
  { intros sh Hsh.
    apply list_elem_of_fmap in Hsh as (x & -> & Hx).
    apply list_elem_of_lookup in Hx as [j Hj].
    eapply bool_decide_eq_true_1, Hsunk, Hj. }
  destruct (bool_decide (Battleship.currentPlayer s = P1));
    cbn [Battleship.ships]; rewrite list_lookup_fmap, Hk; auto 10.
Qed.

Lemma battleship_winning_shot_witness :
  exists s' last',
    Battleship.fireShot Examples.before_last_shot 4 1 = Return s'
    /\ Battleship.ships
         (Battleship.boardOfOpponent
            (Battleship.currentPlayer Examples.before_last_shot) s') !! 4%nat
       = Some last'
    /\ Battleship.hits last' = Battleship.size last'
    /\ (forall sh,
          sh ∈ Battleship.ships
                 (Battleship.boardOfOpponent
                    (Battleship.currentPlayer Examples.before_last_shot) s') ->
          Battleship.hits sh = Battleship.size sh)
    /\ Battleship.phase s' = Battleship.finished
    /\ Battleship.winner s'
       = Some (Battleship.currentPlayer Examples.before_last_shot)
    /\ Battleship.status s' = Battleship.status Examples.before_last_shot.
Proof.
  apply (battleship_winning_shot Examples.before_last_shot 4 1 4%nat
           Examples.submarine_of_p2).
  - reflexivity.
  - unfold Battleship.lastCellOfLastShip. split_and!; try reflexivity.
    intros j sh Hne Hj.
    destruct j as [|[|[|[|[|j]]]]];
      [injection Hj as <-; by split .. | by destruct Hne | done].
Defined.

(** ** Terminal absorption *)







(** ** Turn preservation *)

(** C6, as stated, fails on Battleship: the shot that ends the example game
    produces a terminal state (phase [finished]) and hands the turn to the
    other player; and where the status field itself is terminal, as in
    [status_won], a shot keeps that status and still flips the turn. *)
Lemma turn_preservation_counterexample :
  (Battleship.fireShot Examples.before_last_shot 4 1 = Return Examples.game_over
   /\ terminal GBattleship Examples.game_over
   /\ Battleship.currentPlayer Examples.game_over
      <> Battleship.currentPlayer Examples.before_last_shot)
  /\ (exists s',
        Battleship.fireShot Examples.status_won 5 5 = Return s'
        /\ Battleship.status s' = win
        /\ Battleship.currentPlayer s'
           <> Battleship.currentPlayer Examples.status_won).
Proof.
  split.
  - split; [by vm_compute|]. split; [by right | by vm_compute].
  - eexists. split; [by vm_compute|]. split; by vm_compute.
Qed.

(** C6, amended. For every game except Rock-Paper-Scissors and Battleship
    and every transition function, if the returned status is terminal then
    the returned [currentPlayer] is that of the input. In Battleship a shot
    at a cell not yet fired at always hands the turn to the other player,
    whether or not it ends the game. *)
Theorem turn_preservation :
  forall (toUpperCase toLocaleUpperCase : jsstring -> jsstring)
         (ALLOWED_WORDS_TR : list jsstring),
    (forall (g : Game) (s s' : State g) (a : Action g),
        g <> GRockPaperScissors -> g <> GBattleship ->
        step toUpperCase toLocaleUpperCase ALLOWED_WORDS_TR g s a = Return s' ->
        is_terminal (statusOf g s') = true ->
        currentPlayerOf g s' = currentPlayerOf g s)
    /\ (forall (s s' : Battleship.BattleshipState) (r c : Z),
          Battleship.phase s = Battleship.phase_in_progress ->
          Battleship.cellAt (Battleship.shots (Battleship.attackerBoard s)) r c
          = Return (Some Battleship.empty) ->
          Battleship.fireShot s r c = Return s' ->
          Battleship.currentPlayer s' = other (Battleship.currentPlayer s)).
Proof.
  intros up up' dict. split.
  - intros g s s' a Hrps Hbs Hstep Hterm. destruct g; try done; cbn in *.
    + injection Hstep as <-. revert Hterm. unfold TicTacToe.makeMove.
      destruct (_ || _); [done|].
      destruct (TicTacToe.checkWinner _); [done|].
      by destruct (TicTacToe.checkDraw _).
    + revert Hstep. unfold FourInARow.makeMove.
      case_bool_decide; [by intros [= <-]|].
      destruct (FourInARow.lowestEmptyRow _ _ _) as [z| |]; try done.
      cbn [mbind result_bind]. case_bool_decide; [by intros [= <-]|].
      destruct (FourInARow.checkWinner _) as [[w|]| |]; try done;
        cbn [mbind result_bind].
      * by intros [= <-].
      * destruct (FourInARow.checkDraw _) as [[|]| |]; try done;
          cbn [mbind result_bind]; intros [= <-]; [done|].
        cbn in Hterm. done.
    + destruct a as [index|].
      * revert Hstep. unfold MemoryMatch.flipCard.
        case_bool_decide; [by intros [= <-]|].
        case_bool_decide; [by intros [= <-]|].
        destruct (elem _ _) as [card| |]; try done. cbn [mbind result_bind].
        by destruct (_ || _); intros [= <-].
      * revert Hstep. unfold MemoryMatch.checkMatch.
        destruct (MemoryMatch.flippedIndices s) as [|i1 [|i2 [|i3 l]]];
          try (by intros [= <-]).
        destruct (elem _ i1) as [c1| |]; try done.
        destruct (elem _ i2) as [c2| |]; try done.
        cbn [mbind result_bind]. by intros [= <-].
    + injection Hstep as <-. revert Hterm. unfold NumberGuess.makeGuess.
      case_bool_decide; [done|]. cbn.
      destruct (decide (a = NumberGuess.targetNumber s)); [|done].
      rewrite bool_decide_eq_false_2; done.
    + destruct a. injection Hstep as <-. unfold TinyGeoGuess.makeGuess.
      by case_bool_decide.
    + injection Hstep as <-. unfold WordGuess.makeGuess.
      case_bool_decide; [done|]. by destruct (arr_includes _ _).
    + destruct a; injection Hstep as <-.
      * unfold TurkishWordle.submitGuess.
        case_bool_decide; [done|]. case_bool_decide; [done|].
        by destruct (negb _).
      * unfold TurkishWordle.updateCurrentGuess.
        case_bool_decide; [done|]. by case_bool_decide.
  - intros s s' r c Hph Hfired. unfold Battleship.attackerBoard in Hfired.
    unfold Battleship.fireShot.
    rewrite bool_decide_eq_false_2 by (rewrite Hph; auto).
    rewrite Hfired. cbn [mbind result_bind].
    rewrite bool_decide_eq_false_2 by auto.
    destruct (Battleship.cellAt (Battleship.grid _) r c) as [aimed| |]; try done.
    cbn [mbind result_bind].
    destruct (Battleship.write (Battleship.shots _) r c _) as [shots'| |];
      try done.
    cbn [mbind result_bind].
    match goal with
    | |- context [mbind _ (if ?b then ?x else ?y)] =>
        destruct (if b then x else y) as [grid'| |]
    end; try done.
    cbn [mbind result_bind]. intros [= <-]. cbn.
    by destruct (Battleship.currentPlayer s).
Qed.

Lemma turn_preservation_witness :
  currentPlayerOf GTicTacToe
    (foldl TicTacToe.makeMove TicTacToe.INITIAL_STATE [0; 4; 1; 5; 2])
  = currentPlayerOf GTicTacToe
      (foldl TicTacToe.makeMove TicTacToe.INITIAL_STATE [0; 4; 1; 5])
  /\ Battleship.currentPlayer Examples.game_over
     = other (Battleship.currentPlayer Examples.before_last_shot).
Proof.
  split.
  - apply (proj1 (turn_preservation (fun u => u) (fun u => u) []) GTicTacToe
             (foldl TicTacToe.makeMove TicTacToe.INITIAL_STATE [0; 4; 1; 5])
             (foldl TicTacToe.makeMove TicTacToe.INITIAL_STATE [0; 4; 1; 5; 2])
             2); try done.
  - apply (proj2 (turn_preservation (fun u => u) (fun u => u) [])
             Examples.before_last_shot Examples.game_over 4 1);
      by vm_compute.
Defined.

(** ** Idempotence of rejection *)

Lemma with_message_idem (s : Battleship.BattleshipState) (m : option jsstring) :
  Battleship.with_message (Battleship.with_message s m) m
  = Battleship.with_message s m.
Proof. done. Qed.

Lemma fireShot_already_fired (s : Battleship.BattleshipState) (r c : Z)
    (x : Battleship.CellStatus) :
  Battleship.phase s = Battleship.phase_in_progress ->
  Battleship.cellAt (Battleship.shots (Battleship.attackerBoard s)) r c
  = Return (Some x) ->
  x <> Battleship.empty ->
  Battleship.fireShot s r c
  = Return (Battleship.with_message s (Some (str "Already shot there!"))).
Proof.
  intros Hph Hfired Hx. unfold Battleship.attackerBoard in Hfired.
  unfold Battleship.fireShot.
  rewrite bool_decide_eq_false_2 by (rewrite Hph; auto).
  rewrite Hfired. cbn [mbind result_bind].
  rewrite bool_decide_eq_true_2; [done | congruence].
Qed.

Lemma makeMove_full_column (s : FourInARow.FourInARowState) (colIndex : Z) :
  (forall r, 0 <= r < FourInARow.ROWS ->
     exists p, FourInARow.cell (FourInARow.board s) r colIndex
               = Return (Some (Some p))) ->
  FourInARow.makeMove s colIndex = Return s.
Proof.
  intros Hfull. unfold FourInARow.makeMove.
  case_bool_decide; [done|].
  assert (Z.to_nat FourInARow.ROWS <= length (FourInARow.board s))%nat as Hlen.
  { destruct (Hfull 5) as [p Hp]; [unfold FourInARow.ROWS; lia|].
    rewrite cell_unfold in Hp.
    destruct (idx (FourInARow.board s) 5) eqn:H5; [|done].
    apply idx_Some_range in H5. unfold FourInARow.ROWS. lia. }
  destruct (lowestEmptyRow_spec (FourInARow.board s) colIndex
              (Z.to_nat FourInARow.ROWS) Hlen) as (z & -> & Hcases).
  cbn [mbind result_bind].
  destruct Hcases as [[-> _]|(Hr & Hempty & _)].
  - by rewrite bool_decide_eq_true_2.
  - destruct (Hfull z) as [p Hp]; [unfold FourInARow.ROWS in *; lia|].
    congruence.
Qed.

Lemma submitGuess_rejects (up : jsstring -> jsstring) (dict : list jsstring)
    (s : TurkishWordle.TurkishWordleState) :
  TurkishWordle.status s = in_progress ->
  Z.of_nat (length (up (TurkishWordle.currentGuess s))) <> TurkishWordle.wordLength s
  \/ up (TurkishWordle.currentGuess s) ∉ dict ->
  TurkishWordle.submitGuess up dict s
  = TurkishWordle.with_error s
      (if bool_decide (Z.of_nat (length (up (TurkishWordle.currentGuess s)))
                       <> TurkishWordle.wordLength s)
       then TurkishWordle.SHORT_WORD else TurkishWordle.INVALID_WORD).
Proof.
  intros Hst Hbad. unfold TurkishWordle.submitGuess.
  rewrite bool_decide_eq_false_2 by (rewrite Hst; auto).
  case_bool_decide as Hlen; [done|].
  unfold TurkishWordle.isValidTurkishWord.
  rewrite bool_decide_eq_false_2 by (intros Hn; by apply Hn).
  destruct Hbad as [Hbad|Hbad]; [done|].
  unfold arr_includes. by rewrite (bool_decide_eq_false_2 _ Hbad).
Qed.

(** C7. For every game and every action that is illegal in a state (an
    occupied TicTacToe cell, a full ConnectFour column, a Battleship
    coordinate already fired at, an invalid Wordle word, a repeated
    Hangman letter, a MemoryMatch card already face up or matched), the
    transition returns a state on which the same action returns that same
    state again: f(f(s, a), a) = f(s, a). *)
Theorem rejection_idempotent :
  forall (toUpperCase toLocaleUpperCase : jsstring -> jsstring)
         (ALLOWED_WORDS_TR : list jsstring)
         (g : Game) (s : State g) (a : Action g),
    illegal toUpperCase toLocaleUpperCase ALLOWED_WORDS_TR g s a ->
    exists s',
      step toUpperCase toLocaleUpperCase ALLOWED_WORDS_TR g s a = Return s'
      /\ step toUpperCase toLocaleUpperCase ALLOWED_WORDS_TR g s' a = Return s'.
Proof.
  intros up up' dict g s a Hill. destruct g; cbn in Hill; try done.
  - destruct Hill as [p Hp]. exists s.
    assert (TicTacToe.makeMove s a = s) as Hrej.
    { unfold TicTacToe.makeMove.
      rewrite (bool_decide_eq_true_2 (idx _ _ <> _)) by congruence.
      by rewrite orb_true_r. }
    cbn. by rewrite Hrej.
  - exists s. cbn. by rewrite makeMove_full_column.
  - destruct a as [r c|shipId| | |r c]; try done.
    destruct Hill as (Hph & x & Hfired & Hx).
    eexists. cbn. split; [by eapply fireShot_already_fired|].
    erewrite fireShot_already_fired; [by rewrite with_message_idem | done | | done].
    exact Hfired.
  - destruct a as [index|]; [|done].
    destruct Hill as (card & Hcard & Hup). exists s.
    assert (MemoryMatch.flipCard s index = Return s) as Hrej.
    { unfold MemoryMatch.flipCard.
      case_bool_decide; [done|]. case_bool_decide; [done|].
      rewrite (proj2 (elem_Return _ _ _) Hcard). cbn [mbind result_bind].
      destruct Hup as [-> | ->]; [done|]. by rewrite orb_true_r. }
    cbn. by rewrite Hrej.
  - exists s.
    assert (WordGuess.makeGuess up s a = s) as Hrej.
    { unfold WordGuess.makeGuess. case_bool_decide; [done|].
      unfold arr_includes. by rewrite bool_decide_eq_true_2. }
    cbn. by rewrite Hrej.
  - destruct a as [|text]; [|done].
    destruct (decide (TurkishWordle.status s = in_progress)) as [Hst|Hst].
    + eexists. cbn [step].
      split; [by rewrite (submitGuess_rejects up' dict s Hst Hill)|].
      set (msg := if bool_decide _ then _ else _).
      by rewrite (submitGuess_rejects up' dict (TurkishWordle.with_error s msg)
                    Hst Hill).
    + exists s. cbn. unfold TurkishWordle.submitGuess.
      by rewrite bool_decide_eq_true_2.
Qed.

Lemma rejection_idempotent_witness :
  exists s',
    step (fun u => u) (fun u => u) [] GBattleship Examples.before_last_shot
      (FireShot 0 0) = Return s'
    /\ step (fun u => u) (fun u => u) [] GBattleship s' (FireShot 0 0)
       = Return s'.
Proof.
  apply (rejection_idempotent (fun u => u) (fun u => u) [] GBattleship
           Examples.before_last_shot (FireShot 0 0)).
  split; [reflexivity|]. exists Battleship.hit. split; [reflexivity | done].
Defined.

(** ** Totality *)

Section BattleshipTotality.

Import Battleship.

Lemma gridShape_row (g : Grid) (r : Z) :
  gridShape g -> 0 <= r < GRID_SIZE ->
  exists rw, idx g r = Some rw /\ Z.of_nat (length rw) = GRID_SIZE.
Proof.
  intros [Hlen Hrows] Hr.
  destruct (idx_in_range g r) as [rw Hrw]; [lia|].
  exists rw. split; [done|].
  unfold idx in Hrw. destruct (decide (0 <= r)); [|done].
  by apply (Forall_lookup_1 _ _ _ _ Hrows Hrw).
Qed.

Lemma gridShape_set (g : Grid) (r c : Z) (rw : list CellStatus) (v : CellStatus) :
  gridShape g -> idx g r = Some rw -> gridShape (set_idx g r (set_idx rw c v)).
Proof.
  intros [Hlen Hrows] Hrw. split.
  - by rewrite length_set_idx.
  - unfold set_idx at 1. destruct (decide (0 <= r)); [|done].
    apply Forall_insert; [done|]. rewrite length_set_idx.
    unfold idx in Hrw. rewrite decide_True in Hrw by done.
    by apply (Forall_lookup_1 _ _ _ _ Hrows Hrw).
Qed.

Lemma write_inGrid (g : Grid) (r c : Z) (v : CellStatus) :
  gridShape g -> inGrid (r, c) ->
  exists g', write g r c v = Return g' /\ gridShape g'.
Proof.
  intros Hg [Hr Hc]. cbn [fst snd] in Hr, Hc.
  destruct (gridShape_row g r Hg Hr) as (rw & Hrw & Hlen).
  unfold write. rewrite (proj2 (elem_Return _ _ _) Hrw). cbn [mbind result_bind].
  rewrite decide_True by lia.
  eexists. split; [done|]. by apply gridShape_set.
Qed.

Lemma writeAll_inGrid (cells : list (Z * Z)) (v : CellStatus) :
  forall g : Grid,
    gridShape g -> Forall inGrid cells ->
    exists g', writeAll g cells v = Return g' /\ gridShape g'.
Proof.
  induction cells as [|[r c] rest IH]; intros g Hg Hcells.
  - by exists g.
  - apply Forall_cons in Hcells as [Hrc Hrest]. cbn [writeAll].
    destruct (write_inGrid g r c v Hg Hrc) as (g1 & -> & Hg1).
    cbn [mbind result_bind]. by apply IH.
Qed.

Lemma allEmpty_returns (g : Grid) (cells : list (Z * Z)) :
  Z.of_nat (length g) = GRID_SIZE ->
  Forall (fun cell => 0 <= cell.1 < GRID_SIZE) cells ->
  returns (allEmpty g cells).
Proof.
  intros Hlen. induction cells as [|[r c] rest IH]; intros Hcells.
  - by eexists.
  - apply Forall_cons in Hcells as [Hr Hrest]. cbn [fst] in Hr.
    cbn [allEmpty].
    destruct (cellAt_returns g r c) as [x ->]; [lia|].
    cbn [mbind result_bind]. case_bool_decide; [by eexists | by apply IH].
Qed.

Lemma allEmpty_true_inGrid (g : Grid) (cells : list (Z * Z)) :
  gridShape g -> allEmpty g cells = Return true -> Forall inGrid cells.
Proof.
  intros Hg. induction cells as [|[r c] rest IH]; intros Hall; [done|].
  cbn [allEmpty] in Hall.
  destruct (cellAt g r c) as [x| |] eqn:Hx; try done.
  cbn [mbind result_bind] in Hall.
  case_bool_decide as Hne; [done|].
  assert (x = Some empty) as -> by (by destruct (decide (x = Some empty))).
  apply Forall_cons. split; [|by apply IH].
  rewrite cellAt_unfold in Hx.
  destruct (idx g r) as [rw|] eqn:Hrw; [|done]. injection Hx as Hc.
  pose proof (idx_Some_range _ _ _ Hrw) as Hr.
  pose proof (idx_Some_range _ _ _ Hc) as Hc'.
  destruct Hg as [Hlen Hrows].
  assert (Z.of_nat (length rw) = GRID_SIZE) as Hrwlen.
  { unfold idx in Hrw. destruct (decide (0 <= r)); [|done].
    by apply (Forall_lookup_1 _ _ _ _ Hrows Hrw). }
  split; cbn [fst snd]; lia.
Qed.

Lemma span_rows (r c sz : Z) (o : Orientation) :
  0 <= r < GRID_SIZE ->
  (o = vertical -> r + sz <= GRID_SIZE) ->
  Forall (fun cell => 0 <= cell.1 < GRID_SIZE) (span r c o sz).
Proof.
  intros Hr Ho. unfold span. apply Forall_fmap, Forall_forall.
  intros i Hi. apply elem_of_seqZ in Hi. cbn.
  destruct o; cbn [fst]; [lia|]. specialize (Ho eq_refl). lia.
Qed.

Lemma canPlaceShip_returns (g : Grid) (sz r c : Z) (o : Orientation) :
  Z.of_nat (length g) = GRID_SIZE -> 0 <= r < GRID_SIZE ->
  returns (canPlaceShip g sz r c o).
Proof.
  intros Hlen Hr. unfold canPlaceShip. destruct o.
  - case_bool_decide; [by eexists|].
    apply allEmpty_returns; [done|]. by apply span_rows.
  - case_bool_decide; [by eexists|].
    apply allEmpty_returns; [done|]. apply span_rows; [done|]. lia.
Qed.

Lemma canPlaceShip_true_inGrid (g : Grid) (sz r c : Z) (o : Orientation) :
  gridShape g -> canPlaceShip g sz r c o = Return true ->
  Forall inGrid (span r c o sz).
Proof.
  intros Hg. unfold canPlaceShip.
  destruct o; (case_bool_decide; [done|]); by apply allEmpty_true_inGrid.
Qed.

Lemma findIndex_lookup (l : list Ship) (shipId : jsstring) (k : nat) :
  findIndex l shipId = Some k -> exists sh, l !! k = Some sh.
Proof.
  revert k. induction l as [|s l IH]; intros k; [done|].
  cbn [findIndex]. destruct (decide (id s = shipId)).
  - intros [= <-]. by exists s.
  - destruct (findIndex l shipId) as [k'|]; [|done].
    intros [= <-]. by apply IH.
Qed.

Lemma cellAt_Some_inGrid (g : Grid) (r c : Z) (x : CellStatus) :
  gridShape g -> cellAt g r c = Return (Some x) -> inGrid (r, c).
Proof.
  intros [Hlen Hrows] Hx. rewrite cellAt_unfold in Hx.
  destruct (idx g r) as [rw|] eqn:Hrw; [|done]. injection Hx as Hc.
  pose proof (idx_Some_range _ _ _ Hrw) as Hr.
  pose proof (idx_Some_range _ _ _ Hc) as Hc'.
  assert (Z.of_nat (length rw) = GRID_SIZE) as Hrwlen.
  { unfold idx in Hrw. destruct (decide (0 <= r)); [|done].
    by apply (Forall_lookup_1 _ _ _ _ Hrows Hrw). }
  split; cbn [fst snd]; lia.
Qed.

Lemma shipInside_hitShip (r c : Z) (sh : Ship) :
  shipInside sh -> shipInside (hitShip r c sh).
Proof.
  unfold hitShip. destruct (position sh) as [pos|] eqn:Hpos; [|done].
  destruct (isThisShip sh pos r c); [|done].
  unfold shipInside. cbn. by rewrite Hpos.
Qed.

Lemma placeShip_shaped (s : BattleshipState) (r c : Z) :
  playerShape (p1 s) -> playerShape (p2 s) -> 0 <= r < GRID_SIZE ->
  exists s', placeShip s r c = Return s'
             /\ playerShape (p1 s') /\ playerShape (p2 s').
Proof.
  intros H1 H2 Hr. unfold placeShip.
  destruct (_ && _); [by eexists|].
  destruct (selectedShipId (setup s)) as [[|u shipId]|]; try by eexists.
  set (playerState := if bool_decide (phase s = setup_p1) then p1 s else p2 s).
  assert (playerShape playerState) as (Hgrid & Hshots & Hships).
  { subst playerState. by destruct (bool_decide (phase s = setup_p1)). }
  destruct (findIndex (ships playerState) (u :: shipId)) as [k|] eqn:Hk;
    [|by eexists].
  destruct (findIndex_lookup _ _ _ Hk) as [sh Hsh].
  assert (elem (ships playerState) (Z.of_nat k) = Return sh) as ->.
  { apply elem_Return. unfold idx. rewrite decide_True by lia.
    by rewrite Nat2Z.id. }
  cbn [mbind result_bind].
  assert (exists cleared,
            match placed sh, position sh with
            | true, Some pos =>
                writeAll (grid playerState)
                  (span (row pos) (col pos) (orientation pos) (size sh)) empty
            | _, _ => Return (grid playerState)
            end = Return cleared /\ gridShape cleared)
    as (cleared & -> & Hcleared).
  { pose proof (Forall_lookup_1 _ _ _ _ Hships Hsh) as Hin.
    unfold shipInside in Hin.
    destruct (placed sh); [|by eexists].
    destruct (position sh) as [pos|]; [|by eexists].
    by apply writeAll_inGrid. }
  cbn [mbind result_bind].
  destruct (canPlaceShip_returns cleared (size sh) r c
              (setup_orientation (setup s))) as [ok Hok];
    [by destruct Hcleared | done |].
  rewrite Hok. cbn [mbind result_bind].
  destruct ok; cbn [negb]; [|by eexists].
  pose proof (canPlaceShip_true_inGrid _ _ _ _ _ Hcleared Hok) as Hspan.
  destruct (writeAll_inGrid
              (span r c (setup_orientation (setup s)) (size sh)) ship cleared
              Hcleared Hspan)
    as (newGrid & -> & HnewGrid).
  cbn [mbind result_bind]. eexists. split; [done|]. cbn [p1 p2].
  assert (playerShape
            {| grid := newGrid;
               ships :=
                 <[k := {| id := id sh; name := name sh; size := size sh;
                           hits := hits sh; placed := true;
                           position :=
                             Some {| row := r; col := c;
                                     orientation := setup_orientation (setup s) |}
                        |}]> (ships playerState);
               shots := shots playerState |}) as Hnew.
  { split; [done|]. split; [done|]. cbn [ships].
    apply Forall_insert; [done|]. unfold shipInside. by cbn. }
  by destruct (bool_decide (phase s = setup_p1)).
Qed.

Lemma fireShot_shaped (s : BattleshipState) (r c : Z) :
  playerShape (p1 s) -> playerShape (p2 s) -> 0 <= r < GRID_SIZE ->
  exists s', fireShot s r c = Return s'
             /\ playerShape (p1 s') /\ playerShape (p2 s').
Proof.
  intros H1 H2 Hr. unfold fireShot.
  case_bool_decide; [by eexists|].
  set (shooter := if bool_decide (currentPlayer s = P1) then p1 s else p2 s).
  set (target := if bool_decide (currentPlayer s = P1) then p2 s else p1 s).
  assert (playerShape shooter) as (Hsgrid & Hshots & Hsships).
  { subst shooter. by destruct (bool_decide (currentPlayer s = P1)). }
  assert (playerShape target) as (Hgrid & Htshots & Hships).
  { subst target. by destruct (bool_decide (currentPlayer s = P1)). }
  destruct (cellAt_returns (shots shooter) r c) as [fired Hfired];
    [destruct Hshots; lia|].
  rewrite Hfired. cbn [mbind result_bind].
  case_bool_decide as Hne; [by eexists|].
  assert (fired = Some empty) as -> by (by destruct (decide (fired = Some empty))).
  destruct (cellAt_returns (grid target) r c) as [aimed Haimed];
    [destruct Hgrid; lia|].
  rewrite Haimed. cbn [mbind result_bind].
  pose proof (cellAt_Some_inGrid _ _ _ _ Hshots Hfired) as Hin.
  destruct (write_inGrid (shots shooter) r c
              (if bool_decide (aimed = Some ship) then hit else miss) Hshots Hin)
    as (shots' & -> & Hshots').
  cbn [mbind result_bind].
  assert (exists grid',
            (if bool_decide (aimed = Some ship)
             then write (grid target) r c hit
             else Return (grid target)) = Return grid' /\ gridShape grid')
    as (grid' & -> & Hgrid').
  { case_bool_decide; [|by eexists]. by apply write_inGrid. }
  cbn [mbind result_bind]. eexists. split; [done|]. cbn [p1 p2].
  assert (playerShape {| grid := grid shooter; ships := ships shooter;
                         shots := shots' |}) as Hnewshooter by done.
  assert (playerShape
            {| grid := grid';
               ships := if bool_decide (aimed = Some ship)
                        then hitShip r c <$> ships target else ships target;
               shots := shots target |}) as Hnewtarget.
  { split; [done|]. split; [done|]. cbn [ships].
    case_bool_decide; [|done].
    apply Forall_fmap. eapply Forall_impl; [exact Hships|].
    intros sh. apply shipInside_hitShip. }
  by destruct (bool_decide (currentPlayer s = P1)).
Qed.

End BattleshipTotality.

(** C4, as stated, fails: [flipCard] with an index outside the board,
    [fireShot] with a row outside the grid and [canPlaceShip] with a row
    outside the grid all raise instead of returning. *)
Lemma totality_counterexample :
  step (fun u => u) (fun u => u) [] GMemoryMatch Examples.one_up (FlipCard 4)
  = Throw
  /\ step (fun u => u) (fun u => u) [] GBattleship Examples.before_last_shot
       (FireShot 6 0)
     = Throw
  /\ Battleship.canPlaceShip Battleship.createEmptyGrid 2 6 0
       Battleship.horizontal
     = Throw.
Proof. repeat split; by vm_compute. Qed.

(** C4, amended. On states whose arrays have their declared shape (six
    ConnectFour rows; six-by-six Battleship grids with placed ships
    recorded inside the grid; MemoryMatch flipped indices on the board),
    every transition function returns a state, which has the declared
    shape again, for every TicTacToe cell index, every ConnectFour column
    index, every Battleship column, every Battleship row inside the grid
    and every MemoryMatch index on the board, and for every payload of the
    other games. *)
Theorem transitions_total :
  forall (toUpperCase toLocaleUpperCase : jsstring -> jsstring)
         (ALLOWED_WORDS_TR : list jsstring)
         (g : Game) (s : State g) (a : Action g),
    well_shaped g s -> in_range g s a ->
    exists s' : State g,
      step toUpperCase toLocaleUpperCase ALLOWED_WORDS_TR g s a = Return s'
      /\ well_shaped g s'.
Proof.
  intros up up' dict g s a Hshape Hrange.
  destruct g; cbn in Hshape, Hrange; cbn [step well_shaped].
  - by eexists.
  - unfold FourInARow.makeMove. case_bool_decide; [by eexists|].
    destruct (lowestEmptyRow_spec (FourInARow.board s) a
                (Z.to_nat FourInARow.ROWS)) as (z & -> & _).
    { unfold FourInARow.ROWS in *. lia. }
    cbn [mbind result_bind]. case_bool_decide; [by eexists|].
    set (newBoard := FourInARow.set_cell _ _ _ _).
    assert (Z.of_nat (length newBoard) = FourInARow.ROWS) as Hlen.
    { subst newBoard. by rewrite length_set_cell. }
    destruct (checkWinner_returns newBoard Hlen) as [w ->].
    destruct (checkDraw_returns newBoard Hlen) as [d Hd].
    cbn [mbind result_bind]. destruct w; [by eexists|].
    rewrite Hd. cbn [mbind result_bind]. destruct d; by eexists.
  - destruct a. by eexists.
  - destruct Hshape as [H1 H2].
    destruct a as [r c|shipId| | |r c].
    + by apply placeShip_shaped.
    + by eexists.
    + by eexists.
    + eexists. split; [done|]. unfold Battleship.finishSetup.
      repeat case_decide; repeat destruct (existsb _ _); done.
    + by apply fireShot_shaped.
  - destruct a as [index|].
    + unfold MemoryMatch.flipCard.
      case_bool_decide; [by eexists|]. case_bool_decide; [by eexists|].
      destruct (elem_in_range (MemoryMatch.board s) index Hrange) as [card ->].
      cbn [mbind result_bind]. destruct (_ || _); [by eexists|].
      eexists. split; [done|]. cbn [MemoryMatch.board MemoryMatch.flippedIndices].
      rewrite length_set_idx. apply Forall_app. split; [done|].
      by apply Forall_singleton.
    + unfold MemoryMatch.checkMatch.
      destruct (MemoryMatch.flippedIndices s) as [|i1 [|i2 [|i3 l]]] eqn:Hfl;
        try (eexists; split; [done|]; by rewrite Hfl).
      apply Forall_cons in Hshape as [Hi1 Hshape].
      apply Forall_cons in Hshape as [Hi2 _].
      destruct (elem_in_range (MemoryMatch.board s) i1 Hi1) as [c1 ->].
      destruct (elem_in_range (MemoryMatch.board s) i2 Hi2) as [c2 ->].
      eexists. split; [done|]. by cbn.
  - by eexists.
  - destruct a. by eexists.
  - by eexists.
  - destruct a; by eexists.
Qed.

Lemma transitions_total_witness :
  (exists s',
      step (fun u => u) (fun u => u) [] GMemoryMatch Examples.one_up (FlipCard 3)
      = Return s'
      /\ well_shaped GMemoryMatch s')
  /\ (exists s',
        step (fun u => u) (fun u => u) [] GBattleship Examples.before_last_shot
          (FireShot 5 9)
        = Return s'
        /\ well_shaped GBattleship s').
Proof.
  split.
  - apply (transitions_total (fun u => u) (fun u => u) [] GMemoryMatch
             Examples.one_up (FlipCard 3)).
    + cbn. repeat constructor; cbn; lia.
    + cbn. lia.
  - apply (transitions_total (fun u => u) (fun u => u) [] GBattleship
             Examples.before_last_shot (FireShot 5 9)).
    + cbn. unfold playerShape, gridShape, shipInside, inGrid.
      repeat split; repeat constructor; cbn; unfold Battleship.GRID_SIZE; lia.
    + cbn. unfold Battleship.GRID_SIZE. lia.
Defined.

(** * Further properties of the games *)

(** ** TicTacToe *)

Lemma owns_Some (board : TicTacToe.TicTacToeBoardState) (combo : Z * Z * Z)
    (p : Player) :
  TicTacToe.owns board combo = Some p <-> ownsLine board p combo.
Proof.
  destruct combo as [[a b] c]. unfold TicTacToe.owns, ownsLine. cbn [fst snd].
  destruct (idx board a) as [[q|]|]; try (split; [done | by intros [? _]]).
  destruct (decide (idx board b = Some (Some q))) as [Hb|Hb];
    destruct (decide (idx board c = Some (Some q))) as [Hc|Hc];
    rewrite ?(bool_decide_eq_true_2 _ Hb), ?(bool_decide_eq_true_2 _ Hc),
            ?(bool_decide_eq_false_2 _ Hb), ?(bool_decide_eq_false_2 _ Hc);
    cbn [andb]; split; try done.
  - intros [= <-]. done.
  - intros ([= <-] & _ & _). done.
  - intros ([= <-] & _ & Hc'). done.
  - intros ([= <-] & Hb' & _). done.
  - intros ([= <-] & Hb' & _). done.
Qed.

Lemma firstOwner_Some (board : TicTacToe.TicTacToeBoardState)
    (combos : list (Z * Z * Z)) (p : Player) :
  TicTacToe.firstOwner board combos = Some p ->
  exists combo, combo ∈ combos /\ ownsLine board p combo.
Proof.
  induction combos as [|combo rest IH]; [done|]. cbn [TicTacToe.firstOwner].
  destruct (TicTacToe.owns board combo) as [q|] eqn:Hq.
  - intros [= <-]. exists combo. split; [by left|]. by apply owns_Some.
  - intros Hrest. destruct (IH Hrest) as (c' & Hin & Hown).
    exists c'. split; [by right | done].
Qed.

Lemma firstOwner_None (board : TicTacToe.TicTacToeBoardState)
    (combos : list (Z * Z * Z)) :
  TicTacToe.firstOwner board combos = None <->
  forall combo p, combo ∈ combos -> ~ ownsLine board p combo.
Proof.
  induction combos as [|combo rest IH]; cbn [TicTacToe.firstOwner].
  - split; [|done]. intros _ combo p Hin. by apply elem_of_nil in Hin.
  - destruct (TicTacToe.owns board combo) as [q|] eqn:Hq.
    + split; [done|]. intros Hnone. exfalso.
      apply (Hnone combo q); [by left|]. by apply owns_Some.
    + rewrite IH. split.
      * intros Hrest c' p Hin Hown.
        apply elem_of_cons in Hin as [->|Hin].
        -- apply owns_Some in Hown. congruence.
        -- by apply (Hrest c' p).
      * intros Hall c' p Hin. apply Hall. by right.
Qed.

(** X1. [checkWinner] answers a player exactly when some winning
    combination is held: an answer [p] comes with a combination whose three
    cells all hold [p], and the answer is [null] exactly when no player
    holds all three cells of any combination. *)
Theorem tictactoe_checkWinner_lines :
  forall (board : TicTacToe.TicTacToeBoardState),
    (forall p, TicTacToe.checkWinner board = Some p ->
       exists combo, combo ∈ TicTacToe.WINNING_COMBINATIONS
                     /\ ownsLine board p combo)
    /\ (TicTacToe.checkWinner board = None <->
        forall combo p, combo ∈ TicTacToe.WINNING_COMBINATIONS ->
                        ~ ownsLine board p combo).
Proof.
  intros board. split.
  - intros p. apply firstOwner_Some.
  - apply firstOwner_None.
Qed.

Lemma tictactoe_checkWinner_lines_witness :
  exists combo, combo ∈ TicTacToe.WINNING_COMBINATIONS
                /\ ownsLine MoreExamples.top_row_board P1 combo.
Proof.
  apply (proj1 (tictactoe_checkWinner_lines MoreExamples.top_row_board) P1).
  reflexivity.
Defined.

(** X2. On an in-progress state, [makeMove] at an empty cell writes the
    current player's mark there and changes no other cell and not the
    board's length; at any index that is not an empty cell (occupied,
    negative, or past the end of the board) it returns its input. *)
Theorem tictactoe_move_effect :
  forall (s : TicTacToe.TicTacToeState) (index : Z),
    TicTacToe.status s = in_progress ->
    (idx (TicTacToe.board s) index = Some None ->
     let s' := TicTacToe.makeMove s index in
     idx (TicTacToe.board s') index = Some (Some (TicTacToe.currentPlayer s))
     /\ (forall j, j <> index ->
           idx (TicTacToe.board s') j = idx (TicTacToe.board s) j)
     /\ length (TicTacToe.board s') = length (TicTacToe.board s))
    /\ (idx (TicTacToe.board s) index <> Some None ->
        TicTacToe.makeMove s index = s)
    /\ (index < 0 \/ Z.of_nat (length (TicTacToe.board s)) <= index ->
        TicTacToe.makeMove s index = s).
Proof.
  intros s index Hst.
  assert (idx (TicTacToe.board s) index <> Some None ->
          TicTacToe.makeMove s index = s) as Hrej.
  { intros Hne. unfold TicTacToe.makeMove.
    rewrite (bool_decide_eq_true_2 (idx _ _ <> _)) by done.
    by rewrite orb_true_r. }
  split; [|split; [done|]].
  - intros Hempty s'. subst s'. unfold TicTacToe.makeMove.
    rewrite bool_decide_eq_false_2 by (rewrite Hst; auto).
    rewrite bool_decide_eq_false_2 by auto. cbn [orb].
    set (newBoard := set_idx _ _ _).
    assert (idx newBoard index = Some (Some (TicTacToe.currentPlayer s))
            /\ (forall j, j <> index -> idx newBoard j = idx (TicTacToe.board s) j)
            /\ length newBoard = length (TicTacToe.board s)) as Hnew.
    { subst newBoard. split; [by eapply idx_set_idx_eq|]. split.
      - intros j Hj. by apply idx_set_idx_ne.
      - apply length_set_idx. }
    destruct (TicTacToe.checkWinner newBoard); [done|].
    by destruct (TicTacToe.checkDraw newBoard).
  - intros Hout. apply Hrej. intros Hsome.
    apply idx_Some_range in Hsome. lia.
Qed.

Lemma tictactoe_move_effect_witness :
  idx (TicTacToe.board (TicTacToe.makeMove TicTacToe.INITIAL_STATE 4)) 4
  = Some (Some P1)
  /\ TicTacToe.makeMove TicTacToe.INITIAL_STATE 9 = TicTacToe.INITIAL_STATE
  /\ TicTacToe.makeMove TicTacToe.INITIAL_STATE (-1) = TicTacToe.INITIAL_STATE.
Proof.
  pose proof (tictactoe_move_effect TicTacToe.INITIAL_STATE 4 eq_refl)
    as (Hput & _ & _).
  pose proof (tictactoe_move_effect TicTacToe.INITIAL_STATE 9 eq_refl)
    as (_ & _ & Hhigh).
  pose proof (tictactoe_move_effect TicTacToe.INITIAL_STATE (-1) eq_refl)
    as (_ & _ & Hlow).
  split; [apply (Hput eq_refl)|]. split.
  - apply Hhigh. right. cbn. lia.
  - apply Hlow. left. lia.
Defined.

Lemma ownsLine_after_mark (board : TicTacToe.TicTacToeBoardState) (i : Z)
    (mover q : Player) (combo : Z * Z * Z) :
  ownsLine (set_idx board i (Some mover)) q combo ->
  q = mover \/ ownsLine board q combo.
Proof.
  destruct combo as [[a b] c]. unfold ownsLine. cbn [fst snd].
  intros (Ha & Hb & Hc).
  assert (forall x, idx (set_idx board i (Some mover)) x = Some (Some q) ->
            q = mover \/ idx board x = Some (Some q)) as Hcell.
  { intros x Hx. destruct (decide (x = i)) as [->|Hne].
    - left. unfold idx, set_idx in Hx.
      destruct (decide (0 <= i)); [|done].
      destruct (decide (Z.to_nat i < length board)%nat).
      + rewrite list_lookup_insert_eq in Hx by done. congruence.
      + rewrite list_insert_ge in Hx by lia.
        apply lookup_lt_Some in Hx. lia.
    - right. by rewrite idx_set_idx_ne in Hx. }
  destruct (Hcell a Ha) as [?|Ha']; [by left|].
  destruct (Hcell b Hb) as [?|Hb']; [by left|].
  destruct (Hcell c Hc) as [?|Hc']; [by left|].
  by right.
Qed.

Lemma tictactoeInv_makeMove (s : TicTacToe.TicTacToeState) (index : Z) :
  tictactoeInv s -> tictactoeInv (TicTacToe.makeMove s index).
Proof.
  intros (Hprog & Hwin & Hstatus & Huniq). unfold TicTacToe.makeMove.
  destruct (_ || _) eqn:Hguard; [done|].
  apply orb_false_elim in Hguard as [Hst Hcell].
  apply bool_decide_eq_false in Hst, Hcell.
  assert (TicTacToe.status s = in_progress) as Hst'.
  { destruct (decide (TicTacToe.status s = in_progress)); [done|].
    by destruct Hst. }
  specialize (Hprog Hst').
  set (newBoard := set_idx _ _ _).
  assert (forall combo q, combo ∈ TicTacToe.WINNING_COMBINATIONS ->
            ownsLine newBoard q combo -> q = TicTacToe.currentPlayer s) as Hmover.
  { intros combo q Hin Hown.
    destruct (ownsLine_after_mark _ _ _ _ _ Hown) as [->|Hold]; [done|].
    exfalso. by apply (proj1 (firstOwner_None _ _) Hprog combo q). }
  assert (forall combo1 combo2 p q,
            combo1 ∈ TicTacToe.WINNING_COMBINATIONS ->
            combo2 ∈ TicTacToe.WINNING_COMBINATIONS ->
            ownsLine newBoard p combo1 -> ownsLine newBoard q combo2 -> p = q)
    as Huniq'.
  { intros c1 c2 p q H1 H2 Hp Hq.
    rewrite (Hmover c1 p H1 Hp), (Hmover c2 q H2 Hq). done. }
  destruct (TicTacToe.checkWinner newBoard) as [w|] eqn:Hw.
  - split; [done|]. split; [by cbn|]. split; [by cbn|]. done.
  - destruct (TicTacToe.checkDraw newBoard);
      (split; [done|]; split; [by cbn|]; split; [by cbn|]; done).
Qed.

Lemma tictactoeInv_play (moves : list Z) :
  forall s, tictactoeInv s -> tictactoeInv (playTicTacToe s moves).
Proof.
  induction moves as [|m rest IH]; intros s Hs; [done|].
  apply IH. by apply tictactoeInv_makeMove.
Qed.

(** X3. In every state that a sequence of [makeMove] calls reaches from
    [INITIAL_STATE], whatever the indices: all held winning combinations
    belong to one player (no double win); the status is [win] exactly when
    [winner] is set, and then the winner holds a winning combination; and
    while the status is [in_progress] nobody holds a combination. *)
Theorem tictactoe_single_winner :
  forall (moves : list Z),
    let s := playTicTacToe TicTacToe.INITIAL_STATE moves in
    (forall combo1 combo2 p q,
        combo1 ∈ TicTacToe.WINNING_COMBINATIONS ->
        combo2 ∈ TicTacToe.WINNING_COMBINATIONS ->
        ownsLine (TicTacToe.board s) p combo1 ->
        ownsLine (TicTacToe.board s) q combo2 -> p = q)
    /\ (TicTacToe.status s = win <-> exists p, TicTacToe.winner s = Some p)
    /\ (forall p, TicTacToe.winner s = Some p ->
          exists combo, combo ∈ TicTacToe.WINNING_COMBINATIONS
                        /\ ownsLine (TicTacToe.board s) p combo)
    /\ (TicTacToe.status s = in_progress ->
        forall combo p, combo ∈ TicTacToe.WINNING_COMBINATIONS ->
                        ~ ownsLine (TicTacToe.board s) p combo).
Proof.
  intros moves s.
  assert (tictactoeInv s) as (Hprog & Hwin & Hstatus & Huniq).
  { apply tictactoeInv_play. split; [done|]. split; [done|].
    split; [by split|].
    intros c1 c2 p q H1 _ Hown _. exfalso.
    by apply (proj1 (firstOwner_None TicTacToe.INITIAL_BOARD
                       TicTacToe.WINNING_COMBINATIONS) eq_refl c1 p). }
  split; [done|]. split; [|split].
  - rewrite Hstatus. destruct (TicTacToe.winner s) as [w|].
    + split; [by eexists | done].
    + split; [done | by intros [p Hp]].
  - intros p Hp. apply firstOwner_Some.
    change (TicTacToe.checkWinner (TicTacToe.board s) = Some p).
    by rewrite <- Hwin.
  - intros Hst. by apply firstOwner_None, Hprog.
Qed.

Lemma tictactoe_single_winner_witness :
  exists p,
    TicTacToe.winner (playTicTacToe TicTacToe.INITIAL_STATE [0; 4; 1; 5; 2])
    = Some p.
Proof.
  apply (proj1 (proj1 (proj2 (tictactoe_single_winner [0; 4; 1; 5; 2])))).
  reflexivity.
Defined.

(** ** Rock-Paper-Scissors *)

(** X4. [determineWinner] on two moves is a draw exactly when the moves
    are equal, and it is symmetric between the seats: the first seat wins
    a pairing exactly when the second seat wins the swapped pairing. When
    no first move is stored ([null]) the second seat is declared winner. *)
Theorem rps_determineWinner_symmetry :
  forall (a b : RockPaperScissors.RPSMove),
    (RockPaperScissors.determineWinner (Some a) (Some b)
       = RockPaperScissors.round_draw <-> a = b)
    /\ (RockPaperScissors.determineWinner (Some a) (Some b)
          = RockPaperScissors.won P1
        <-> RockPaperScissors.determineWinner (Some b) (Some a)
            = RockPaperScissors.won P2)
    /\ RockPaperScissors.determineWinner None (Some b)
       = RockPaperScissors.won P2.
Proof. intros a b. destruct a, b; cbn; repeat split; done. Qed.

(** X5. A single-player round is over after one call: from an in-progress
    state with P1 to move, [makeMove] stores P1's move and the drawn
    opponent move and ends the game with the result of [determineWinner]
    on the two. A two-player round takes two calls: the first stores P1's
    move, passes the turn to P2 and leaves status, winner and round result
    untouched; the second ends the game with the result of
    [determineWinner] on both moves, whatever was drawn. *)
Theorem rps_round_structure :
  forall (s : RockPaperScissors.RockPaperScissorsState)
         (m1 m2 : RockPaperScissors.RPSMove) (k1 k2 : nat),
    RockPaperScissors.status s = in_progress ->
    RockPaperScissors.currentPlayer s = P1 ->
    (RockPaperScissors.mode s = Some singleplayer ->
     let s' := RockPaperScissors.makeMove s m1 k1 in
     exists drawn,
       RockPaperScissors.player1Move s' = Some m1
       /\ RockPaperScissors.player2Move s' = Some drawn
       /\ RockPaperScissors.roundWinner s'
          = Some (RockPaperScissors.determineWinner (Some m1) (Some drawn))
       /\ (RockPaperScissors.status s', RockPaperScissors.winner s')
          = rpsOutcome (RockPaperScissors.determineWinner (Some m1) (Some drawn))
       /\ is_terminal (RockPaperScissors.status s') = true)
    /\ (RockPaperScissors.mode s <> Some singleplayer ->
        let s1 := RockPaperScissors.makeMove s m1 k1 in
        let s2 := RockPaperScissors.makeMove s1 m2 k2 in
        RockPaperScissors.status s1 = in_progress
        /\ RockPaperScissors.currentPlayer s1 = P2
        /\ RockPaperScissors.player1Move s1 = Some m1
        /\ RockPaperScissors.winner s1 = RockPaperScissors.winner s
        /\ RockPaperScissors.roundWinner s1 = RockPaperScissors.roundWinner s
        /\ RockPaperScissors.player1Move s2 = Some m1
        /\ RockPaperScissors.player2Move s2 = Some m2
        /\ RockPaperScissors.roundWinner s2
           = Some (RockPaperScissors.determineWinner (Some m1) (Some m2))
        /\ (RockPaperScissors.status s2, RockPaperScissors.winner s2)
           = rpsOutcome (RockPaperScissors.determineWinner (Some m1) (Some m2))
        /\ is_terminal (RockPaperScissors.status s2) = true).
Proof.
  intros s m1 m2 k1 k2 Hst Hcp. split.
  - intros Hmode s'. subst s'. unfold RockPaperScissors.makeMove.
    rewrite bool_decide_eq_false_2 by (rewrite Hst; auto).
    rewrite decide_True by done. rewrite decide_True by done.
    exists (pick RockPaperScissors.rock
              [RockPaperScissors.rock; RockPaperScissors.paper;
               RockPaperScissors.scissors] k1).
    unfold RockPaperScissors.resolve.
    cbn [RockPaperScissors.player1Move RockPaperScissors.player2Move
         RockPaperScissors.roundWinner RockPaperScissors.status
         RockPaperScissors.winner].
    set (r := RockPaperScissors.determineWinner _ _).
    split_and!; try done; by destruct r.
  - intros Hmode s1 s2. subst s2 s1.
    assert (RockPaperScissors.makeMove s m1 k1
            = {| RockPaperScissors.currentPlayer := P2;
                 RockPaperScissors.status := RockPaperScissors.status s;
                 RockPaperScissors.winner := RockPaperScissors.winner s;
                 RockPaperScissors.player1Move := Some m1;
                 RockPaperScissors.player2Move := RockPaperScissors.player2Move s;
                 RockPaperScissors.roundWinner := RockPaperScissors.roundWinner s;
                 RockPaperScissors.mode := RockPaperScissors.mode s |}) as ->.
    { unfold RockPaperScissors.makeMove.
      rewrite bool_decide_eq_false_2 by (rewrite Hst; auto).
      rewrite decide_True by done. by rewrite decide_False by done. }
    unfold RockPaperScissors.makeMove, RockPaperScissors.resolve.
    cbn [RockPaperScissors.player1Move RockPaperScissors.player2Move
         RockPaperScissors.roundWinner RockPaperScissors.status
         RockPaperScissors.winner RockPaperScissors.currentPlayer
         RockPaperScissors.mode].
    rewrite bool_decide_eq_false_2 by (rewrite Hst; auto).
    rewrite decide_False by done.
    cbn [RockPaperScissors.player1Move RockPaperScissors.player2Move
         RockPaperScissors.roundWinner RockPaperScissors.status
         RockPaperScissors.winner RockPaperScissors.currentPlayer].
    set (r := RockPaperScissors.determineWinner _ _).
    split_and!; try done; by destruct r.
Qed.

Lemma rps_round_structure_witness :
  RockPaperScissors.roundWinner
    (RockPaperScissors.makeMove
       (RockPaperScissors.makeMove (rpsResetGame multiplayer)
          RockPaperScissors.rock 0)
       RockPaperScissors.paper 0)
  = Some (RockPaperScissors.determineWinner
            (Some RockPaperScissors.rock) (Some RockPaperScissors.paper)).
Proof.
  pose proof (rps_round_structure (rpsResetGame multiplayer)
                RockPaperScissors.rock RockPaperScissors.paper 0 0
                eq_refl eq_refl) as [_ Hmulti].
  apply Hmulti. discriminate.
Defined.

(** ** NumberDuel *)

Lemma untilHit_app_hit (target : Z) (gs more : list Z) :
  target ∈ gs -> untilHit target (gs ++ more) = untilHit target gs.
Proof.
  induction gs as [|g rest IH]; intros Hin.
  - by apply elem_of_nil in Hin.
  - cbn [app untilHit]. destruct (decide (g = target)); [done|].
    apply elem_of_cons in Hin as [?|Hin]; [congruence|]. by rewrite IH.
Qed.

Lemma untilHit_no_hit (target : Z) (gs more : list Z) :
  target ∉ gs -> untilHit target (gs ++ more) = gs ++ untilHit target more.
Proof.
  induction gs as [|g rest IH]; intros Hnin; [done|].
  cbn [app untilHit]. apply not_elem_of_cons in Hnin as [Hne Hnin].
  rewrite decide_False by congruence. by rewrite IH.
Qed.

Lemma seatOf_next (m : GameMode) (n : nat) :
  seatOf m (S n) = match m with
                   | singleplayer => seatOf m n
                   | multiplayer => other (seatOf m n)
                   end.
Proof.
  destruct m; [done|]. cbn [seatOf]. rewrite Nat.even_succ, <- Nat.negb_even.
  by destruct (Nat.even n).
Qed.

Lemma numberDuelInv_step (m : GameMode) (target : Z) (gs : list Z) (g : Z)
    (s : NumberGuess.NumberGuessState) :
  numberDuelInv m target gs s ->
  numberDuelInv m target (gs ++ [g]) (NumberGuess.makeGuess s g).
Proof.
  intros (Ht & Hm & Hhist & Hatt & Hseat & Hwon & Hopen).
  destruct (decide (target ∈ gs)) as [Hin|Hnin].
  - destruct (Hwon Hin) as [Hst Hw].
    assert (NumberGuess.makeGuess s g = s) as ->.
    { unfold NumberGuess.makeGuess. rewrite Hst. done. }
    split; [done|]. split; [done|].
    split; [by rewrite untilHit_app_hit|]. split; [done|]. split; [done|].
    split; [done|]. intros Hnot. exfalso. apply Hnot.
    apply elem_of_app. by left.
  - destruct (Hopen Hnin) as (Hst & Hw & Hcp).
    unfold numberDuelInv, NumberGuess.makeGuess.
    rewrite bool_decide_eq_false_2 by (rewrite Hst; auto).
    cbn [NumberGuess.targetNumber NumberGuess.mode NumberGuess.history
         NumberGuess.attempts NumberGuess.status NumberGuess.winner
         NumberGuess.currentPlayer].
    rewrite Ht, Hm, Hcp.
    split; [done|]. split; [done|]. split.
    { rewrite fmap_app, Hhist, untilHit_no_hit by done.
      assert (untilHit target gs = gs) as ->.
      { rewrite <- (app_nil_r gs) at 1. rewrite untilHit_no_hit by done.
        by rewrite app_nil_r. }
      cbn. by destruct (decide (g = target)). }
    split; [rewrite length_app; cbn; lia|]. split.
    { intros i e Hi. apply lookup_app_Some in Hi as [Hi|[Hge Hi]].
      - by apply Hseat.
      - apply list_lookup_singleton_Some in Hi as [Hi <-]. cbn.
        f_equal. lia. }
    rewrite length_app. cbn [length].
    replace (length (NumberGuess.history s) + 1 - 1)%nat
      with (length (NumberGuess.history s)) by lia.
    replace (length (NumberGuess.history s) + 1)%nat
      with (S (length (NumberGuess.history s))) by lia.
    split.
    + intros Hin. apply elem_of_app in Hin as [?|Hin]; [done|].
      apply list_elem_of_singleton in Hin as <-.
      rewrite !decide_True by done. done.
    + intros Hnot. apply not_elem_of_app in Hnot as [_ Hne].
      apply not_elem_of_cons in Hne as [Hne _].
      rewrite !decide_False by congruence.
      rewrite (bool_decide_eq_true_2 (in_progress = in_progress)) by done.
      split; [done|]. split; [done|]. rewrite seatOf_next.
      destruct m.
      * by rewrite bool_decide_eq_false_2.
      * by rewrite bool_decide_eq_true_2.
Qed.

(** X6. Playing any sequence of guesses from a fresh NumberDuel game: the
    history holds exactly the guesses up to and including the first that
    equals the target (later guesses are not recorded) and [attempts] is
    its length; entry number [i] is signed by P1 in a single-player game
    and by P1 and P2 in turns in a two-player game; the game is won
    exactly when the target is among the guesses, by the seat that made
    that guess; otherwise it is in progress, without winner, and the turn
    belongs to the seat of the next entry. *)
Theorem numberduel_play (m : GameMode) (target : Z) (guesses : list Z) :
  numberDuelInv m target guesses
    (playNumberDuel (numberDuelStart m target) guesses).
Proof.
  induction guesses as [|g gs IH] using rev_ind.
  - split; [done|]. split; [done|]. split; [done|]. split; [done|].
    split; [done|]. split.
    + intros Hin. by apply elem_of_nil in Hin.
    + intros _. split; [done|]. split; [done|]. by destruct m.
  - unfold playNumberDuel. rewrite foldl_snoc. by apply numberDuelInv_step.
Qed.

Lemma numberduel_play_witness :
  NumberGuess.status
    (playNumberDuel (numberDuelStart multiplayer 7) [3; 7; 9]) = win
  /\ NumberGuess.winner
       (playNumberDuel (numberDuelStart multiplayer 7) [3; 7; 9])
     = Some (seatOf multiplayer
               (length (NumberGuess.history
                          (playNumberDuel (numberDuelStart multiplayer 7)
                             [3; 7; 9])) - 1)).
Proof.
  apply (numberduel_play multiplayer 7 [3; 7; 9]).
  apply list_elem_of_In. cbn. auto.
Defined.

(** ** GeoQuiz *)



(** ** Hangman word guess *)

Lemma str_includes_char (word : jsstring) (char : N) :
  char ∈ word -> str_includes word [char] = true.
Proof.
  induction word as [|y rest IH]; intros Hin.
  - by apply elem_of_nil in Hin.
  - cbn [str_includes starts_with].
    apply elem_of_cons in Hin as [->|Hin].
    + by rewrite bool_decide_eq_true_2.
    + rewrite IH by done. by rewrite orb_true_r.
Qed.

Lemma allGuessed_without (word : jsstring) (guessed : list jsstring)
    (letter : jsstring) :
  str_includes word letter = false ->
  allGuessed word (guessed ++ [letter]) = true ->
  allGuessed word guessed = true.
Proof.
  intros Hmiss Hall. unfold allGuessed in *.
  apply forallb_forall. intros char Hchar.
  rewrite forallb_forall in Hall. specialize (Hall char Hchar).
  unfold arr_includes in *. apply bool_decide_eq_true in Hall.
  apply bool_decide_eq_true. apply elem_of_app in Hall as [?|Hlast]; [done|].
  apply list_elem_of_singleton in Hlast. subst letter.
  apply list_elem_of_In in Hchar. apply str_includes_char in Hchar. congruence.
Qed.

Lemma wordGuessInv_step (up : jsstring -> jsstring) (word : jsstring)
    (s : WordGuess.WordGuessState) (letter : jsstring) :
  wordGuessInv word s -> wordGuessInv word (WordGuess.makeGuess up s letter).
Proof.
  intros (Hword & Hnodup & Hrem & Hpos & Hlose & Hwin & Hwinner & Hnone).
  unfold WordGuess.makeGuess.
  case_bool_decide as Hst; [done|].
  destruct (arr_includes (WordGuess.guessedLetters s) (up letter)) eqn:Hdup;
    [done|].
  assert (WordGuess.status s = in_progress) as Hin.
  { destruct (decide (WordGuess.status s = in_progress)); [done|].
    by destruct Hst. }
  assert (0 < WordGuess.remainingAttempts s) as Hleft.
  { destruct (decide (WordGuess.remainingAttempts s = 0)) as [Hz|]; [|lia].
    apply Hlose in Hz. congruence. }
  assert (allGuessed word (WordGuess.guessedLetters s) = false) as Hopen.
  { apply not_true_is_false. intros Hall. apply Hwin in Hall. congruence. }
  assert (up letter ∉ WordGuess.guessedLetters s) as Hfresh.
  { unfold arr_includes in Hdup. by apply bool_decide_eq_false in Hdup. }
  unfold wordGuessInv.
  cbn [WordGuess.targetWord WordGuess.guessedLetters
       WordGuess.remainingAttempts WordGuess.status WordGuess.winner].
  rewrite Hword.
  fold (allGuessed word (WordGuess.guessedLetters s ++ [up letter])).
  assert (misses word (WordGuess.guessedLetters s ++ [up letter])
          = (misses word (WordGuess.guessedLetters s)
             + b2n (negb (str_includes word (up letter))))%nat) as Hmiss.
  { unfold misses. rewrite count_app, count_cons, count_nil. lia. }
  rewrite Hmiss.
  split; [done|]. split.
  { apply NoDup_app. split; [done|]. split; [|apply NoDup_singleton].
    intros x Hx Hlast. apply list_elem_of_singleton in Hlast. by subst x. }
  destruct (str_includes word (up letter)) eqn:Hhit; cbn [negb b2n].
  - rewrite bool_decide_eq_false_2 by lia.
    split; [lia|]. split; [lia|].
    destruct (allGuessed word (WordGuess.guessedLetters s ++ [up letter]));
      (split; [split; [done | lia]|]); split; try done; split; done.
  - split; [lia|]. split; [lia|].
    case_bool_decide as Hzero.
    + assert (allGuessed word (WordGuess.guessedLetters s ++ [up letter]) = false)
        as ->.
      { destruct (allGuessed word (WordGuess.guessedLetters s ++ [up letter]))
          eqn:Hall; [|done].
        apply (allGuessed_without _ _ _ Hhit) in Hall. congruence. }
      split; [split; [lia | done]|]. split; [done|]. split; done.
    + destruct (allGuessed word (WordGuess.guessedLetters s ++ [up letter]));
        (split; [split; [done | lia]|]); split; try done; split; done.
Qed.

(** X8. Playing any sequence of letters from a fresh Hangman game on a
    non-empty word: no letter is recorded twice; [remainingAttempts] is
    [MAX_ATTEMPTS] minus the number of recorded letters that do not occur
    in the word, and never negative; the status is [lose] exactly when no
    attempt remains and [win] exactly when every character of the word has
    been guessed; and [winner] is P1 exactly in a won game and [null]
    otherwise. *)
Theorem wordguess_play :
  forall (toUpperCase : jsstring -> jsstring) (word : jsstring)
         (letters : list jsstring),
    word <> [] ->
    wordGuessInv word (playWordGuess toUpperCase (wordGuessWith word) letters).
Proof.
  intros up word letters Hword.
  induction letters as [|l ls IH] using rev_ind.
  - split; [done|]. split; [apply NoDup_nil_2|]. split; [done|].
    split; [done|]. split; [done|]. split; [|done].
    cbn. destruct word; [done|]. done.
  - unfold playWordGuess. rewrite foldl_snoc. by apply wordGuessInv_step.
Qed.

Lemma wordguess_play_witness :
  WordGuess.remainingAttempts
    (playWordGuess (fun u => u) (wordGuessStart 0)
       [str "E"; str "X"; str "E"; str "L"])
  = WordGuess.MAX_ATTEMPTS
    - Z.of_nat (misses (getRandomWord 0)
                  (WordGuess.guessedLetters
                     (playWordGuess (fun u => u) (wordGuessStart 0)
                        [str "E"; str "X"; str "E"; str "L"]))).
Proof.
  apply (wordguess_play (fun u => u) (getRandomWord 0)
           [str "E"; str "X"; str "E"; str "L"]).
  discriminate.
Defined.

(** ** MemoryMatch *)

Lemma swapCards_Permutation (cards : list MemoryMatch.Card) (i j : nat) :
  swapCards cards i j ≡ₚ cards.
Proof.
  unfold swapCards.
  destruct (cards !! i) as [ci|] eqn:Hi; [|done].
  destruct (cards !! j) as [cj|] eqn:Hj; [|done].
  by apply Permutation_insert_swap.
Qed.

Lemma fisherYates_Permutation (rnd : nat -> nat) (i : nat) :
  forall cards, fisherYates rnd i cards ≡ₚ cards.
Proof.
  induction i as [|i IH]; intros cards; [done|].
  cbn [fisherYates]. rewrite IH. apply swapCards_Permutation.
Qed.

Lemma memorymatch_shuffle_faces (rnd : nat -> nat) (card : MemoryMatch.Card) :
  card ∈ shuffleCards rnd ->
  MemoryMatch.isFlipped card = false /\ MemoryMatch.isMatched card = false.
Proof.
  intros Hin.
  assert (shuffleCards rnd ≡ₚ orderedDeck) as Hperm
    by apply fisherYates_Permutation.
  rewrite Hperm in Hin.
  assert (Forall (fun c => MemoryMatch.isFlipped c = false
                           /\ MemoryMatch.isMatched c = false) orderedDeck)
    as Hall by (repeat constructor).
  by apply (proj1 (Forall_forall _ _) Hall).
Qed.

(** X9. Whatever the random draws, [shuffleCards] returns a permutation of
    the sixteen cards it builds: every card is face down and unmatched,
    and each of the eight emoji values is carried by exactly two cards. *)
Theorem memorymatch_shuffle_is_permutation :
  forall (rnd : nat -> nat),
    shuffleCards rnd ≡ₚ orderedDeck
    /\ length (shuffleCards rnd) = 16%nat
    /\ (forall card, card ∈ shuffleCards rnd ->
          MemoryMatch.isFlipped card = false
          /\ MemoryMatch.isMatched card = false)
    /\ (forall emoji, emoji ∈ EMOJIS ->
          count (fun card => bool_decide (MemoryMatch.value card = emoji))
                (shuffleCards rnd) = 2%nat).
Proof.
  intros rnd.
  assert (shuffleCards rnd ≡ₚ orderedDeck) as Hperm
    by apply fisherYates_Permutation.
  split; [done|]. split; [by rewrite Hperm|]. split.
  - apply memorymatch_shuffle_faces.
  - intros emoji Hin. unfold count. rewrite Hperm.
    assert (Forall (fun e =>
              length (filter (fun card =>
                        bool_decide (MemoryMatch.value card = e) = true)
                      orderedDeck) = 2%nat) EMOJIS)
      as Hall by (repeat constructor).
    by apply (proj1 (Forall_forall _ _) Hall).
Qed.

Lemma memorymatch_shuffle_is_permutation_witness :
  count (fun card => bool_decide (MemoryMatch.value card = [240; 376; 182]%N))
        (shuffleCards (fun i => (7 * i + 3)%nat)) = 2%nat.
Proof.
  apply (memorymatch_shuffle_is_permutation (fun i => (7 * i + 3)%nat)).
  apply list_elem_of_In. cbn. auto.
Defined.

Lemma fmap_set_idx_same {A B} (f : A -> B) (l : list A) (i : Z) (x v : A) :
  idx l i = Some x -> f v = f x -> f <$> set_idx l i v = f <$> l.
Proof.
  intros Hx Hf. unfold idx, set_idx in *.
  destruct (decide (0 <= i)); [|done].
  rewrite list_fmap_insert, Hf. apply list_insert_id.
  by rewrite list_lookup_fmap, Hx.
Qed.

Lemma idx_set_idx_cases {A} (l : list A) (i j : Z) (x v : A) :
  idx l i = Some x ->
  idx (set_idx l i v) j = if decide (j = i) then Some v else idx l j.
Proof.
  intros Hx. destruct (decide (j = i)) as [->|Hne].
  - by eapply idx_set_idx_eq.
  - by apply idx_set_idx_ne.
Qed.

Lemma memoryMatchInv_flipCard (deal : list MemoryMatch.Card)
    (s s' : MemoryMatch.MemoryMatchState) (index : Z) :
  memoryMatchInv deal s -> MemoryMatch.flipCard s index = Return s' ->
  memoryMatchInv deal s'.
Proof.
  intros (Hval & Hid & Hflip & Hnodup & Hlen & Hwin & Hstatus).
  unfold MemoryMatch.flipCard.
  case_bool_decide as Hst; [by intros [= <-]|].
  case_bool_decide as Htwo; [by intros [= <-]|].
  destruct (elem (MemoryMatch.board s) index) as [card| |] eqn:Hcard; try done.
  apply elem_Return in Hcard. cbn [mbind result_bind].
  destruct (MemoryMatch.isFlipped card) eqn:Hf; [by intros [= <-]|].
  destruct (MemoryMatch.isMatched card) eqn:Hm; [by intros [= <-]|].
  cbn [orb]. intros [= <-]. unfold memoryMatchInv.
  cbn [MemoryMatch.board MemoryMatch.flippedIndices MemoryMatch.status].
  split; [by rewrite (fmap_set_idx_same _ _ _ card)|].
  split; [by rewrite (fmap_set_idx_same _ _ _ card)|].
  assert (index ∉ MemoryMatch.flippedIndices s) as Hfresh.
  { intros Hin. apply Hflip in Hin as (c & Hc & Hcf & _). congruence. }
  split.
  { intros i. unfold faceUpUnmatched.
    rewrite elem_of_app, list_elem_of_singleton, Hflip.
    setoid_rewrite (idx_set_idx_cases _ _ _ card) at 1; [|done].
    destruct (decide (i = index)) as [->|Hne].
    - split; [|by right]. intros _. eexists. split; [done|]. by cbn.
    - split.
      + by intros [Hold|?].
      + intros Hnew. by left. }
  split.
  { apply NoDup_app. split; [done|]. split; [|apply NoDup_singleton].
    intros x Hx Hlast. apply list_elem_of_singleton in Hlast. by subst x. }
  split; [rewrite length_app; cbn; lia|].
  split; [|done]. intros Hw. destruct (decide (MemoryMatch.status s = in_progress));
    [congruence | by destruct Hst].
Qed.

Lemma memoryMatchInv_checkMatch (deal : list MemoryMatch.Card)
    (s s' : MemoryMatch.MemoryMatchState) :
  memoryMatchInv deal s -> MemoryMatch.checkMatch s = Return s' ->
  memoryMatchInv deal s'.
Proof.
  intros (Hval & Hid & Hflip & Hnodup & Hlen & Hwin & Hstatus).
  unfold MemoryMatch.checkMatch.
  destruct (MemoryMatch.flippedIndices s) as [|i1 [|i2 [|i3 l]]] eqn:Hfl;
    try (intros [= <-]; unfold memoryMatchInv; by rewrite Hfl).
  destruct (elem (MemoryMatch.board s) i1) as [c1| |] eqn:H1; try done.
  destruct (elem (MemoryMatch.board s) i2) as [c2| |] eqn:H2; try done.
  apply elem_Return in H1, H2. cbn [mbind result_bind].
  assert (i1 <> i2) as Hne.
  { apply NoDup_cons in Hnodup as [Hnin _]. intros ->. apply Hnin. by left. }
  assert (forall i, faceUpUnmatched (MemoryMatch.board s) i -> i = i1 \/ i = i2)
    as Honly.
  { intros i Hi. apply Hflip in Hi.
    apply elem_of_cons in Hi as [?|Hi]; [by left|].
    apply list_elem_of_singleton in Hi. by right. }
  intros [= <-]. unfold memoryMatchInv.
  cbn [MemoryMatch.board MemoryMatch.flippedIndices MemoryMatch.status].
  set (newBoard := if decide (MemoryMatch.value c1 = MemoryMatch.value c2)
                   then _ else _).
  assert (exists d1 d2,
            newBoard = set_idx (set_idx (MemoryMatch.board s) i1 d1) i2 d2
            /\ MemoryMatch.value d1 = MemoryMatch.value c1
            /\ MemoryMatch.value d2 = MemoryMatch.value c2
            /\ MemoryMatch.id d1 = MemoryMatch.id c1
            /\ MemoryMatch.id d2 = MemoryMatch.id c2
            /\ (MemoryMatch.isFlipped d1 = false \/ MemoryMatch.isMatched d1 = true)
            /\ (MemoryMatch.isFlipped d2 = false \/ MemoryMatch.isMatched d2 = true))
    as (d1 & d2 & -> & Hv1 & Hv2 & Hd1 & Hd2 & Hs1 & Hs2).
  { subst newBoard.
    destruct (decide (MemoryMatch.value c1 = MemoryMatch.value c2));
      eexists _, _; (split; [reflexivity|]); cbn; auto 10. }
  assert (idx (set_idx (MemoryMatch.board s) i1 d1) i2 = Some c2) as H2'
    by (by rewrite idx_set_idx_ne).
  split.
  { rewrite (fmap_set_idx_same _ _ _ c2) by done.
    by rewrite (fmap_set_idx_same _ _ _ c1). }
  split.
  { rewrite (fmap_set_idx_same _ _ _ c2) by done.
    by rewrite (fmap_set_idx_same _ _ _ c1). }
  split.
  { intros i. split; [by intros Hin%elem_of_nil|].
    intros (card & Hcard & Hcf & Hcm). exfalso.
    rewrite (idx_set_idx_cases _ _ _ c2) in Hcard by done.
    destruct (decide (i = i2)) as [->|Hn2].
    { injection Hcard as <-. destruct Hs2; congruence. }
    rewrite (idx_set_idx_cases _ _ _ c1) in Hcard by done.
    destruct (decide (i = i1)) as [->|Hn1].
    { injection Hcard as <-. destruct Hs1; congruence. }
    destruct (Honly i) as [?|?]; [|done|done].
    by exists card. }
  split; [apply NoDup_nil_2|]. split; [cbn; lia|].
  split.
  - destruct (forallb MemoryMatch.isMatched _) eqn:Hall; [|done].
    intros _ card Hin. rewrite forallb_forall in Hall.
    apply Hall. by apply list_elem_of_In.
  - destruct (forallb MemoryMatch.isMatched _); auto.
Qed.

(** X10. Along every sequence of [flipCard] and [checkMatch] calls that
    returns, started from a freshly dealt game: the cards keep their
    positions, ids and values; [flippedIndices] holds exactly the indices
    of the cards that lie face up and are not matched, without
    repetition and never more than two; and when the status is [win]
    every card is matched. *)
Theorem memorymatch_play_invariant :
  forall (rnd : nat -> nat) (script : list MemoryAction)
         (s : MemoryMatch.MemoryMatchState),
    playMemoryMatch (memoryMatchStart rnd) script = Return s ->
    memoryMatchInv (shuffleCards rnd) s.
Proof.
  intros rnd script.
  assert (memoryMatchInv (shuffleCards rnd) (memoryMatchStart rnd)) as Hstart.
  { pose proof (memorymatch_shuffle_faces rnd) as Hfaces.
    unfold memoryMatchStart. revert Hfaces.
    generalize (shuffleCards rnd) as deal. intros deal Hfaces.
    unfold memoryMatchInv. cbn.
    split; [done|]. split; [done|]. split.
    - intros i. split; [by intros Hin%elem_of_nil|].
      intros (card & Hcard & Hcf & _). exfalso.
      unfold idx in Hcard. destruct (decide (0 <= i)); [|done].
      apply list_elem_of_lookup_2 in Hcard.
      apply Hfaces in Hcard. destruct Hcard as [Hf _]. congruence.
    - split; [apply NoDup_nil_2|]. split; [lia|]. split; [done|]. by right. }
  revert Hstart. generalize (memoryMatchStart rnd) as s0.
  induction script as [|a rest IH]; intros s0 Hs0 s Hrun.
  - cbn in Hrun. by injection Hrun as <-.
  - cbn [playMemoryMatch] in Hrun.
    destruct (memoryMatchStep s0 a) as [s1| |] eqn:Hstep; try done.
    cbn [mbind result_bind] in Hrun. apply (IH s1); [|done].
    destruct a as [index|]; cbn [memoryMatchStep] in Hstep.
    + by eapply memoryMatchInv_flipCard.
    + by eapply memoryMatchInv_checkMatch.
Qed.

Lemma memorymatch_play_invariant_witness :
  memoryMatchInv (shuffleCards MoreExamples.draws) MoreExamples.after_first_pair.
Proof.
  apply (memorymatch_play_invariant MoreExamples.draws
           MoreExamples.first_pair_script MoreExamples.after_first_pair).
  by vm_compute.
Defined.

(** ** Turkish Wordle: the exact number of marks *)

Section WordleExact.

Import TurkishWordle.

Lemma marksFor_row_set_empty (c : N) (row : GuessRow) (i : nat)
    (v : WordleLetter) :
  slot row i = None ->
  marksFor c (row_set row i v) = (marksFor c row + b2n (scores c (Some v)))%nat.
Proof.
  intros Hslot. unfold marksFor, row_set. case_decide as Hi.
  - destruct (lookup_lt_is_Some_2 row i Hi) as [y Hy].
    pose proof (count_insert (scores c) row i (Some v) y Hy) as Hc.
    unfold slot in Hslot. rewrite Hy in Hslot. cbn in Hslot. subst y.
    change (b2n (scores c None)) with 0%nat in Hc. lia.
  - rewrite !count_app, count_replicate_false by done.
    rewrite count_cons, count_nil. lia.
Qed.

Lemma indexOf_None_count (c : N) (available : list (option N)) :
  indexOf available (Some c) = None -> availableFor c available = 0%nat.
Proof.
  unfold availableFor. induction available as [|y l IH]; [done|].
  cbn [indexOf]. destruct (decide (y = Some c)) as [->|Hne]; [done|].
  destruct (indexOf l (Some c)); [done|]. intros _.
  rewrite count_cons, IH by done. by rewrite bool_decide_eq_false_2.
Qed.

Lemma pending_row_set (c : N) (gs : list N) (v : WordleLetter) :
  forall (i j : nat) (row : GuessRow),
    (j < i)%nat -> pending c gs i (row_set row j v) = pending c gs i row.
Proof.
  induction gs as [|ch rest IH]; intros i j row Hlt; [done|].
  cbn [pending]. rewrite slot_row_set_ne by lia. rewrite IH by lia. done.
Qed.

Lemma scores_present (c ch : N) :
  b2n (scores c (Some {| char := ch; feedback := present |}))
  = b2n (bool_decide (ch = c)).
Proof. cbn. by destruct (bool_decide (ch = c)). Qed.

Lemma scores_correct (c ch : N) :
  b2n (scores c (Some {| char := ch; feedback := correct |}))
  = b2n (bool_decide (ch = c)).
Proof. cbn. by destruct (bool_decide (ch = c)). Qed.

Lemma scores_absent (c ch : N) :
  scores c (Some {| char := ch; feedback := absent |}) = false.
Proof. cbn. by rewrite andb_false_r. Qed.

(** The second pass gives letter [c] as many further marks as there are
    pending positions for it, up to the instances still available. *)
Lemma secondPass_exact (c : N) (gs : list N) :
  forall (i : nat) (row : GuessRow) (available : list (option N)),
    marksFor c (secondPass gs i row available)
    = (marksFor c row + Nat.min (pending c gs i row) (availableFor c available))%nat.
Proof.
  induction gs as [|ch rest IH]; intros i row available.
  - cbn [secondPass pending]. rewrite Nat.min_0_l. lia.
  - cbn [secondPass pending].
    destruct (row !! i) as [[l|]|] eqn:Hrow.
    + assert (slot row i = Some l) as Hs by (unfold slot; by rewrite Hrow).
      rewrite IH, Hs. rewrite (bool_decide_eq_false_2 (Some l = None)) by done.
      rewrite andb_false_r. cbn [b2n]. done.
    + assert (slot row i = None) as Hs by (unfold slot; by rewrite Hrow).
      rewrite Hs. rewrite (bool_decide_eq_true_2 (None = None)) by done.
      rewrite andb_true_r.
      destruct (indexOf available (Some ch)) as [k|] eqn:Hk.
      * apply indexOf_lookup in Hk.
        pose proof (availableFor_consume c ch available k Hk) as Hav.
        rewrite IH, marksFor_row_set_empty, scores_present by done.
        rewrite pending_row_set by lia.
        destruct (bool_decide (ch = c)); cbn [b2n] in *; lia.
      * rewrite IH, marksFor_row_set_empty, scores_absent by done.
        rewrite pending_row_set by lia. cbn [b2n].
        destruct (decide (ch = c)) as [->|Hne].
        -- rewrite (indexOf_None_count _ _ Hk).
           rewrite bool_decide_eq_true_2 by done. cbn [b2n]. lia.
        -- rewrite bool_decide_eq_false_2 by done. cbn [b2n]. lia.
    + assert (slot row i = None) as Hs by (unfold slot; by rewrite Hrow).
      rewrite Hs. rewrite (bool_decide_eq_true_2 (None = None)) by done.
      rewrite andb_true_r.
      destruct (indexOf available (Some ch)) as [k|] eqn:Hk.
      * apply indexOf_lookup in Hk.
        pose proof (availableFor_consume c ch available k Hk) as Hav.
        rewrite IH, marksFor_row_set_empty, scores_present by done.
        rewrite pending_row_set by lia.
        destruct (bool_decide (ch = c)); cbn [b2n] in *; lia.
      * rewrite IH, marksFor_row_set_empty, scores_absent by done.
        rewrite pending_row_set by lia. cbn [b2n].
        destruct (decide (ch = c)) as [->|Hne].
        -- rewrite (indexOf_None_count _ _ Hk).
           rewrite bool_decide_eq_true_2 by done. cbn [b2n]. lia.
        -- rewrite bool_decide_eq_false_2 by done. cbn [b2n]. lia.
Qed.

(** The first pass gives letter [c] one mark per exact hit and takes as
    many instances out of the pool. *)
Lemma firstPass_exact (c : N) (T gs : list N) :
  forall (i : nat) (row : GuessRow) (available : list (option N)),
    (forall j, (i <= j)%nat -> available !! j = Some <$> T !! j) ->
    (forall j, (i <= j)%nat -> slot row j = None) ->
    marksFor c (firstPass T gs i row available).1
    = (marksFor c row + exactHits c T gs i)%nat
    /\ (availableFor c (firstPass T gs i row available).2
        + exactHits c T gs i = availableFor c available)%nat.
Proof.
  induction gs as [|ch rest IH]; intros i row available Hfresh Hempty.
  - cbn [firstPass exactHits fst snd]. lia.
  - cbn [firstPass exactHits].
    destruct (decide (T !! i = Some ch)) as [Hhit|Hno].
    + destruct (IH (S i) (row_set row i {| char := ch; feedback := correct |})
                  (<[i := None]> available)) as [Hm Ha].
      { intros j Hj. rewrite list_lookup_insert_ne by lia. apply Hfresh. lia. }
      { intros j Hj. rewrite slot_row_set_ne by lia. apply Hempty. lia. }
      rewrite Hm. rewrite marksFor_row_set_empty, scores_correct
        by (apply Hempty; lia).
      assert (available !! i = Some (Some ch)) as Hav.
      { rewrite Hfresh by lia. by rewrite Hhit. }
      pose proof (availableFor_consume c ch available i Hav) as Hcons.
      destruct (decide (ch = c)) as [->|Hne].
      * rewrite !bool_decide_eq_true_2 in * by done. cbn [andb b2n] in *. lia.
      * rewrite (bool_decide_eq_false_2 (ch = c)) in * by done.
        cbn [andb b2n] in *. lia.
    + destruct (IH (S i) row available) as [Hm Ha].
      { intros j Hj. apply Hfresh. lia. }
      { intros j Hj. apply Hempty. lia. }
      rewrite Hm.
      assert (bool_decide (ch = c) && bool_decide (T !! i = Some c) = false)
        as ->.
      { destruct (decide (ch = c)) as [->|Hne].
        - by rewrite (bool_decide_eq_false_2 (T !! i = Some c)), andb_false_r.
        - by rewrite (bool_decide_eq_false_2 (ch = c)). }
      cbn [b2n]. lia.
Qed.

(** After the first pass, the pending positions of [c] are its
    occurrences in the guess that were no exact hit. *)
Lemma pending_after_firstPass (c : N) (T : list N) (row1 : GuessRow) :
  forall (gs : list N) (i : nat),
    (forall j ch, gs !! j = Some ch ->
       slot row1 (i + j) = None <-> T !! (i + j)%nat <> Some ch) ->
    (pending c gs i row1 + exactHits c T gs i = occurrences c gs)%nat.
Proof.
  induction gs as [|ch rest IH]; intros i Hslots; [done|].
  cbn [pending exactHits]. unfold occurrences in *. rewrite count_cons.
  specialize (IH (S i)).
  rewrite <- IH.
  2:{ intros j ch' Hj. replace (S i + j)%nat with (i + S j)%nat by lia.
      by apply Hslots. }
  pose proof (Hslots 0%nat ch eq_refl) as H0.
  replace (i + 0)%nat with i in H0 by lia.
  destruct (decide (ch = c)) as [->|Hne].
  - rewrite !bool_decide_eq_true_2 by done. cbn [andb].
    destruct (decide (T !! i = Some c)) as [Hhit|Hno].
    + rewrite (bool_decide_eq_true_2 _ Hhit).
      rewrite (bool_decide_eq_false_2 (slot row1 i = None)) by (rewrite H0; auto).
      cbn [b2n]. lia.
    + rewrite (bool_decide_eq_false_2 _ Hno).
      rewrite (bool_decide_eq_true_2 (slot row1 i = None)) by (by apply H0).
      cbn [b2n]. lia.
  - rewrite !(bool_decide_eq_false_2 (ch = c)) by done. cbn [andb b2n]. lia.
Qed.

Lemma exactHits_le (c : N) (T gs : list N) :
  forall i, (exactHits c T gs i <= occurrences c gs)%nat.
Proof.
  induction gs as [|ch rest IH]; intros i; [done|].
  cbn [exactHits]. unfold occurrences in *. rewrite count_cons.
  specialize (IH (S i)).
  destruct (bool_decide (ch = c)); cbn [andb b2n]; [|lia].
  destruct (bool_decide _); cbn [b2n]; lia.
Qed.

End WordleExact.

(** X11. For every letter, the number of [correct] and [present] marks
    that [evaluateTurkishWordleGuess] gives to the letter is exactly the
    smaller of its number of occurrences in the (uppercased) guess and in
    the (uppercased) target, for words of any lengths. *)
Theorem wordle_marks_exact :
  forall (toLocaleUpperCase : jsstring -> jsstring) (target guess : jsstring)
         (c : N),
    TurkishWordle.marksFor c
      (TurkishWordle.evaluateTurkishWordleGuess toLocaleUpperCase target guess)
    = Nat.min (TurkishWordle.occurrences c (toLocaleUpperCase guess))
              (TurkishWordle.occurrences c (toLocaleUpperCase target)).
Proof.
  intros up target guess c.
  unfold TurkishWordle.evaluateTurkishWordleGuess.
  set (T := up target). set (G := up guess).
  set (row0 := replicate (length target) None).
  destruct (TurkishWordle.firstPass T G 0 row0 (map Some T))
    as [row1 available1] eqn:Hp1.
  rewrite secondPass_exact.
  destruct (firstPass_exact c T G 0 row0 (map Some T)) as [Hm Ha].
  { intros j _. apply lookup_map_Some. }
  { intros j _. apply slot_replicate_None. }
  rewrite Hp1 in Hm, Ha. cbn [fst snd] in Hm, Ha.
  rewrite availableFor_initial in Ha.
  subst row0. rewrite marksFor_replicate_None in Hm.
  assert (pending c G 0 row1 + exactHits c T G 0
          = TurkishWordle.occurrences c G)%nat as Hpend.
  { apply pending_after_firstPass. intros j ch Hj. cbn [Nat.add].
    pose proof (firstPass_slot T G j 0
                  (replicate (length target) None) (map Some T)) as Hs.
    rewrite Hp1 in Hs. cbn [fst] in Hs.
    replace (j - 0)%nat with j in Hs by lia. rewrite Hj in Hs.
    rewrite slot_replicate_None in Hs.
    rewrite (bool_decide_eq_true_2 (0 <= j)%nat) in Hs by lia. cbn [andb] in Hs.
    rewrite Hs. case_bool_decide; split; try done. }
  lia.
Qed.

(** ** Turkish Wordle: the shape of a scored row *)

Section WordleRow.

Import TurkishWordle.

Lemma length_row_set (row : GuessRow) (i : nat) (v : WordleLetter) :
  length (row_set row i v) = Nat.max (length row) (S i).
Proof.
  unfold row_set. case_decide as Hi.
  - rewrite length_insert. lia.
  - rewrite !length_app, length_replicate. cbn [length]. lia.
Qed.

Lemma firstPass_length (T gs : list N) :
  forall (i : nat) (row : GuessRow) (available : list (option N)),
    (length row <= length (firstPass T gs i row available).1)%nat
    /\ (length (firstPass T gs i row available).1
        <= Nat.max (length row) (i + length gs))%nat.
Proof.
  induction gs as [|ch rest IH]; intros i row available.
  - cbn [firstPass fst]. lia.
  - cbn [firstPass length]. case_decide as Hhit.
    + destruct (IH (S i) (row_set row i {| char := ch; feedback := correct |})
                  (<[i := None]> available)) as [Hlo Hhi].
      rewrite length_row_set in Hlo, Hhi. lia.
    + destruct (IH (S i) row available) as [Hlo Hhi]. lia.
Qed.

Lemma secondPass_length (gs : list N) :
  forall (i : nat) (row : GuessRow) (available : list (option N)),
    (i <= length row)%nat ->
    length (secondPass gs i row available)
    = Nat.max (length row) (i + length gs).
Proof.
  induction gs as [|ch rest IH]; intros i row available Hi.
  - cbn [secondPass length]. lia.
  - cbn [secondPass length].
    destruct (row !! i) as [[l|]|] eqn:Hrow.
    + apply lookup_lt_Some in Hrow. rewrite IH by lia. lia.
    + destruct (indexOf available (Some ch));
        rewrite IH by (rewrite length_row_set; lia);
        rewrite length_row_set; lia.
    + destruct (indexOf available (Some ch));
        rewrite IH by (rewrite length_row_set; lia);
        rewrite length_row_set; lia.
Qed.

(** Slot by slot: an exact hit is [correct], any other letter of the
    guess is [present] or [absent], and there is nothing beyond the
    guess. *)
Lemma evaluate_slot (up : jsstring -> jsstring) (target guess : jsstring)
    (j : nat) :
  match up guess !! j with
  | Some ch =>
      if decide (up target !! j = Some ch)
      then slot (evaluateTurkishWordleGuess up target guess) j
           = Some {| char := ch; feedback := correct |}
      else slot (evaluateTurkishWordleGuess up target guess) j
           = Some {| char := ch; feedback := present |}
           \/ slot (evaluateTurkishWordleGuess up target guess) j
              = Some {| char := ch; feedback := absent |}
  | None => slot (evaluateTurkishWordleGuess up target guess) j = None
  end.
Proof.
  unfold evaluateTurkishWordleGuess.
  set (T := up target). set (G := up guess).
  set (row0 := replicate (length target) None).
  pose proof (firstPass_slot T G j 0 row0 (map Some T)) as H1.
  destruct (firstPass T G 0 row0 (map Some T)) as [row1 available1].
  cbn [fst] in H1.
  destruct (secondPass_slot G j 0 row1 available1) as [Hkeep Hfill].
  replace (j - 0)%nat with j in * by lia.
  subst row0. rewrite slot_replicate_None in H1.
  rewrite (bool_decide_eq_true_2 (0 <= j)%nat) in H1 by lia. cbn [andb] in H1.
  destruct (G !! j) as [ch|] eqn:HG.
  - specialize (Hfill ch (Nat.le_0_l j) eq_refl).
    destruct (decide (T !! j = Some ch)) as [Hhit|Hno].
    + rewrite (bool_decide_eq_true_2 _ Hhit) in H1. by rewrite H1 in Hfill.
    + rewrite (bool_decide_eq_false_2 _ Hno) in H1. by rewrite H1 in Hfill.
  - rewrite Hkeep by (by right). done.
Qed.

Lemma evaluate_length (up : jsstring -> jsstring) (target guess : jsstring) :
  length (evaluateTurkishWordleGuess up target guess)
  = Nat.max (length target) (length (up guess)).
Proof.
  unfold evaluateTurkishWordleGuess.
  set (T := up target). set (G := up guess).
  pose proof (firstPass_length T G 0 (replicate (length target) None)
                (map Some T)) as [Hlo Hhi].
  destruct (firstPass T G 0 (replicate (length target) None) (map Some T))
    as [row1 available1].
  cbn [fst] in Hlo, Hhi. rewrite length_replicate in Hlo, Hhi.
  rewrite secondPass_length by lia. lia.
Qed.

(** The row is all green on the positions of the guess exactly when the
    uppercased guess is the uppercased target. *)
Lemma evaluate_allCorrect (up : jsstring -> jsstring) (target guess : jsstring) :
  length (up target) = length (up guess) ->
  allCorrect (length (up guess)) (evaluateTurkishWordleGuess up target guess)
  <-> up guess = up target.
Proof.
  intros Hlen. split.
  - intros Hall. apply list_eq. intros i.
    destruct (up guess !! i) as [ch|] eqn:HG.
    + pose proof (evaluate_slot up target guess i) as Hs. rewrite HG in Hs.
      destruct (decide (up target !! i = Some ch)) as [Hhit|Hno]; [done|].
      apply lookup_lt_Some in HG. specialize (Hall i HG).
      unfold feedbackAt in Hall. by destruct Hs as [Hs|Hs]; rewrite Hs in Hall.
    + apply lookup_ge_None in HG. symmetry. apply lookup_ge_None. lia.
  - intros Heq i Hi. apply lookup_lt_is_Some_2 in Hi as [ch HG].
    pose proof (evaluate_slot up target guess i) as Hs. rewrite HG in Hs.
    rewrite <- Heq in Hs. rewrite decide_True in Hs by done.
    unfold feedbackAt. by rewrite Hs.
Qed.

End WordleRow.

(** X12. The row returned by [evaluateTurkishWordleGuess] has as many
    slots as the longer of the target and the uppercased guess; every
    position of the uppercased guess holds that position's letter with a
    feedback other than [empty]; and every slot beyond the guess is left
    unfilled. *)
Theorem wordle_row_shape :
  forall (toLocaleUpperCase : jsstring -> jsstring) (target guess : jsstring),
    let row :=
      TurkishWordle.evaluateTurkishWordleGuess toLocaleUpperCase target guess in
    length row = Nat.max (length target) (length (toLocaleUpperCase guess))
    /\ (forall i ch,
          toLocaleUpperCase guess !! i = Some ch ->
          exists fb,
            TurkishWordle.slot row i
            = Some {| TurkishWordle.char := ch; TurkishWordle.feedback := fb |}
            /\ fb <> TurkishWordle.empty)
    /\ (forall i,
          toLocaleUpperCase guess !! i = None ->
          TurkishWordle.slot row i = None).
Proof.
  intros up target guess row. subst row. split; [apply evaluate_length|]. split.
  - intros i ch HG.
    pose proof (evaluate_slot up target guess i) as Hs. rewrite HG in Hs.
    destruct (decide (up target !! i = Some ch)) as [Hhit|Hno].
    + by exists TurkishWordle.correct.
    + destruct Hs as [Hs|Hs];
        [by exists TurkishWordle.present | by exists TurkishWordle.absent].
  - intros i HG.
    pose proof (evaluate_slot up target guess i) as Hs. by rewrite HG in Hs.
Qed.

(** ** Turkish Wordle: a session *)

Section WordleSessionFacts.

Import TurkishWordle.

Variable up : jsstring -> jsstring.
Variable dict : list jsstring.
Variable TARGETS : list jsstring.

Lemma init_targetWord (cfgW cfgM : option Z) (k : nat)
    (s0 : TurkishWordleState) :
  initTurkishWordleGame TARGETS cfgW cfgM k = Return s0 ->
  targetWord s0 ∈ TARGETS
  /\ Z.of_nat (length (targetWord s0)) = wordLength s0
  /\ wordLength s0 = orDefault cfgW DEFAULT_WORD_LENGTH
  /\ maxAttempts s0 = orDefault cfgM DEFAULT_MAX_ATTEMPTS
  /\ guesses s0 = [] /\ status s0 = in_progress /\ currentGuess s0 = []
  /\ winner s0 = None /\ currentAttemptIndex s0 = 0.
Proof.
  unfold initTurkishWordleGame.
  destruct (filter _ TARGETS !! _) as [w|] eqn:Hw; [|done].
  intros [= <-]. cbn.
  apply list_elem_of_lookup_2 in Hw. apply list_elem_of_filter in Hw as [Hl Hin].
  done.
Qed.

Lemma wordleInv_init (cfgW cfgM : option Z) (k : nat) (s0 : TurkishWordleState) :
  (forall m, cfgM = Some m -> 0 <= m) ->
  initTurkishWordleGame TARGETS cfgW cfgM k = Return s0 ->
  wordleInv TARGETS s0.
Proof.
  intros Hm Hinit.
  destruct (init_targetWord _ _ _ _ Hinit)
    as (Hin & Hlen & HW & HM & Hg & Hst & Hcg & Hwin & Hidx).
  unfold wordleInv. rewrite Hg, Hst, Hcg, Hwin, Hidx, HM. cbn [length].
  assert (0 < orDefault cfgM DEFAULT_MAX_ATTEMPTS) as Hpos.
  { unfold orDefault, DEFAULT_MAX_ATTEMPTS. destruct cfgM as [m|]; [|lia].
    specialize (Hm m eq_refl). case_decide; lia. }
  split_and!; try done; try lia. by left.
Qed.

Lemma wordleInv_update (s : TurkishWordleState) (text : jsstring) :
  wordleInv TARGETS s -> wordleInv TARGETS (updateCurrentGuess up s text).
Proof.
  intros Hinv. unfold updateCurrentGuess.
  case_bool_decide as Hst; [done|]. case_bool_decide as Hlen; [done|].
  destruct Hinv as (Ht & Hl & Hmax & Hidx & Hle & Hprog & Hlose & Hs & Hwin
                    & Hbuf & Hdone).
  unfold wordleInv. cbn. split_and!; try done; try lia.
Qed.

Lemma wordleInv_with_error (s : TurkishWordleState) (msg : jsstring) :
  wordleInv TARGETS s -> wordleInv TARGETS (with_error s msg).
Proof. done. Qed.

Lemma wordleInv_submit (s : TurkishWordleState) :
  wordleInv TARGETS s -> wordleInv TARGETS (submitGuess up dict s).
Proof.
  intros Hinv. unfold submitGuess.
  case_bool_decide as Hst; [done|]. case_bool_decide as Hlen; [done|].
  destruct (isValidTurkishWord dict (up (currentGuess s)) (wordLength s));
    cbn [negb]; [|done].
  destruct Hinv as (Ht & Hl & Hmax & Hidx & Hle & Hprog & Hlose & Hs & Hwin
                    & Hbuf & Hdone).
  assert (status s = in_progress) as Hin by (by destruct (status s)).
  specialize (Hprog Hin). clear Hwin Hs Hlose Hdone.
  unfold wordleInv. cbn. rewrite length_app. cbn [length].
  destruct (bool_decide (up (currentGuess s) = targetWord s)); cbn [negb andb].
  - split_and!; try done; try lia; auto.
  - case_bool_decide as Hfull.
    + split_and!; try done; try lia; auto.
    + split_and!; try done; try lia; auto.
Qed.

Lemma wordleInv_handle (s s' : TurkishWordleState) (e : WordleEvent) :
  wordleInv TARGETS s ->
  wordleHandle up dict TARGETS s e = Return s' ->
  wordleInv TARGETS s'.
Proof.
  intros Hinv. destruct e as [key| | |k]; cbn [wordleHandle].
  - intros [= <-]. unfold handleKeyPress.
    repeat case_bool_decide; try done. by apply wordleInv_update.
  - intros [= <-]. unfold handleDelete.
    case_bool_decide; try done. by apply wordleInv_update.
  - intros [= <-]. by apply wordleInv_submit.
  - intros Hinit. by apply (wordleInv_init None None k).
Qed.


(** *** Rows *)

Hypothesis up_idempotent : forall w, up (up w) = up w.
Hypothesis targets_uppercase : forall w, w ∈ TARGETS -> up w = w.

Lemma wordleRowsInv_same (s s' : TurkishWordleState) :
  guesses s' = guesses s -> status s' = status s ->
  wordLength s' = wordLength s ->
  wordleRowsInv s -> wordleRowsInv s'.
Proof. unfold wordleRowsInv. by intros -> -> ->. Qed.

Lemma wordleRowsInv_update (s : TurkishWordleState) (text : jsstring) :
  wordleRowsInv s -> wordleRowsInv (updateCurrentGuess up s text).
Proof.
  unfold updateCurrentGuess.
  repeat case_bool_decide; try done; by apply wordleRowsInv_same.
Qed.

Lemma wordleRowsInv_submit (s : TurkishWordleState) :
  wordleInv TARGETS s -> wordleRowsInv s ->
  wordleRowsInv (submitGuess up dict s).
Proof.
  intros Hinv Hrows. unfold submitGuess.
  case_bool_decide as Hst; [done|].
  case_bool_decide as Hlen; [by apply (wordleRowsInv_same s)|].
  destruct (isValidTurkishWord dict (up (currentGuess s)) (wordLength s));
    cbn [negb]; [|by apply (wordleRowsInv_same s)].
  destruct Hinv as (Ht & Hl & _).
  destruct Hrows as (Hfull & Hgreen & _).
  assert (status s = in_progress) as Hin by (by destruct (status s)).
  set (G := up (currentGuess s)) in *.
  set (row := evaluateTurkishWordleGuess up (targetWord s) G).
  assert (up G = G) as HG by apply up_idempotent.
  assert (up (targetWord s) = targetWord s) as HT by (by apply targets_uppercase).
  assert (length row = length G) as Hrowlen.
  { subst row. rewrite evaluate_length, HG. lia. }
  assert (allCorrect (Z.to_nat (wordLength s)) row <-> G = targetWord s)
    as Hiff.
  { replace (Z.to_nat (wordLength s)) with (length (up G)) by (rewrite HG; lia).
    subst row. rewrite evaluate_allCorrect by (rewrite HG, HT; lia).
    by rewrite HG, HT. }
  unfold wordleRowsInv. cbn [guesses status wordLength]. split_and!.
  - apply Forall_app. split; [done|]. apply Forall_singleton. split; [lia|].
    intros i Hi. rewrite Hrowlen in Hi.
    apply lookup_lt_is_Some_2 in Hi as [ch Hch].
    pose proof (evaluate_slot up (targetWord s) G i) as Hs.
    rewrite HG, Hch in Hs. fold row in Hs.
    case_decide; [by rewrite Hs|]. by destruct Hs as [-> | ->].
  - intros i row' Hrow' Hall. rewrite length_app. cbn [length].
    apply lookup_app_Some in Hrow' as [Hold|[Hge Hnew]].
    + destruct (Hgreen i row' Hold Hall) as [Hwon _]. congruence.
    + apply list_lookup_singleton_Some in Hnew as [Hi <-].
      apply Hiff in Hall. rewrite bool_decide_eq_true_2 by done.
      split; [done|lia].
  - case_bool_decide as Hwin.
    + intros _. exists row. split; [apply last_snoc|]. by apply Hiff.
    + cbn [negb andb]. by case_bool_decide.
Qed.

Lemma wordleRowsInv_init (cfgW cfgM : option Z) (k : nat)
    (s0 : TurkishWordleState) :
  initTurkishWordleGame TARGETS cfgW cfgM k = Return s0 -> wordleRowsInv s0.
Proof.
  intros Hinit.
  destruct (init_targetWord _ _ _ _ Hinit)
    as (_ & _ & _ & _ & Hg & Hst & _).
  unfold wordleRowsInv. rewrite Hg, Hst. split_and!; [constructor| |done].
  intros i row Hrow. by rewrite lookup_nil in Hrow.
Qed.

Lemma wordleRowsInv_handle (s s' : TurkishWordleState) (e : WordleEvent) :
  wordleInv TARGETS s -> wordleRowsInv s ->
  wordleHandle up dict TARGETS s e = Return s' ->
  wordleRowsInv s'.
Proof.
  intros Hinv Hrows. destruct e as [key| | |k]; cbn [wordleHandle].
  - intros [= <-]. unfold handleKeyPress.
    repeat case_bool_decide; try done. by apply wordleRowsInv_update.
  - intros [= <-]. unfold handleDelete.
    case_bool_decide; try done. by apply wordleRowsInv_update.
  - intros [= <-]. by apply wordleRowsInv_submit.
  - intros Hinit. by apply (wordleRowsInv_init None None k).
Qed.

Lemma wordleRowsInv_session (events : list WordleEvent) :
  forall s s' : TurkishWordleState,
    wordleInv TARGETS s -> wordleRowsInv s ->
    wordleSession up dict TARGETS s events = Return s' ->
    wordleRowsInv s'.
Proof.
  induction events as [|e rest IH]; intros s s' Hinv Hrows Hrun.
  - cbn in Hrun. by injection Hrun as <-.
  - cbn [wordleSession] in Hrun.
    destruct (wordleHandle up dict TARGETS s e) as [s1| |] eqn:Hstep; try done.
    cbn [mbind result_bind] in Hrun.
    apply (IH s1); [by eapply wordleInv_handle | by eapply wordleRowsInv_handle
                   | done].
Qed.

End WordleSessionFacts.


(** X14. If the runtime's upper-casing is idempotent and leaves the
    words of [TARGET_WORDS_TR] unchanged, then throughout a session of
    the Wordle screen every recorded row has exactly [wordLength] slots,
    all filled; a row that is all green is the last row of a won game;
    and a won game ends with an all-green row. *)
Theorem wordle_session_rows :
  forall (toLocaleUpperCase : jsstring -> jsstring)
         (ALLOWED_WORDS_TR TARGET_WORDS_TR : list jsstring)
         (configWordLength configMaxAttempts : option Z) (k : nat)
         (events : list WordleEvent)
         (s0 s : TurkishWordle.TurkishWordleState),
    (forall w, toLocaleUpperCase (toLocaleUpperCase w) = toLocaleUpperCase w) ->
    (forall w, w ∈ TARGET_WORDS_TR -> toLocaleUpperCase w = w) ->
    (forall m, configMaxAttempts = Some m -> 0 <= m) ->
    initTurkishWordleGame TARGET_WORDS_TR configWordLength configMaxAttempts k
    = Return s0 ->
    wordleSession toLocaleUpperCase ALLOWED_WORDS_TR TARGET_WORDS_TR s0 events
    = Return s ->
    wordleRowsInv s.
Proof.
  intros up dict TARGETS cfgW cfgM k events s0 s Hidem Hstable Hm Hinit Hrun.
  eapply wordleRowsInv_session; [exact Hidem | exact Hstable | | | exact Hrun].
  - by eapply wordleInv_init.
  - by eapply wordleRowsInv_init.
Qed.


Lemma trUpperUnit_idempotent (u : N) :
  TurkishWordle.trUpperUnit (TurkishWordle.trUpperUnit u)
  = TurkishWordle.trUpperUnit u.
Proof. unfold TurkishWordle.trUpperUnit. repeat case_decide; lia. Qed.

Lemma trUpper_idempotent (w : jsstring) :
  TurkishWordle.trUpper (TurkishWordle.trUpper w) = TurkishWordle.trUpper w.
Proof.
  unfold TurkishWordle.trUpper. induction w as [|u w IH]; [done|].
  cbn [map]. by rewrite trUpperUnit_idempotent, IH.
Qed.

Lemma dictionary_uppercase (w : jsstring) :
  w ∈ Examples.dictionary -> TurkishWordle.trUpper w = w.
Proof.
  intros Hin. unfold Examples.dictionary in Hin.
  repeat (apply elem_of_cons in Hin as [->|Hin]; [by vm_compute|]).
  by apply elem_of_nil in Hin.
Qed.

Lemma wordle_session_rows_witness :
  wordleRowsInv MoreExamples.wordle_end.
Proof.
  apply (wordle_session_rows TurkishWordle.trUpper Examples.dictionary
           Examples.dictionary None None 1 MoreExamples.wordle_events
           MoreExamples.wordle_start MoreExamples.wordle_end).
  - apply trUpper_idempotent.
  - apply dictionary_uppercase.
  - intros m Hm. discriminate Hm.
  - by vm_compute.
  - by vm_compute.
Defined.

(** ** ConnectFour: what [checkWinner] finds *)

Section FourInARowRuns.

Import FourInARow.

Lemma run4_Some (b : FourInARowBoardState) (r c dr dc : Z) (p : Player) :
  run4 b r c dr dc = Return (Some p) <->
  forall k, 0 <= k < 4 ->
    cell b (r + k * dr) (c + k * dc) = Return (Some (Some p)).
Proof.
  unfold run4. split.
  - intros Hrun.
    destruct (cell b r c) as [[[q|]|]| |] eqn:H0; cbn in Hrun; try done.
    destruct (cell b (r + dr) (c + dc)) as [x1| |] eqn:H1; cbn in Hrun;
      try done.
    case_bool_decide as E1; [|done]. subst x1.
    destruct (cell b (r + 2 * dr) (c + 2 * dc)) as [x2| |] eqn:H2;
      cbn in Hrun; try done.
    case_bool_decide as E2; [|done]. subst x2.
    destruct (cell b (r + 3 * dr) (c + 3 * dc)) as [x3| |] eqn:H3;
      cbn in Hrun; try done.
    case_bool_decide as E3; [|done]. subst x3.
    injection Hrun as ->.
    intros k Hk.
    assert (k = 0 \/ k = 1 \/ k = 2 \/ k = 3) as [-> | [-> | [-> | ->]]] by lia.
    + by rewrite !Z.mul_0_l, !Z.add_0_r.
    + by rewrite !Z.mul_1_l.
    + done.
    + done.
  - intros Hall.
    pose proof (Hall 0 ltac:(lia)) as H0.
    pose proof (Hall 1 ltac:(lia)) as H1.
    pose proof (Hall 2 ltac:(lia)) as H2.
    pose proof (Hall 3 ltac:(lia)) as H3.
    rewrite !Z.mul_0_l, !Z.add_0_r in H0. rewrite !Z.mul_1_l in H1.
    rewrite H0. cbn [mbind result_bind]. rewrite H1. cbn [mbind result_bind].
    rewrite bool_decide_eq_true_2 by done.
    rewrite H2. cbn [mbind result_bind]. rewrite bool_decide_eq_true_2 by done.
    rewrite H3. cbn [mbind result_bind]. by rewrite bool_decide_eq_true_2.
Qed.

Lemma scan_Some (b : FourInARowBoardState) (dr dc : Z)
    (starts : list (Z * Z)) (k : result (option Player)) (p : Player) :
  scan b dr dc starts k = Return (Some p) ->
  (exists start, start ∈ starts
                 /\ run4 b start.1 start.2 dr dc = Return (Some p))
  \/ k = Return (Some p).
Proof.
  induction starts as [|[r c] rest IH]; cbn [scan]; [by right|].
  destruct (run4 b r c dr dc) as [[q|]| |] eqn:Hrun; cbn [mbind result_bind];
    try done.
  - intros [= ->]. left. exists (r, c). split; [left|done].
  - intros Hscan. destruct (IH Hscan) as [(start & Hin & Hs)|Hk]; [|by right].
    left. exists start. split; [by right|done].
Qed.

Lemma scan_None (b : FourInARowBoardState) (dr dc : Z)
    (starts : list (Z * Z)) (k : result (option Player)) :
  scan b dr dc starts k = Return None ->
  (forall start, start ∈ starts ->
     run4 b start.1 start.2 dr dc = Return None)
  /\ k = Return None.
Proof.
  induction starts as [|[r c] rest IH]; cbn [scan].
  - intros ->. split; [|done]. by intros start Hin%elem_of_nil.
  - destruct (run4 b r c dr dc) as [[q|]| |] eqn:Hrun; cbn [mbind result_bind];
      try done.
    intros Hscan. destruct (IH Hscan) as [Hall Hk]. split; [|done].
    intros start [->|Hin]%elem_of_cons; [done|by apply Hall].
Qed.

Lemma elem_of_grid (r0 r1 c0 c1 r c : Z) :
  (r, c) ∈ grid r0 r1 c0 c1 <-> r0 <= r < r1 /\ c0 <= c < c1.
Proof.
  unfold grid. rewrite list_elem_of_bind. split.
  - intros (r' & Hin & Hr). apply list_elem_of_bind in Hin as (c' & Hin & Hc).
    apply list_elem_of_singleton in Hin as [= -> ->].
    apply elem_of_seqZ in Hr, Hc. lia.
  - intros [Hr Hc]. exists r. split; [|apply elem_of_seqZ; lia].
    apply list_elem_of_bind. exists c. split; [by left|apply elem_of_seqZ; lia].
Qed.

(** The start cells that [checkWinner] visits for a direction are those
    from which the run stays on the board. *)
Lemma holdsRun_scanned (b : FourInARowBoardState) (p : Player) (r c dr dc : Z)
    (starts : list (Z * Z)) :
  ((dr, dc), starts) ∈
    [((0, 1), grid 0 ROWS 0 (COLS - 3));
     ((1, 0), grid 0 (ROWS - 3) 0 COLS);
     ((1, 1), grid 0 (ROWS - 3) 0 (COLS - 3));
     ((-1, 1), grid 3 ROWS 0 (COLS - 3))] ->
  (r, c) ∈ starts /\ run4 b r c dr dc = Return (Some p)
  <-> holdsRun b p (r, c) (dr, dc).
Proof.
  intros Hdir. unfold holdsRun, onBoard, RUN_DIRECTIONS. cbn [fst snd].
  rewrite run4_Some. unfold ROWS, COLS in *.
  repeat (apply elem_of_cons in Hdir as [[= -> -> ->]|Hdir];
          [rewrite elem_of_grid; split;
           [intros [Hin Hall]; split_and!; try done; try lia;
            apply (bool_decide_unpack _); by vm_compute
           |intros (_ & Hs & He & Hall); split; [lia|done]]|]).
  by apply elem_of_nil in Hdir.
Qed.

Lemma checkWinner_Some (b : FourInARowBoardState) (p : Player) :
  checkWinner b = Return (Some p) -> exists start dir, holdsRun b p start dir.
Proof.
  unfold checkWinner. intros Hscan.
  repeat (apply scan_Some in Hscan as [([r c] & Hin & Hrun)|Hscan];
          [eexists (r, c), (_, _);
           eapply holdsRun_scanned; [|split; [exact Hin|exact Hrun]];
           apply (bool_decide_unpack _); by vm_compute|]).
  done.
Qed.

Lemma checkWinner_None (b : FourInARowBoardState) (p : Player)
    (start dir : Z * Z) :
  checkWinner b = Return None -> ~ holdsRun b p start dir.
Proof.
  unfold checkWinner. intros Hscan Hrun.
  destruct start as [r c], dir as [dr dc].
  pose proof Hrun as (Hdir & _).
  apply scan_None in Hscan as [H1 Hscan].
  apply scan_None in Hscan as [H2 Hscan].
  apply scan_None in Hscan as [H3 Hscan].
  apply scan_None in Hscan as [H4 _].
  unfold RUN_DIRECTIONS in Hdir.
  apply elem_of_cons in Hdir as [[= -> ->]|Hdir].
  { eapply holdsRun_scanned in Hrun as [Hin Hr]; [|by left].
    specialize (H1 _ Hin). cbn [fst snd] in H1. congruence. }
  apply elem_of_cons in Hdir as [[= -> ->]|Hdir].
  { eapply holdsRun_scanned in Hrun as [Hin Hr]; [|by right; left].
    specialize (H2 _ Hin). cbn [fst snd] in H2. congruence. }
  apply elem_of_cons in Hdir as [[= -> ->]|Hdir].
  { eapply holdsRun_scanned in Hrun as [Hin Hr]; [|by right; right; left].
    specialize (H3 _ Hin). cbn [fst snd] in H3. congruence. }
  apply elem_of_cons in Hdir as [[= -> ->]|Hdir].
  { eapply holdsRun_scanned in Hrun as [Hin Hr];
      [|by right; right; right; left].
    specialize (H4 _ Hin). cbn [fst snd] in H4. congruence. }
  by apply elem_of_nil in Hdir.
Qed.

End FourInARowRuns.

(** X15. On a board with its six rows, [checkWinner] answers a player
    exactly when some run of four is held: an answer [p] comes with four
    cells in a row, column or diagonal of the 6 x 7 board that all hold
    [p], and the answer is [null] exactly when no player holds such a
    run. *)
Theorem connectfour_checkWinner_runs :
  forall (board : FourInARow.FourInARowBoardState),
    Z.of_nat (length board) = FourInARow.ROWS ->
    (forall p, FourInARow.checkWinner board = Return (Some p) ->
       exists start dir, holdsRun board p start dir)
    /\ (FourInARow.checkWinner board = Return None <->
        forall p start dir, ~ holdsRun board p start dir).
Proof.
  intros board Hlen. split; [apply checkWinner_Some|]. split.
  - intros Hnone p start dir. by apply checkWinner_None.
  - intros Hno. destruct (checkWinner_returns board Hlen) as [[p|] Ho]; [|done].
    destruct (checkWinner_Some board p Ho) as (start & dir & Hrun).
    by destruct (Hno p start dir).
Qed.

Lemma connectfour_checkWinner_runs_witness :
  exists start dir,
    holdsRun (FourInARow.board MoreExamples.vertical_win) P1 start dir.
Proof.
  apply (proj1 (connectfour_checkWinner_runs
                  (FourInARow.board MoreExamples.vertical_win) eq_refl) P1).
  by vm_compute.
Defined.

(** ** ConnectFour: the states reached by play *)

Section FourInARowPlay.

Import FourInARow.

Lemma idx_elem_of {A} (a : list A) (i : Z) (x : A) : idx a i = Some x -> x ∈ a.
Proof.
  unfold idx. case_decide; [|done]. apply list_elem_of_lookup_2.
Qed.

Lemma boardShape_row (b : FourInARowBoardState) (r : Z) (row : list CellValue) :
  boardShape b -> idx b r = Some row -> Z.of_nat (length row) = COLS.
Proof.
  intros [_ Hrows] Hrow. apply idx_elem_of in Hrow.
  by apply (proj1 (Forall_forall _ _) Hrows).
Qed.

Lemma cell_onBoard (b : FourInARowBoardState) (r c : Z) :
  boardShape b -> onBoard r c -> exists x, cell b r c = Return (Some x).
Proof.
  intros Hshape [Hr Hc]. rewrite cell_unfold.
  destruct (idx_in_range b r) as [row Hrow]; [destruct Hshape; lia|].
  rewrite Hrow. pose proof (boardShape_row b r row Hshape Hrow) as Hlen.
  destruct (idx_in_range row c) as [x Hx]; [lia|]. exists x. by rewrite Hx.
Qed.

Lemma cell_Some_onBoard (b : FourInARowBoardState) (r c : Z) (x : CellValue) :
  boardShape b -> cell b r c = Return (Some x) -> onBoard r c.
Proof.
  intros Hshape. rewrite cell_unfold.
  destruct (idx b r) as [row|] eqn:Hrow; [|done]. intros [= Hx].
  pose proof (boardShape_row b r row Hshape Hrow) as Hlen.
  apply idx_Some_range in Hrow, Hx. destruct Hshape as [Hb _].
  unfold onBoard. lia.
Qed.

Lemma boardShape_set_cell (b : FourInARowBoardState) (r c : Z) (v : CellValue) :
  boardShape b -> boardShape (set_cell b r c v).
Proof.
  intros [Hlen Hrows]. split; [by rewrite length_set_cell|].
  unfold set_cell. case_decide; [|done].
  apply Forall_alter; [done|]. intros row _ Hrow. by rewrite length_set_idx.
Qed.

Lemma count_concat_alter {A} (f : A -> bool) (g : list A -> list A)
    (b : list (list A)) :
  forall (i : nat) (row : list A),
    b !! i = Some row ->
    (count f (concat (alter g i b)) + count f row
     = count f (concat b) + count f (g row))%nat.
Proof.
  induction b as [|x b IH]; intros [|i] row Hrow; try done.
  - injection Hrow as ->.
    change (alter g 0%nat (row :: b)) with (g row :: b).
    cbn [concat]. rewrite !count_app. lia.
  - cbn in Hrow. specialize (IH i row Hrow).
    change (alter g (S i) (x :: b)) with (x :: alter g i b).
    cbn [concat]. rewrite !count_app. lia.
Qed.

Lemma pieces_set_cell (p q : Player) (b : FourInARowBoardState) (r c : Z) :
  cell b r c = Return (Some None) ->
  pieces p (set_cell b r c (Some q))
  = (pieces p b + b2n (bool_decide (q = p)))%nat.
Proof.
  rewrite cell_unfold. destruct (idx b r) as [row|] eqn:Hrow; [|done].
  intros [= Hc]. unfold pieces, set_cell.
  unfold idx in Hrow, Hc. case_decide as Hr; [|done]. case_decide as Hcol; [|done].
  pose proof (count_concat_alter (fun x => bool_decide (x = Some p))
                (fun row => set_idx row c (Some q)) b (Z.to_nat r) row Hrow)
    as Hb.
  cbn beta in Hb. unfold set_idx in Hb at 2. rewrite decide_True in Hb by done.
  pose proof (count_insert (fun x => bool_decide (x = Some p)) row (Z.to_nat c)
                (Some q) None Hc) as Hrowc.
  cbn beta in Hrowc.
  rewrite (bool_decide_eq_false_2 (None = Some p)) in Hrowc by done.
  assert (bool_decide (Some q = Some p) = bool_decide (q = p)) as Heq.
  { apply bool_decide_ext. split; [by intros [= ->]|by intros ->]. }
  rewrite Heq in Hrowc. change (b2n false) with 0%nat in Hrowc.
  unfold FourInARowBoardState, CellValue in *. lia.
Qed.

(** What [makeMove] does on an in-progress state with its six rows. *)
Lemma makeMove_cases (s : FourInARowState) (col : Z) :
  Z.of_nat (length (board s)) = ROWS -> status s = in_progress ->
  makeMove s col = Return s
  \/ exists r,
       0 <= r < ROWS
       /\ cell (board s) r col = Return (Some None)
       /\ (forall r', r < r' < ROWS ->
             cell (board s) r' col <> Return (Some None))
       /\ exists w,
            checkWinner (set_cell (board s) r col (Some (currentPlayer s)))
            = Return w
            /\ match w with
               | Some p =>
                   makeMove s col
                   = Return {| board := set_cell (board s) r col
                                          (Some (currentPlayer s));
                               currentPlayer := currentPlayer s;
                               status := win; winner := Some p |}
               | None =>
                   exists d : bool,
                     checkDraw (set_cell (board s) r col
                                  (Some (currentPlayer s)))
                     = Return d
                     /\ makeMove s col
                        = Return
                            (if d
                             then {| board := set_cell (board s) r col
                                                (Some (currentPlayer s));
                                     currentPlayer := currentPlayer s;
                                     status := draw; winner := None |}
                             else {| board := set_cell (board s) r col
                                                (Some (currentPlayer s));
                                     currentPlayer := other (currentPlayer s);
                                     status := in_progress; winner := None |})
               end.
Proof.
  intros Hlen Hst. unfold makeMove.
  rewrite bool_decide_eq_false_2 by (rewrite Hst; auto).
  destruct (lowestEmptyRow_spec (board s) col (Z.to_nat ROWS))
    as (z & Hz & Hcase); [unfold ROWS in *; lia|].
  rewrite Hz. cbn [mbind result_bind].
  replace (Z.of_nat (Z.to_nat ROWS)) with ROWS in Hcase by done.
  destruct Hcase as [[-> _]|(Hr & Hc & Hbelow)]; [by left|right].
  rewrite bool_decide_eq_false_2 by lia.
  exists z. split; [done|]. split; [done|]. split; [done|].
  set (nb := set_cell (board s) z col (Some (currentPlayer s))).
  destruct (checkWinner_returns nb) as [w Hw];
    [subst nb; by rewrite length_set_cell|].
  exists w. split; [done|]. rewrite Hw. cbn [mbind result_bind].
  destruct w as [p|]; [done|].
  destruct (checkDraw_returns nb) as [d Hd];
    [subst nb; by rewrite length_set_cell|].
  exists d. split; [done|]. rewrite Hd. cbn [mbind result_bind].
  by destruct d.
Qed.

Lemma holdsRun_before (b : FourInARowBoardState) (r c : Z) (x : CellValue)
    (mover q : Player) (start dir : Z * Z) :
  cell b r c = Return (Some x) -> q <> mover ->
  holdsRun (set_cell b r c (Some mover)) q start dir ->
  holdsRun b q start dir.
Proof.
  intros Hcell Hne (Hdir & Hs & He & Hall). split_and!; try done.
  intros k Hk. specialize (Hall k Hk).
  destruct (decide ((start.1 + k * dir.1, start.2 + k * dir.2) = (r, c)))
    as [[= Hr Hc]|Hother].
  - rewrite Hr, Hc in Hall.
    rewrite (cell_set_cell_eq b r c x (Some mover) Hcell) in Hall. congruence.
  - by rewrite cell_set_cell_ne in Hall.
Qed.

Lemma occupied_set_cell (b : FourInARowBoardState) (r c r' c' : Z)
    (x : CellValue) (mover : Player) :
  cell b r c = Return (Some x) ->
  occupied (set_cell b r c (Some mover)) r' c'
  <-> (r', c') = (r, c) \/ occupied b r' c'.
Proof.
  intros Hcell. unfold occupied.
  destruct (decide ((r', c') = (r, c))) as [[= -> ->]|Hother].
  - rewrite (cell_set_cell_eq b r c x (Some mover) Hcell).
    split; [by left|]. intros _. by exists mover.
  - rewrite cell_set_cell_ne by done. split; [by right|by intros [?|?]].
Qed.

(** With the top row full and no piece floating, every cell is taken. *)
Lemma full_board (b : FourInARowBoardState) :
  boardShape b ->
  (forall r c, occupied b r c -> r + 1 < ROWS -> occupied b (r + 1) c) ->
  checkDraw b = Return true ->
  forall r c, onBoard r c -> occupied b r c.
Proof.
  intros Hshape Hgrav Hdraw r c [Hr Hc].
  assert (occupied b 0 c) as Htop.
  { unfold checkDraw in Hdraw.
    destruct (elem b 0) as [top| |] eqn:Htop; try done.
    cbn [mbind result_bind] in Hdraw. injection Hdraw as Hall.
    apply elem_Return in Htop.
    destruct (cell_onBoard b 0 c Hshape) as [x Hx];
      [unfold onBoard, ROWS; lia|].
    pose proof Hx as Hx'. rewrite cell_unfold, Htop in Hx'.
    injection Hx' as Hx'. apply idx_elem_of in Hx'.
    pose proof (proj1 (forallb_forall _ _) Hall x) as Hnot.
    rewrite <- list_elem_of_In in Hnot. specialize (Hnot Hx').
    apply bool_decide_eq_true in Hnot.
    destruct x as [p|]; [by exists p|done]. }
  assert (forall n : nat, Z.of_nat n < ROWS -> occupied b (Z.of_nat n) c)
    as Hall.
  { induction n as [|n IH]; intros Hn; [done|].
    replace (Z.of_nat (S n)) with (Z.of_nat n + 1) by lia.
    apply Hgrav; [apply IH|]; lia. }
  replace r with (Z.of_nat (Z.to_nat r)) by lia. apply Hall. lia.
Qed.

Lemma initial_cell (r c : Z) (p : Player) :
  cell INITIAL_BOARD r c <> Return (Some (Some p)).
Proof.
  rewrite cell_unfold. destruct (idx INITIAL_BOARD r) as [row|] eqn:Hrow; [|done].
  intros [= Hx]. apply idx_elem_of in Hrow, Hx.
  apply elem_of_replicate in Hrow as [-> _].
  by apply elem_of_replicate in Hx as [? _].
Qed.

Lemma connectFourInv_initial : connectFourInv INITIAL_STATE.
Proof.
  unfold connectFourInv. cbn [board status winner INITIAL_STATE]. split_and!.
  - split; [done|]. unfold INITIAL_BOARD. apply Forall_replicate.
    by rewrite length_replicate.
  - intros r c [p Hp]. by destruct (initial_cell r c p).
  - by vm_compute.
  - done.
  - intros p start dir (_ & _ & _ & Hall).
    by destruct (initial_cell _ _ p (Hall 0 ltac:(lia))).
Qed.

Lemma connectFourInv_makeMove (s : FourInARowState) (col : Z) :
  connectFourInv s ->
  exists s', makeMove s col = Return s' /\ connectFourInv s'.
Proof.
  intros Hinv.
  destruct (decide (status s = in_progress)) as [Hst|Hst].
  2:{ exists s. split; [|done]. unfold makeMove.
      by rewrite bool_decide_eq_true_2. }
  pose proof Hinv as (Hshape & Hgrav & Hcount & Hstatus).
  rewrite Hst in Hstatus. destruct Hstatus as [Hw Hnoruns].
  destruct (makeMove_cases s col (proj1 Hshape) Hst)
    as [Hsame|(r & Hr & Hempty & Hbelow & w & Hcheck & Hmove)].
  { by exists s. }
  remember (currentPlayer s) as mover eqn:Hmover in *.
  set (nb := set_cell (board s) r col (Some mover)) in *.
  assert (boardShape nb) as Hshape' by (by apply boardShape_set_cell).
  assert (forall r' c', occupied nb r' c' -> r' + 1 < ROWS ->
                        occupied nb (r' + 1) c') as Hgrav'.
  { intros r' c' Hocc Hr'.
    apply (occupied_set_cell _ _ _ _ _ None mover Hempty).
    apply (occupied_set_cell _ _ _ _ _ None mover Hempty) in Hocc
      as [[= -> ->]|Hocc].
    - right. destruct (cell_onBoard (board s) (r + 1) col Hshape) as [x Hx].
      { apply (cell_Some_onBoard _ _ _ _ Hshape) in Hempty.
        unfold onBoard in *. lia. }
      destruct x as [q|]; [by exists q|].
      by destruct (Hbelow (r + 1) ltac:(lia)).
    - right. by apply Hgrav. }
  assert (forall q start dir, q <> mover -> ~ holdsRun nb q start dir)
    as Hothers.
  { intros q start dir Hq Hrun. apply (Hnoruns q start dir).
    by apply (holdsRun_before _ r col None mover). }
  assert (pieces P1 nb = (pieces P2 nb + b2n (bool_decide (mover = P1)))%nat)
    as Hcount'.
  { subst nb. rewrite !pieces_set_cell by done. rewrite Hcount.
    unfold lastMover.
    rewrite (bool_decide_eq_true_2 (status s = in_progress)) by done.
    rewrite <- Hmover. clear. destruct mover; vm_compute; lia. }
  destruct w as [p|].
  - eexists. split; [exact Hmove|].
    assert (p = mover) as ->.
    { destruct (decide (p = mover)) as [|Hne]; [done|].
      destruct (checkWinner_Some nb p Hcheck) as (start & dir & Hrun).
      by destruct (Hothers p start dir Hne). }
    unfold connectFourInv, lastMover. cbn [board status winner currentPlayer].
    split_and!; try done.
    + by apply checkWinner_Some.
    + intros start dir. apply Hothers. clear. by destruct mover.
  - destruct Hmove as (d & Hdraw & Hmove). eexists. split; [exact Hmove|].
    destruct d; unfold connectFourInv, lastMover;
      cbn [board status winner currentPlayer].
    + split_and!; try done.
      * intros p start dir. by apply checkWinner_None.
      * by apply full_board.
    + split_and!; try done.
      * rewrite Hcount'. clear. by destruct mover.
      * intros p start dir. by apply checkWinner_None.
Qed.

End FourInARowPlay.

(** X16. Every sequence of [makeMove] calls from [INITIAL_STATE],
    whatever the column numbers, returns a state (no call raises) in which:
    the board has six rows of seven cells; no piece floats (the cell below
    a piece holds a piece); P1 has as many pieces as P2, plus one when P1
    placed the last piece; while the status is [in_progress] there is no
    winner and nobody holds a run of four; on [win] the winner is the
    player the turn stayed with, who holds a run of four while the
    opponent holds none; on [draw] there is no winner, nobody holds a run,
    and every cell is taken; and the status is never [lose]. *)
Theorem connectfour_play_invariant :
  forall (columns : list Z),
  exists s,
    playConnectFour FourInARow.INITIAL_STATE columns = Return s
    /\ connectFourInv s.
Proof.
  intros columns.
  pose proof connectFourInv_initial as Hinv. revert Hinv.
  generalize FourInARow.INITIAL_STATE as s0.
  induction columns as [|col rest IH]; intros s0 Hinv.
  - by exists s0.
  - destruct (connectFourInv_makeMove s0 col Hinv) as (s1 & Hstep & Hinv1).
    destruct (IH s1 Hinv1) as (s & Hrun & Hs).
    exists s. split; [|done].
    cbn [playConnectFour]. rewrite Hstep. by cbn [mbind result_bind].
Qed.

(** ** Battleship: placing ships, and the phases *)

Section BattleshipSetup.

Import Battleship.

Lemma allEmpty_true_iff (g : Grid) (cells : list (Z * Z)) :
  allEmpty g cells = Return true <-> Forall (cellIs g empty) cells.
Proof.
  induction cells as [|[r c] rest IH]; [done|].
  cbn [allEmpty]. rewrite Forall_cons. unfold cellIs at 1. cbn [fst snd].
  destruct (cellAt g r c) as [x| |]; cbn [mbind result_bind].
  - case_bool_decide as Hx.
    + split; [done|]. intros [[= ->] _]. done.
    + subst x. rewrite IH. by split; [|intros [_ ?]].
  - split; [done|by intros [? _]].
  - split; [done|by intros [? _]].
Qed.

Lemma last_of_span (r c sz : Z) (o : Orientation) :
  0 < sz ->
  match o with
  | horizontal => (r, c + (sz - 1))
  | vertical => (r + (sz - 1), c)
  end ∈ span r c o sz.
Proof.
  intros Hsz. unfold span. apply list_elem_of_fmap.
  exists (sz - 1). split; [by destruct o|]. apply elem_of_seqZ. lia.
Qed.

Lemma canPlaceShip_true (g : Grid) (sz r c : Z) (o : Orientation) :
  gridShape g -> 0 < sz ->
  canPlaceShip g sz r c o = Return true
  <-> Forall (cellIs g empty) (span r c o sz).
Proof.
  intros Hg Hsz. split.
  - unfold canPlaceShip.
    destruct o; (case_bool_decide; [done|]); apply allEmpty_true_iff.
  - intros Hall.
    pose proof (last_of_span r c sz o Hsz) as Hlast.
    pose proof (proj1 (Forall_forall _ _) Hall _ Hlast) as Hcell.
    unfold canPlaceShip.
    destruct o; unfold cellIs in Hcell; cbn [fst snd] in Hcell;
      apply (cellAt_Some_inGrid _ _ _ _ Hg) in Hcell as [Hr Hc];
      cbn [fst snd] in Hr, Hc;
      (rewrite bool_decide_eq_false_2 by lia);
      by apply allEmpty_true_iff.
Qed.

End BattleshipSetup.

(** X17. On a grid of six rows of six cells and for a ship of positive
    size, [canPlaceShip] answers [true] exactly when every cell of the
    ship's span holds [empty] (which puts the whole span inside the
    grid); and when the start row is a row of the grid it answers [false]
    in every other case. *)
Theorem battleship_canPlaceShip_spec :
  forall (g : Battleship.Grid) (shipSize r c : Z) (o : Battleship.Orientation),
    gridShape g -> 0 < shipSize ->
    (Battleship.canPlaceShip g shipSize r c o = Return true
     <-> Forall (cellIs g Battleship.empty) (Battleship.span r c o shipSize))
    /\ (0 <= r < Battleship.GRID_SIZE ->
        Battleship.canPlaceShip g shipSize r c o = Return false
        <-> ~ Forall (cellIs g Battleship.empty)
                (Battleship.span r c o shipSize))
    /\ (Forall (cellIs g Battleship.empty) (Battleship.span r c o shipSize) ->
        Forall inGrid (Battleship.span r c o shipSize)).
Proof.
  intros g sz r c o Hg Hsz.
  pose proof (canPlaceShip_true g sz r c o Hg Hsz) as Htrue.
  split; [done|]. split.
  - intros Hr.
    destruct (canPlaceShip_returns g sz r c o (proj1 Hg) Hr) as [[|] Hb].
    + rewrite Hb. split; [done|]. intros Hno. destruct Hno. by apply Htrue.
    + split; [|done]. intros _ Hall. apply Htrue in Hall. congruence.
  - intros Hall. apply Htrue in Hall.
    by apply (canPlaceShip_true_inGrid g sz r c o).
Qed.

Lemma battleship_canPlaceShip_spec_witness :
  Battleship.canPlaceShip Battleship.createEmptyGrid 3 2 1 Battleship.vertical
  = Return true
  <-> Forall (cellIs Battleship.createEmptyGrid Battleship.empty)
        (Battleship.span 2 1 Battleship.vertical 3).
Proof.
  apply (battleship_canPlaceShip_spec Battleship.createEmptyGrid 3 2 1
           Battleship.vertical).
  - split; [done|]. by repeat constructor.
  - lia.
Defined.

(** X18. The phases of a Battleship game only move forward, one step at
    a time: an operation that returns leaves the phase as it is, except
    that [finishSetup] takes [setup_p1] to [setup_p2] (handing the turn
    to P2) and [setup_p2] to [in_progress] (handing the turn to P1), each
    only when every ship of the player setting up is placed, and
    [fireShot] takes [in_progress] to [finished], naming the shooter as
    the winner. *)
Theorem battleship_phase_steps :
  forall (s s' : Battleship.BattleshipState) (a : BattleshipAction),
    battleshipStep s a = Return s' ->
    Battleship.phase s' = Battleship.phase s
    \/ (a = FinishSetup
        /\ Battleship.phase s = Battleship.setup_p1
        /\ Battleship.phase s' = Battleship.setup_p2
        /\ allPlaced (Battleship.ships (Battleship.p1 s))
        /\ Battleship.currentPlayer s' = P2)
    \/ (a = FinishSetup
        /\ Battleship.phase s = Battleship.setup_p2
        /\ Battleship.phase s' = Battleship.phase_in_progress
        /\ allPlaced (Battleship.ships (Battleship.p2 s))
        /\ Battleship.currentPlayer s' = P1)
    \/ (exists r c,
          a = FireShot r c
          /\ Battleship.phase s = Battleship.phase_in_progress
          /\ Battleship.phase s' = Battleship.finished
          /\ Battleship.winner s' = Some (Battleship.currentPlayer s)).
Proof.
  intros s s' a Hstep. destruct a as [r c|shipId| | |r c]; cbn in Hstep.
  - left. unfold Battleship.placeShip in Hstep.
    destruct (bool_decide _ && bool_decide _); [by injection Hstep as <-|].
    destruct (Battleship.selectedShipId (Battleship.setup s)) as [[|u shipId]|];
      try by injection Hstep as <-.
    destruct (Battleship.findIndex _ _) as [k|]; [|by injection Hstep as <-].
    destruct (elem _ _) as [sh| |]; try done. cbn [mbind result_bind] in Hstep.
    match type of Hstep with
    | mbind _ ?m = _ => destruct m as [cleared| |]; try done
    end.
    cbn [mbind result_bind] in Hstep.
    destruct (Battleship.canPlaceShip _ _ _ _ _) as [ok| |]; try done.
    cbn [mbind result_bind] in Hstep.
    destruct ok; cbn [negb] in Hstep; [|by injection Hstep as <-].
    destruct (Battleship.writeAll _ _ _) as [newGrid| |]; try done.
    cbn [mbind result_bind] in Hstep. by injection Hstep as <-.
  - left. by injection Hstep as <-.
  - left. by injection Hstep as <-.
  - injection Hstep as <-. unfold Battleship.finishSetup.
    destruct (decide (Battleship.phase s = Battleship.setup_p1)) as [H1|H1].
    + destruct (existsb _ _) eqn:Hex; [by left|].
      right; left. split_and!; try done.
      apply Forall_forall. intros sh Hin.
      apply list_elem_of_In in Hin.
      destruct (Battleship.placed sh) eqn:Hp; [done|].
      assert (existsb (fun s0 => negb (Battleship.placed s0))
                (Battleship.ships (Battleship.p1 s)) = true) as Habs.
      { apply existsb_exists. exists sh. by rewrite Hp. }
      congruence.
    + destruct (decide (Battleship.phase s = Battleship.setup_p2)) as [H2|H2];
        [|by left].
      destruct (existsb _ _) eqn:Hex; [by left|].
      right; right; left. split_and!; try done.
      apply Forall_forall. intros sh Hin.
      apply list_elem_of_In in Hin.
      destruct (Battleship.placed sh) eqn:Hp; [done|].
      assert (existsb (fun s0 => negb (Battleship.placed s0))
                (Battleship.ships (Battleship.p2 s)) = true) as Habs.
      { apply existsb_exists. exists sh. by rewrite Hp. }
      congruence.
  - unfold Battleship.fireShot in Hstep.
    case_bool_decide as Hph; [left; by injection Hstep as <-|].
    destruct (Battleship.cellAt (Battleship.shots _) r c) as [fired| |];
      try done.
    cbn [mbind result_bind] in Hstep.
    destruct (bool_decide (fired <> Some Battleship.empty));
      [left; by injection Hstep as <-|].
    destruct (Battleship.cellAt (Battleship.grid _) r c) as [aimed| |];
      try done.
    cbn [mbind result_bind] in Hstep.
    match type of Hstep with
    | mbind _ ?m = _ => destruct m as [newShots| |]; try done
    end.
    cbn [mbind result_bind] in Hstep.
    match type of Hstep with
    | mbind _ ?m = _ => destruct m as [newGrid| |]; try done
    end.
    cbn [mbind result_bind] in Hstep. injection Hstep as <-.
    cbn [Battleship.phase Battleship.winner].
    destruct (forallb _ _); [|by left].
    right; right; right. by exists r, c.
Qed.

Lemma battleship_phase_steps_witness :
  Battleship.phase Examples.game_over
  = Battleship.phase Examples.before_last_shot
  \/ (FireShot 4 1 = FinishSetup
      /\ Battleship.phase Examples.before_last_shot = Battleship.setup_p1
      /\ Battleship.phase Examples.game_over = Battleship.setup_p2
      /\ allPlaced (Battleship.ships (Battleship.p1 Examples.before_last_shot))
      /\ Battleship.currentPlayer Examples.game_over = P2)
  \/ (FireShot 4 1 = FinishSetup
      /\ Battleship.phase Examples.before_last_shot = Battleship.setup_p2
      /\ Battleship.phase Examples.game_over = Battleship.phase_in_progress
      /\ allPlaced (Battleship.ships (Battleship.p2 Examples.before_last_shot))
      /\ Battleship.currentPlayer Examples.game_over = P1)
  \/ (exists r c,
        FireShot 4 1 = FireShot r c
        /\ Battleship.phase Examples.before_last_shot
           = Battleship.phase_in_progress
        /\ Battleship.phase Examples.game_over = Battleship.finished
        /\ Battleship.winner Examples.game_over
           = Some (Battleship.currentPlayer Examples.before_last_shot)).
Proof.
  apply (battleship_phase_steps Examples.before_last_shot Examples.game_over
           (FireShot 4 1)).
  by vm_compute.
Defined.

(** ** Battleship: grids, spans and counts *)

Section BattleshipGrid.

Import Battleship.

Lemma cellAt_write (g g' : Grid) (r c : Z) (v : CellStatus) :
  write g r c v = Return g' ->
  forall r' c',
    cellAt g' r' c'
    = if decide ((r', c') = (r, c)) then Return (Some v) else cellAt g r' c'.
Proof.
  unfold write, elem. destruct (idx g r) as [rw|] eqn:Hrw; [|done].
  cbn [mbind result_bind]. case_decide as Hc; [|done]. intros [= <-] r' c'.
  rewrite !cellAt_unfold.
  destruct (decide (r' = r)) as [->|Hr].
  - rewrite (idx_set_idx_eq g r rw _ Hrw), Hrw.
    destruct (decide (c' = c)) as [->|Hc'].
    + rewrite decide_True by done.
      destruct (idx_in_range rw c Hc) as [x Hx].
      by rewrite (idx_set_idx_eq rw c x v Hx).
    + rewrite decide_False by congruence.
      by rewrite idx_set_idx_ne.
  - rewrite decide_False by congruence. by rewrite idx_set_idx_ne.
Qed.

Lemma write_shape (g g' : Grid) (r c : Z) (v : CellStatus) :
  write g r c v = Return g' -> gridShape g -> gridShape g'.
Proof.
  unfold write, elem. destruct (idx g r) as [rw|] eqn:Hrw; [|done].
  cbn [mbind result_bind]. case_decide as Hc; [|done]. intros [= <-] Hg.
  by apply gridShape_set.
Qed.

Lemma writeAll_spec (v : CellStatus) (cells : list (Z * Z)) :
  forall g g' : Grid,
    writeAll g cells v = Return g' -> gridShape g ->
    gridShape g'
    /\ forall cell,
         cellAt g' cell.1 cell.2
         = if bool_decide (cell ∈ cells) then Return (Some v)
           else cellAt g cell.1 cell.2.
Proof.
  induction cells as [|[r c] rest IH]; intros g g' Hw Hg.
  - injection Hw as <-. split; [done|]. intros cell.
    rewrite bool_decide_eq_false_2; [done|]. apply not_elem_of_nil.
  - cbn [writeAll] in Hw.
    destruct (write g r c v) as [g1| |] eqn:Hw1; try done.
    cbn [mbind result_bind] in Hw.
    destruct (IH g1 g' Hw (write_shape _ _ _ _ _ Hw1 Hg)) as [Hg' Hcells].
    split; [done|]. intros [r' c']. rewrite Hcells. cbn [fst snd].
    rewrite (cellAt_write g g1 r c v Hw1).
    destruct (decide ((r', c') ∈ rest)) as [Hin|Hout].
    + rewrite !bool_decide_eq_true_2; [done| by right |done].
    + rewrite (bool_decide_eq_false_2 _ Hout).
      destruct (decide ((r', c') = (r, c))) as [->|Hne].
      * rewrite bool_decide_eq_true_2; [done|by left].
      * rewrite bool_decide_eq_false_2; [done|].
        by intros [?|?]%elem_of_cons.
Qed.

Lemma elem_of_span (r c sz r' c' : Z) (o : Orientation) :
  (r', c') ∈ span r c o sz <->
  match o with
  | horizontal => r' = r /\ c <= c' < c + sz
  | vertical => c' = c /\ r <= r' < r + sz
  end.
Proof.
  unfold span. rewrite list_elem_of_fmap. split.
  - intros (i & Heq & Hi). apply elem_of_seqZ in Hi.
    destruct o; injection Heq as -> ->; lia.
  - intros H. destruct o.
    + exists (c' - c). split; [f_equal; lia|apply elem_of_seqZ; lia].
    + exists (r' - r). split; [f_equal; lia|apply elem_of_seqZ; lia].
Qed.

Lemma NoDup_span (r c sz : Z) (o : Orientation) : NoDup (span r c o sz).
Proof.
  unfold span. apply NoDup_fmap_2; [|apply NoDup_seqZ].
  intros i j Heq. destruct o; injection Heq; lia.
Qed.

Lemma length_span (r c sz : Z) (o : Orientation) :
  length (span r c o sz) = Z.to_nat sz.
Proof. unfold span. by rewrite length_fmap, length_seqZ. Qed.

Lemma covers_spanOf (sh : Ship) (r c : Z) :
  covers sh r c = true <-> (r, c) ∈ spanOf sh.
Proof.
  unfold covers, spanOf. destruct (position sh) as [pos|].
  - rewrite elem_of_span. unfold isThisShip.
    destruct (orientation pos);
      rewrite !andb_true_iff, !bool_decide_eq_true; lia.
  - split; [done|]. by intros ?%elem_of_nil.
Qed.

Lemma spanOf_hitShip (r c : Z) (sh : Ship) : spanOf (hitShip r c sh) = spanOf sh.
Proof.
  unfold hitShip. destruct (position sh) as [pos|] eqn:Hpos; [|done].
  destruct (isThisShip sh pos r c); [|done].
  unfold spanOf. cbn [position size]. by rewrite Hpos.
Qed.

Lemma NoDup_spanOf (sh : Ship) : NoDup (spanOf sh).
Proof.
  unfold spanOf. destruct (position sh); [apply NoDup_span|apply NoDup_nil_2].
Qed.

End BattleshipGrid.

Section Counting.

Context {A : Type} `{EqDecision A}.

Lemma count_le_length (f : A -> bool) (l : list A) :
  (count f l <= length l)%nat.
Proof.
  induction l as [|x l IH]; [done|]. rewrite count_cons. cbn [length].
  destruct (f x); cbn [b2n]; lia.
Qed.

Lemma count_all (f : A -> bool) (l : list A) :
  count f l = length l <-> forall x, x ∈ l -> f x = true.
Proof.
  induction l as [|x l IH].
  - split; [|done]. by intros _ y Hy%elem_of_nil.
  - rewrite count_cons. cbn [length].
    pose proof (count_le_length f l) as Hle. split.
    + intros Hc y [->|Hy]%elem_of_cons.
      * destruct (f x); [done|]. cbn [b2n] in Hc. lia.
      * apply IH; [|done]. destruct (f x); cbn [b2n] in Hc; lia.
    + intros Hall. rewrite (Hall x) by (by left). cbn [b2n].
      rewrite (proj2 IH); [lia|]. intros y Hy. apply Hall. by right.
Qed.

Lemma count_none (f : A -> bool) (l : list A) :
  (forall x, x ∈ l -> f x = false) -> count f l = 0%nat.
Proof.
  induction l as [|x l IH]; intros Hall; [done|].
  rewrite count_cons, (Hall x) by (by left).
  rewrite IH; [done|]. intros y Hy. apply Hall. by right.
Qed.

Lemma count_ext (f f' : A -> bool) (l : list A) :
  (forall x, x ∈ l -> f' x = f x) -> count f' l = count f l.
Proof.
  induction l as [|x l IH]; intros Hall; [done|].
  rewrite !count_cons, (Hall x) by (by left).
  rewrite IH; [done|]. intros y Hy. apply Hall. by right.
Qed.

(** Turning one element from unmarked to marked. *)
Lemma count_mark (f f' : A -> bool) (x : A) (l : list A) :
  NoDup l -> f x = false -> f' x = true ->
  (forall y, y ∈ l -> y <> x -> f' y = f y) ->
  count f' l = (count f l + b2n (bool_decide (x ∈ l)))%nat.
Proof.
  intros Hnd Hx Hx'. induction Hnd as [|y l Hy Hnd IH]; intros Hsame.
  - rewrite bool_decide_eq_false_2; [done|]. apply not_elem_of_nil.
  - rewrite !count_cons.
    destruct (decide (y = x)) as [->|Hne].
    + rewrite Hx, Hx'. rewrite (bool_decide_eq_true_2 (x ∈ x :: l)) by (by left).
      rewrite (count_ext f f' l); [cbn [b2n]; lia|].
      intros z Hz. apply Hsame; [by right|]. by intros ->.
    + rewrite (Hsame y) by (done || by left).
      rewrite IH by (intros z Hz; apply Hsame; by right).
      assert (bool_decide (x ∈ y :: l) = bool_decide (x ∈ l)) as ->.
      { apply bool_decide_ext. rewrite elem_of_cons.
        split; [intros [Heq|Hin]; [by destruct Hne|done]|by right]. }
      lia.
Qed.

End Counting.

(** ** Battleship: the fleets *)

Section BattleshipFleet.

Import Battleship.

Lemma elem_of_insert_inv {A} (l : list A) (k : nat) (x y : A) :
  y ∈ <[k := x]> l -> y = x \/ exists j, j <> k /\ l !! j = Some y.
Proof.
  intros [j Hj]%list_elem_of_lookup.
  apply list_lookup_insert_Some in Hj as [(-> & -> & _)|[Hne Hj]];
    [by left|right; by exists j].
Qed.

Lemma fleet_size_positive (p : PlayerBoardState) (sh : Ship) :
  size <$> ships p = size <$> INITIAL_SHIPS -> sh ∈ ships p -> 0 < size sh.
Proof.
  intros Hsz [k Hk]%list_elem_of_lookup.
  assert ((size <$> ships p) !! k = Some (size sh)) as Hl
    by (by rewrite list_lookup_fmap, Hk).
  rewrite Hsz in Hl.
  do 5 (destruct k as [|k]; [injection Hl as <-; by vm_compute|]).
  done.
Qed.

Lemma empty_grid_cell (r c : Z) (x : CellStatus) :
  cellAt createEmptyGrid r c = Return (Some x) -> x = empty.
Proof.
  rewrite cellAt_unfold.
  destruct (idx createEmptyGrid r) as [rw|] eqn:Hrw; [|done].
  intros [= Hx]. apply idx_elem_of in Hrw, Hx.
  apply elem_of_replicate in Hrw as [-> _].
  by apply elem_of_replicate in Hx as [? _].
Qed.

Lemma fleetInv_initial : fleetInv createInitialPlayerState.
Proof.
  assert (gridShape createEmptyGrid) as Hg.
  { split; [done|]. apply Forall_replicate. by rewrite length_replicate. }
  assert (forall sh, sh ∈ INITIAL_SHIPS ->
            placed sh = false /\ position sh = None /\ hits sh = 0) as Hfresh.
  { apply Forall_forall. by repeat constructor. }
  unfold fleetInv. cbn [grid ships shots createInitialPlayerState].
  split_and!; try done.
  - intros sh Hin. by destruct (Hfresh sh Hin) as (-> & -> & _).
  - intros sh Hin. unfold spanOf. by destruct (Hfresh sh Hin) as (_ & -> & _).
  - intros cell. split.
    + intros [Hc|Hc]; by apply empty_grid_cell in Hc.
    + intros (sh & Hin & Hcell). unfold spanOf in Hcell.
      destruct (Hfresh sh Hin) as (_ & Hpos & _). rewrite Hpos in Hcell.
      by apply elem_of_nil in Hcell.
  - intros cell Hc. by apply empty_grid_cell in Hc.
  - intros i j sh sh' cell Hi Hj Hc. apply list_elem_of_lookup_2 in Hi.
    unfold spanOf in Hc. destruct (Hfresh sh Hi) as (_ & Hpos & _).
    rewrite Hpos in Hc. by apply elem_of_nil in Hc.
  - intros sh Hin. destruct (Hfresh sh Hin) as (_ & Hpos & ->).
    unfold spanOf. by rewrite Hpos.
Qed.

Lemma unhit_initial : unhit createInitialPlayerState.
Proof.
  split.
  - apply Forall_forall. by repeat constructor.
  - intros cell Hc. by apply empty_grid_cell in Hc.
Qed.

Lemma fleetInv_shots (p : PlayerBoardState) (newShots : Grid) :
  gridShape newShots -> fleetInv p ->
  fleetInv {| grid := grid p; ships := ships p; shots := newShots |}.
Proof.
  intros Hs (Hg & _ & Hid & Hsz & Hpl & Hins & Hcells & Hmiss & Hdisj & Hhits).
  unfold fleetInv. cbn [grid ships shots]. by split_and!.
Qed.

(** The grid from which a ship's former cells are wiped before it is
    placed anew. *)
Lemma cleared_spec (p : PlayerBoardState) (sh : Ship) (cleared : Grid) :
  fleetInv p -> sh ∈ ships p ->
  match placed sh, position sh with
  | true, Some pos =>
      writeAll (grid p)
        (span (row pos) (col pos) (orientation pos) (size sh)) empty
  | _, _ => Return (grid p)
  end = Return cleared ->
  gridShape cleared
  /\ forall cell,
       cellAt cleared cell.1 cell.2
       = if bool_decide (cell ∈ spanOf sh) then Return (Some empty)
         else cellAt (grid p) cell.1 cell.2.
Proof.
  intros (Hg & _ & _ & _ & Hpl & _) Hin Hcl. unfold spanOf.
  specialize (Hpl sh Hin).
  destruct (placed sh) eqn:Hp, (position sh) as [pos|] eqn:Hpos.
  - by apply writeAll_spec.
  - injection Hcl as <-. split; [done|]. intros cell.
    rewrite bool_decide_eq_false_2; [done|]. apply not_elem_of_nil.
  - destruct Hpl as [_ Hpl]. by specialize (Hpl ltac:(done)).
  - injection Hcl as <-. split; [done|]. intros cell.
    rewrite bool_decide_eq_false_2; [done|]. apply not_elem_of_nil.
Qed.

(** Placing ship number [k] at a free span keeps the board in order. *)
Lemma fleetInv_place (p : PlayerBoardState) (k : nat) (sh : Ship)
    (r c : Z) (o : Orientation) (cleared newGrid : Grid) :
  fleetInv p -> unhit p ->
  ships p !! k = Some sh ->
  match placed sh, position sh with
  | true, Some pos =>
      writeAll (grid p)
        (span (row pos) (col pos) (orientation pos) (size sh)) empty
  | _, _ => Return (grid p)
  end = Return cleared ->
  canPlaceShip cleared (size sh) r c o = Return true ->
  writeAll cleared (span r c o (size sh)) ship = Return newGrid ->
  let newShip :=
    {| id := id sh; name := name sh; size := size sh; hits := hits sh;
       placed := true;
       position := Some {| row := r; col := c; orientation := o |} |} in
  let p' := {| grid := newGrid; ships := <[k := newShip]> (ships p);
               shots := shots p |} in
  fleetInv p' /\ unhit p'
  /\ (forall sh', sh' ∈ ships p' -> sh' = newShip \/ sh' ∈ ships p).
Proof.
  intros Hinv [Hh0 Hnohit] Hk Hcl Hcan Hw newShip p'.
  pose proof (list_elem_of_lookup_2 _ _ _ Hk) as Hin.
  destruct (cleared_spec p sh cleared Hinv Hin Hcl) as [Hgc Hcleared].
  destruct Hinv as (Hg & Hs & Hid & Hsz & Hpl & Hins & Hcells & Hmiss & Hdisj
                    & Hhits).
  pose proof (fleet_size_positive p sh Hsz Hin) as Hpos.
  pose proof (proj1 (canPlaceShip_true cleared (size sh) r c o Hgc Hpos) Hcan)
    as Hfree.
  pose proof (canPlaceShip_true_inGrid cleared (size sh) r c o Hgc Hcan)
    as Hinside.
  destruct (writeAll_spec ship _ cleared newGrid Hw Hgc) as [Hgn Hnew].
  set (newspan := span r c o (size sh)) in *.
  assert (spanOf newShip = newspan) as Hspan by done.
  assert (forall sh', sh' ∈ ships p' -> sh' = newShip
                      \/ exists j, j <> k /\ ships p !! j = Some sh') as Helems.
  { intros sh' Hin'. by apply elem_of_insert_inv in Hin'. }
  assert (newShip ∈ ships p') as Hnewin.
  { apply (list_elem_of_lookup_2 _ k). cbn [ships p'].
    apply list_lookup_insert_eq. by apply lookup_lt_Some in Hk. }
  assert (forall j y, j <> k -> ships p !! j = Some y -> y ∈ ships p')
    as Holdin.
  { intros j y Hj Hy. apply (list_elem_of_lookup_2 _ j). cbn [ships p'].
    by rewrite list_lookup_insert_ne. }
  assert (forall cell, cell ∈ newspan -> cellIs cleared empty cell) as Hfree'
    by (by apply Forall_forall).
  (* a cell of another ship is neither wiped nor written *)
  assert (forall j y cell, j <> k -> ships p !! j = Some y ->
            cell ∈ spanOf y -> (cell ∉ spanOf sh) /\ (cell ∉ newspan))
    as Hother.
  { intros j y cell Hj Hy Hcell.
    assert (cell ∉ spanOf sh) as Hnot.
    { intros Hc. by destruct (Hj (Hdisj j k y sh cell Hy Hk Hcell Hc)). }
    split; [done|]. intros Hc. specialize (Hfree' cell Hc).
    unfold cellIs in Hfree'. rewrite Hcleared in Hfree'.
    rewrite bool_decide_eq_false_2 in Hfree' by done.
    assert (cellIs (grid p) ship cell \/ cellIs (grid p) hit cell) as [Hx|Hx].
    { apply Hcells. exists y. split; [|done].
      by apply (list_elem_of_lookup_2 _ j). }
    - unfold cellIs in Hx. congruence.
    - unfold cellIs in Hx. congruence. }
  assert (forall cell, ~ cellIs newGrid hit cell) as Hnohit'.
  { intros cell Hc. unfold cellIs in Hc. rewrite Hnew in Hc.
    case_bool_decide; [done|]. rewrite Hcleared in Hc.
    case_bool_decide; [done|]. by apply (Hnohit cell). }
  assert (forall sh', sh' ∈ ships p' -> hits sh' = 0) as Hh0'.
  { intros sh' [->|(j & Hj & Hy)]%Helems.
    - cbn [hits newShip]. by apply Hh0.
    - apply Hh0. by apply (list_elem_of_lookup_2 _ j). }
  split; [|split].
  - unfold fleetInv. cbn [grid ships shots p']. split_and!; try done.
    + rewrite list_fmap_insert. cbn [id newShip].
      rewrite list_insert_id; [done|]. by rewrite list_lookup_fmap, Hk.
    + rewrite list_fmap_insert. cbn [size newShip].
      rewrite list_insert_id; [done|]. by rewrite list_lookup_fmap, Hk.
    + intros sh' [->|(j & Hj & Hy)]%Helems; [done|].
      apply Hpl. by apply (list_elem_of_lookup_2 _ j).
    + intros sh' [->|(j & Hj & Hy)]%Helems; [by rewrite Hspan|].
      apply Hins. by apply (list_elem_of_lookup_2 _ j).
    + intros cell. split.
      * intros Hc.
        destruct (decide (cell ∈ newspan)) as [Hn|Hn].
        { exists newShip. by rewrite Hspan. }
        assert (cellIs cleared ship cell \/ cellIs cleared hit cell) as Hc'.
        { unfold cellIs in *. rewrite !Hnew in Hc.
          by rewrite bool_decide_eq_false_2 in Hc. }
        unfold cellIs in Hc'. rewrite !Hcleared in Hc'.
        destruct (decide (cell ∈ spanOf sh)) as [Hsp|Hsp].
        { rewrite bool_decide_eq_true_2 in Hc' by done.
          by destruct Hc'. }
        rewrite bool_decide_eq_false_2 in Hc' by done.
        apply Hcells in Hc' as (y & [j Hy]%list_elem_of_lookup & Hcell).
        exists y. split; [|done]. apply (Holdin j); [|done].
        intros ->. rewrite Hk in Hy. by injection Hy as <-.
      * intros (y & [->|(j & Hj & Hy)]%Helems & Hcell).
        { left. unfold cellIs. rewrite Hnew.
          by rewrite bool_decide_eq_true_2 by (by rewrite <- Hspan). }
        destruct (Hother j y cell Hj Hy Hcell) as [Hsp Hn].
        unfold cellIs. rewrite !Hnew, !Hcleared.
        rewrite !(bool_decide_eq_false_2 (cell ∈ newspan)) by done.
        rewrite !(bool_decide_eq_false_2 (cell ∈ spanOf sh)) by done.
        apply Hcells. exists y. split; [|done].
        by apply (list_elem_of_lookup_2 _ j).
    + intros cell Hc. unfold cellIs in Hc. rewrite Hnew in Hc.
      case_bool_decide; [done|]. rewrite Hcleared in Hc.
      case_bool_decide; [done|]. by apply (Hmiss cell).
    + intros i j y y' cell Hy Hy' Hcell Hcell'.
      apply list_lookup_insert_Some in Hy as [(-> & <- & _)|[Hi Hy]];
        apply list_lookup_insert_Some in Hy' as [(-> & <- & _)|[Hj Hy']];
        try done.
      * rewrite Hspan in Hcell.
        by destruct (Hother j y' cell) as [_ []].
      * rewrite Hspan in Hcell'.
        by destruct (Hother i y cell) as [_ []].
      * by apply (Hdisj i j y y' cell).
    + intros sh' Hin'. rewrite (Hh0' sh' Hin').
      rewrite count_none; [done|]. intros cell _. unfold isHitAt.
      destruct (cellAt newGrid cell.1 cell.2) as [[[]|]| |] eqn:Hc; try done.
      by destruct (Hnohit' cell).
  - by split.
  - intros sh' [->|(j & Hj & Hy)]%Helems; [by left|right].
    by apply (list_elem_of_lookup_2 _ j).
Qed.

End BattleshipFleet.

(** ** Battleship: the states reached by play *)

Section BattleshipPlay.

Import Battleship.

Lemma battleshipInv_same (s s' : BattleshipState) :
  p1 s' = p1 s -> p2 s' = p2 s -> phase s' = phase s -> winner s' = winner s ->
  battleshipInv s -> battleshipInv s'.
Proof.
  unfold battleshipInv, boardOf. by intros -> -> -> ->.
Qed.

Lemma allPlaced_existsb (l : list Ship) :
  existsb (fun s => negb (placed s)) l = false -> allPlaced l.
Proof.
  intros Hex. apply Forall_forall. intros sh Hin.
  destruct (placed sh) eqn:Hp; [done|].
  assert (existsb (fun s => negb (placed s)) l = true) as Habs.
  { apply existsb_exists. exists sh. split; [by apply list_elem_of_In|].
    by rewrite Hp. }
  congruence.
Qed.

Lemma allSunk_unhit (p : PlayerBoardState) :
  fleetInv p -> unhit p -> allSunk (ships p) = false.
Proof.
  intros (_ & _ & Hid & Hsz & _) [Hh0 _].
  destruct (ships p) as [|sh rest] eqn:Hships; [done|].
  assert (sh ∈ ships p) as Hin by (rewrite Hships; by left).
  assert (size sh = 4) as Hsize by (by injection Hsz).
  rewrite <- Hships in Hh0. specialize (Hh0 sh Hin).
  unfold allSunk. cbn [forallb].
  rewrite bool_decide_eq_false_2; [done|lia].
Qed.

Lemma placeShip_inv (s s' : BattleshipState) (r c : Z) :
  battleshipInv s -> placeShip s r c = Return s' -> battleshipInv s'.
Proof.
  intros Hinv Hstep. unfold placeShip in Hstep.
  destruct (decide (phase s = setup_p1)) as [H1|H1].
  - rewrite (bool_decide_eq_false_2 (phase s <> setup_p1)) in Hstep by auto.
    rewrite (bool_decide_eq_true_2 _ H1) in Hstep. cbv iota in Hstep.
    cbn [andb] in Hstep.
    destruct (selectedShipId (setup s)) as [[|u shipId]|];
      try (injection Hstep as <-; done).
    destruct (findIndex (ships (p1 s)) (u :: shipId)) as [k|];
      [|injection Hstep as <-; done].
    destruct (elem (ships (p1 s)) (Z.of_nat k)) as [sh| |] eqn:Hsh; try done.
    cbn [mbind result_bind] in Hstep.
    apply elem_Return in Hsh. unfold idx in Hsh.
    rewrite decide_True, Nat2Z.id in Hsh by lia.
    match type of Hstep with
    | mbind _ ?m = _ => destruct m as [cleared| |] eqn:Hcl; try done
    end.
    cbn [mbind result_bind] in Hstep.
    destruct (canPlaceShip cleared (size sh) r c (setup_orientation (setup s)))
      as [[|]| |] eqn:Hcan; try done; cbn [mbind result_bind negb] in Hstep.
    2:{ injection Hstep as <-. by apply (battleshipInv_same s). }
    destruct (writeAll cleared _ ship) as [newGrid| |] eqn:Hw; try done.
    cbn [mbind result_bind] in Hstep. injection Hstep as <-.
    destruct Hinv as (Hf1 & Hf2 & Hph). rewrite H1 in Hph.
    destruct Hph as (Hu1 & Hu2 & Hwin).
    destruct (fleetInv_place (p1 s) k sh r c _ cleared newGrid
                Hf1 Hu1 Hsh Hcl Hcan Hw) as (Hf1' & Hu1' & _).
    unfold battleshipInv. cbn [p1 p2 phase winner]. rewrite H1.
    by split_and!.
  - destruct (decide (phase s = setup_p2)) as [H2|H2].
    2:{ rewrite !bool_decide_eq_true_2 in Hstep by done.
        cbn [andb] in Hstep. by injection Hstep as <-. }
    rewrite (bool_decide_eq_false_2 (phase s <> setup_p2)) in Hstep by auto.
    rewrite (bool_decide_eq_false_2 (phase s = setup_p1)) in Hstep by done.
    rewrite andb_false_r in Hstep. cbv iota in Hstep.
    destruct (selectedShipId (setup s)) as [[|u shipId]|];
      try (injection Hstep as <-; done).
    destruct (findIndex (ships (p2 s)) (u :: shipId)) as [k|];
      [|injection Hstep as <-; done].
    destruct (elem (ships (p2 s)) (Z.of_nat k)) as [sh| |] eqn:Hsh; try done.
    cbn [mbind result_bind] in Hstep.
    apply elem_Return in Hsh. unfold idx in Hsh.
    rewrite decide_True, Nat2Z.id in Hsh by lia.
    match type of Hstep with
    | mbind _ ?m = _ => destruct m as [cleared| |] eqn:Hcl; try done
    end.
    cbn [mbind result_bind] in Hstep.
    destruct (canPlaceShip cleared (size sh) r c (setup_orientation (setup s)))
      as [[|]| |] eqn:Hcan; try done; cbn [mbind result_bind negb] in Hstep.
    2:{ injection Hstep as <-. by apply (battleshipInv_same s). }
    destruct (writeAll cleared _ ship) as [newGrid| |] eqn:Hw; try done.
    cbn [mbind result_bind] in Hstep. injection Hstep as <-.
    destruct Hinv as (Hf1 & Hf2 & Hph). rewrite H2 in Hph.
    destruct Hph as (Hu1 & Hu2 & Hwin & Hpl1).
    destruct (fleetInv_place (p2 s) k sh r c _ cleared newGrid
                Hf2 Hu2 Hsh Hcl Hcan Hw) as (Hf2' & Hu2' & _).
    unfold battleshipInv. cbn [p1 p2 phase winner]. rewrite H2.
    by split_and!.
Qed.

Lemma finishSetup_inv (s : BattleshipState) :
  battleshipInv s -> battleshipInv (finishSetup s).
Proof.
  intros Hinv. unfold finishSetup.
  destruct (decide (phase s = setup_p1)) as [H1|H1].
  - destruct (existsb _ _) eqn:Hex; [by apply (battleshipInv_same s)|].
    apply allPlaced_existsb in Hex.
    destruct Hinv as (Hf1 & Hf2 & Hph). rewrite H1 in Hph.
    destruct Hph as (Hu1 & Hu2 & Hwin).
    unfold battleshipInv. cbn [p1 p2 phase winner]. by split_and!.
  - destruct (decide (phase s = setup_p2)) as [H2|H2]; [|done].
    destruct (existsb _ _) eqn:Hex; [by apply (battleshipInv_same s)|].
    apply allPlaced_existsb in Hex.
    destruct Hinv as (Hf1 & Hf2 & Hph). rewrite H2 in Hph.
    destruct Hph as (Hu1 & Hu2 & Hwin & Hpl1).
    unfold battleshipInv. cbn [p1 p2 phase winner].
    split_and!; try done; by apply allSunk_unhit.
Qed.

Lemma hitShip_fields (r c : Z) (sh : Ship) :
  id (hitShip r c sh) = id sh /\ size (hitShip r c sh) = size sh
  /\ placed (hitShip r c sh) = placed sh
  /\ position (hitShip r c sh) = position sh
  /\ hits (hitShip r c sh) = hits sh + Z.of_nat (b2n (covers sh r c)).
Proof.
  unfold hitShip, covers. destruct (position sh) as [pos|] eqn:Hpos.
  - destruct (isThisShip sh pos r c); cbn [id size placed position hits b2n];
      split_and!; try done; lia.
  - cbn [b2n]. split_and!; try done; lia.
Qed.

(** A hit on the target's board keeps it in order. *)
Lemma fleetInv_hit (t : PlayerBoardState) (r c : Z) (newGrid : Grid) :
  fleetInv t -> cellIs (grid t) ship (r, c) ->
  write (grid t) r c hit = Return newGrid ->
  fleetInv {| grid := newGrid; ships := hitShip r c <$> ships t;
              shots := shots t |}.
Proof.
  intros (Hg & Hs & Hid & Hsz & Hpl & Hins & Hcells & Hmiss & Hdisj & Hhits)
         Hship Hw.
  pose proof (cellAt_write _ _ _ _ _ Hw) as Hnew.
  assert (forall cell,
            cellIs newGrid ship cell \/ cellIs newGrid hit cell
            <-> cellIs (grid t) ship cell \/ cellIs (grid t) hit cell)
    as Hsame.
  { intros [r' c']. unfold cellIs in *. cbn [fst snd] in *. rewrite !Hnew.
    destruct (decide ((r', c') = (r, c))) as [[= -> ->]|Hne]; [|done].
    split; [by left|by right]. }
  assert (forall y, y ∈ hitShip r c <$> ships t ->
            exists sh, y = hitShip r c sh /\ sh ∈ ships t) as Helems.
  { intros y Hy. by apply list_elem_of_fmap in Hy. }
  unfold fleetInv. cbn [grid ships shots]. split_and!; try done.
  - by apply (write_shape _ _ _ _ _ Hw).
  - rewrite <- list_fmap_compose, <- Hid. apply list_fmap_ext.
    intros i sh _. apply hitShip_fields.
  - rewrite <- list_fmap_compose, <- Hsz. apply list_fmap_ext.
    intros i sh _. apply hitShip_fields.
  - intros y (sh & -> & Hin)%Helems.
    destruct (hitShip_fields r c sh) as (_ & _ & -> & -> & _). by apply Hpl.
  - intros y (sh & -> & Hin)%Helems. rewrite spanOf_hitShip. by apply Hins.
  - intros cell. rewrite Hsame, Hcells. split.
    + intros (sh & Hin & Hcell). exists (hitShip r c sh).
      split; [by apply list_elem_of_fmap_2|by rewrite spanOf_hitShip].
    + intros (y & (sh & -> & Hin)%Helems & Hcell).
      rewrite spanOf_hitShip in Hcell. by exists sh.
  - intros [r' c'] Hc. unfold cellIs in Hc. cbn [fst snd] in Hc.
    rewrite Hnew in Hc. case_decide; [done|]. by apply (Hmiss (r', c')).
  - intros i j y y' cell Hy Hy' Hcell Hcell'.
    apply list_lookup_fmap_Some in Hy as (sh & -> & Hi).
    apply list_lookup_fmap_Some in Hy' as (sh' & -> & Hj).
    rewrite spanOf_hitShip in Hcell, Hcell'.
    by apply (Hdisj i j sh sh' cell).
  - intros y (sh & -> & Hin)%Helems. rewrite spanOf_hitShip.
    destruct (hitShip_fields r c sh) as (_ & _ & _ & _ & ->).
    rewrite (Hhits sh Hin).
    rewrite (count_mark (isHitAt (grid t)) (isHitAt newGrid) (r, c)
               (spanOf sh) (NoDup_spanOf sh)).
    + assert (covers sh r c = bool_decide ((r, c) ∈ spanOf sh)) as ->.
      { destruct (covers sh r c) eqn:Hcov.
        - symmetry. apply bool_decide_eq_true_2. by apply covers_spanOf.
        - symmetry. apply bool_decide_eq_false_2. rewrite <- covers_spanOf.
          by rewrite Hcov. }
      lia.
    + unfold isHitAt, cellIs in *. cbn [fst snd] in *. by rewrite Hship.
    + unfold isHitAt. cbn [fst snd]. rewrite Hnew. by rewrite decide_True.
    + intros [r' c'] _ Hne. unfold isHitAt. cbn [fst snd]. rewrite Hnew.
      by rewrite decide_False.
Qed.

Lemma allPlaced_hit (l : list Ship) (r c : Z) :
  allPlaced l -> allPlaced (hitShip r c <$> l).
Proof.
  intros Hall. apply Forall_fmap. eapply Forall_impl; [exact Hall|].
  intros sh Hp. cbn. by destruct (hitShip_fields r c sh) as (_ & _ & -> & _).
Qed.

End BattleshipPlay.

Section BattleshipShots.

Import Battleship.

Lemma board_eta (p : PlayerBoardState) :
  {| grid := grid p; ships := ships p; shots := shots p |} = p.
Proof. by destruct p. Qed.

(** What a shot that is fired does to the two boards. *)
Lemma shot_boards (shooter target : PlayerBoardState) (r c : Z)
    (aimed : option CellStatus) (newShots newGrid : Grid) :
  fleetInv shooter -> fleetInv target ->
  allPlaced (ships target) ->
  cellAt (shots shooter) r c = Return (Some empty) ->
  cellAt (grid target) r c = Return aimed ->
  write (shots shooter) r c
    (if bool_decide (aimed = Some ship) then hit else miss) = Return newShots ->
  (if bool_decide (aimed = Some ship) then write (grid target) r c hit
   else Return (grid target)) = Return newGrid ->
  fleetInv {| grid := grid shooter; ships := ships shooter;
              shots := newShots |}
  /\ fleetInv {| grid := newGrid;
                 ships := if bool_decide (aimed = Some ship)
                          then hitShip r c <$> ships target
                          else ships target;
                 shots := shots target |}
  /\ allPlaced (if bool_decide (aimed = Some ship)
                then hitShip r c <$> ships target else ships target).
Proof.
  intros Hfs Hft Hpl Hfired Haimed Hws Hwg. split; [|split].
  - apply fleetInv_shots; [|done].
    apply (write_shape _ _ _ _ _ Hws). by destruct Hfs as (_ & ? & _).
  - case_bool_decide as Hhit.
    + subst aimed. by apply fleetInv_hit.
    + injection Hwg as <-. by rewrite board_eta.
  - case_bool_decide; [by apply allPlaced_hit|done].
Qed.

Lemma fireShot_inv (s s' : BattleshipState) (r c : Z) :
  battleshipInv s -> fireShot s r c = Return s' -> battleshipInv s'.
Proof.
  intros Hinv Hstep. unfold fireShot in Hstep.
  case_bool_decide as Hph; [by injection Hstep as <-|].
  pose proof Hinv as Hinv0.
  destruct Hinv as (Hf1 & Hf2 & Hinv). rewrite Hph in Hinv.
  destruct Hinv as (Hpl1 & Hpl2 & Hs1 & Hs2 & Hwin).
  destruct (decide (currentPlayer s = P1)) as [Hcp|Hcp].
  - rewrite (bool_decide_eq_true_2 _ Hcp) in Hstep. cbv iota in Hstep.
    destruct (cellAt (shots (p1 s)) r c) as [fired| |] eqn:Hfired; try done.
    cbn [mbind result_bind] in Hstep.
    case_bool_decide as Hf;
      [injection Hstep as <-; by apply (battleshipInv_same s)|].
    subst fired.
    destruct (cellAt (grid (p2 s)) r c) as [aimed| |] eqn:Haimed; try done.
    cbn [mbind result_bind] in Hstep.
    match type of Hstep with
    | mbind _ ?m = _ => destruct m as [newShots| |] eqn:Hws; try done
    end.
    cbn [mbind result_bind] in Hstep.
    match type of Hstep with
    | mbind _ ?m = _ => destruct m as [newGrid| |] eqn:Hwg; try done
    end.
    cbn [mbind result_bind] in Hstep. injection Hstep as <-.
    destruct (shot_boards (p1 s) (p2 s) r c aimed newShots newGrid
                Hf1 Hf2 Hpl2 Hfired Haimed Hws Hwg) as (Hf1' & Hf2' & Hpl2').
    unfold battleshipInv. cbn [p1 p2 phase winner].
    split; [done|]. split; [done|].
    match goal with
    | |- context [forallb ?f ?l] => destruct (forallb f l) eqn:Hall
    end.
    + split; [done|]. split; [done|]. exists P1. rewrite Hcp.
      split; [done|]. change (other P1) with P2. cbn [boardOf p1 p2 ships].
      by split.
    + rewrite Hph. by split_and!.
  - assert (currentPlayer s = P2) as Hcp2 by (by destruct (currentPlayer s)).
    rewrite (bool_decide_eq_false_2 _ Hcp) in Hstep. cbv iota in Hstep.
    destruct (cellAt (shots (p2 s)) r c) as [fired| |] eqn:Hfired; try done.
    cbn [mbind result_bind] in Hstep.
    case_bool_decide as Hf;
      [injection Hstep as <-; by apply (battleshipInv_same s)|].
    subst fired.
    destruct (cellAt (grid (p1 s)) r c) as [aimed| |] eqn:Haimed; try done.
    cbn [mbind result_bind] in Hstep.
    match type of Hstep with
    | mbind _ ?m = _ => destruct m as [newShots| |] eqn:Hws; try done
    end.
    cbn [mbind result_bind] in Hstep.
    match type of Hstep with
    | mbind _ ?m = _ => destruct m as [newGrid| |] eqn:Hwg; try done
    end.
    cbn [mbind result_bind] in Hstep. injection Hstep as <-.
    destruct (shot_boards (p2 s) (p1 s) r c aimed newShots newGrid
                Hf2 Hf1 Hpl1 Hfired Haimed Hws Hwg) as (Hf2' & Hf1' & Hpl1').
    unfold battleshipInv. cbn [p1 p2 phase winner].
    split; [done|]. split; [done|].
    match goal with
    | |- context [forallb ?f ?l] => destruct (forallb f l) eqn:Hall
    end.
    + split; [done|]. split; [done|]. exists P2. rewrite Hcp2.
      split; [done|]. change (other P2) with P1. cbn [boardOf p1 p2 ships].
      by split.
    + rewrite Hph. by split_and!.
Qed.

Lemma battleshipInv_initial : battleshipInv INITIAL_STATE.
Proof.
  unfold battleshipInv. cbn [p1 p2 phase winner INITIAL_STATE].
  pose proof fleetInv_initial. pose proof unhit_initial. by split_and!.
Qed.

Lemma battleshipInv_step (s s' : BattleshipState) (a : BattleshipAction) :
  battleshipInv s -> battleshipStep s a = Return s' -> battleshipInv s'.
Proof.
  intros Hinv. destruct a as [r c|shipId| | |r c]; cbn [battleshipStep].
  - by apply placeShip_inv.
  - intros [= <-]. by apply (battleshipInv_same s).
  - intros [= <-]. by apply (battleshipInv_same s).
  - intros [= <-]. by apply finishSetup_inv.
  - by apply fireShot_inv.
Qed.

Lemma battleshipInv_play (script : list BattleshipAction) :
  forall s s' : BattleshipState,
    battleshipInv s -> playBattleship s script = Return s' -> battleshipInv s'.
Proof.
  induction script as [|a rest IH]; intros s s' Hinv Hrun.
  - cbn in Hrun. by injection Hrun as <-.
  - cbn [playBattleship] in Hrun.
    destruct (battleshipStep s a) as [s1| |] eqn:Hstep; try done.
    cbn [mbind result_bind] in Hrun.
    apply (IH s1); [by eapply battleshipInv_step|done].
Qed.

(** *** Sunk fleets and the cells of the grid *)

Lemma span_cell_status (p : PlayerBoardState) (sh : Ship) (cell : Z * Z) :
  fleetInv p -> sh ∈ ships p -> cell ∈ spanOf sh ->
  (isHitAt (grid p) cell = true /\ cellIs (grid p) hit cell)
  \/ (isHitAt (grid p) cell = false /\ cellIs (grid p) ship cell).
Proof.
  intros (_ & _ & _ & _ & _ & _ & Hcells & _) Hin Hcell.
  assert (cellIs (grid p) ship cell \/ cellIs (grid p) hit cell) as [Hc|Hc]
    by (apply Hcells; by exists sh).
  - right. split; [|done]. unfold isHitAt, cellIs in *. by rewrite Hc.
  - left. split; [|done]. unfold isHitAt, cellIs in *. by rewrite Hc.
Qed.

Lemma length_spanOf (p : PlayerBoardState) (sh : Ship) :
  fleetInv p -> sh ∈ ships p -> placed sh = true ->
  Z.of_nat (length (spanOf sh)) = size sh.
Proof.
  intros Hinv Hin Hp.
  pose proof Hinv as (_ & _ & _ & Hsz & Hpl & _).
  pose proof (fleet_size_positive p sh Hsz Hin) as Hpos.
  apply (Hpl sh Hin) in Hp. unfold spanOf.
  destruct (position sh) as [pos|]; [|done]. rewrite length_span. lia.
Qed.

Lemma sunk_ship (p : PlayerBoardState) (sh : Ship) :
  fleetInv p -> sh ∈ ships p -> placed sh = true ->
  hits sh = size sh
  <-> forall cell, cell ∈ spanOf sh -> cellIs (grid p) hit cell.
Proof.
  intros Hinv Hin Hp.
  pose proof (length_spanOf p sh Hinv Hin Hp) as Hlen.
  pose proof Hinv as (_ & _ & _ & _ & _ & _ & _ & _ & _ & Hhits).
  rewrite (Hhits sh Hin), <- Hlen. split.
  - intros Hc cell Hcell. apply Nat2Z.inj in Hc.
    pose proof (proj1 (count_all _ _) Hc cell Hcell) as Hhit.
    destruct (span_cell_status p sh cell Hinv Hin Hcell) as [[_ ?]|[? _]];
      [done|congruence].
  - intros Hall. f_equal. apply count_all. intros cell Hcell.
    specialize (Hall cell Hcell). unfold isHitAt, cellIs in *.
    by rewrite Hall.
Qed.

(** A fleet is sunk exactly when no cell of the grid is still marked
    [ship]. *)
Lemma allSunk_true (p : PlayerBoardState) :
  fleetInv p -> allPlaced (ships p) ->
  allSunk (ships p) = true -> forall cell, ~ cellIs (grid p) ship cell.
Proof.
  intros Hinv Hpl Hsunk cell Hc.
  pose proof Hinv as (_ & _ & _ & _ & _ & _ & Hcells & _).
  destruct (proj1 (Hcells cell) (or_introl Hc)) as (sh & Hin & Hcell).
  pose proof (proj1 (Forall_forall _ _) Hpl sh Hin) as Hp.
  unfold allSunk in Hsunk.
  pose proof (proj1 (forallb_forall _ _) Hsunk sh
                (proj1 (list_elem_of_In _ _) Hin)) as Hs.
  apply bool_decide_eq_true in Hs.
  pose proof (proj1 (sunk_ship p sh Hinv Hin Hp) Hs cell Hcell) as Hhit.
  unfold cellIs in *. congruence.
Qed.

Lemma count_lt_witness {A} (f : A -> bool) (l : list A) :
  count f l <> length l -> exists x, x ∈ l /\ f x = false.
Proof.
  induction l as [|x l IH]; [done|]. rewrite count_cons. cbn [length].
  destruct (f x) eqn:Hx.
  - cbn [b2n]. intros Hne. destruct IH as (y & Hy & Hfy); [lia|].
    exists y. split; [by right|done].
  - intros _. exists x. split; [by left|done].
Qed.

Lemma allSunk_false (p : PlayerBoardState) :
  fleetInv p -> allPlaced (ships p) ->
  allSunk (ships p) = false -> exists cell, cellIs (grid p) ship cell.
Proof.
  intros Hinv Hpl Hsunk.
  assert (exists sh, sh ∈ ships p /\ hits sh <> size sh) as (sh & Hin & Hne).
  { unfold allSunk in Hsunk. clear Hinv Hpl.
    induction (ships p) as [|sh l IH]; [done|].
    cbn [forallb] in Hsunk. apply andb_false_iff in Hsunk as [Hs|Hs].
    - apply bool_decide_eq_false in Hs. exists sh. split; [by left|done].
    - destruct (IH Hs) as (y & Hy & Hne). exists y. split; [by right|done]. }
  pose proof (proj1 (Forall_forall _ _) Hpl sh Hin) as Hp.
  pose proof (length_spanOf p sh Hinv Hin Hp) as Hlen.
  pose proof Hinv as (_ & _ & _ & _ & _ & _ & _ & _ & _ & Hhits).
  rewrite (Hhits sh Hin), <- Hlen in Hne.
  destruct (count_lt_witness (isHitAt (grid p)) (spanOf sh))
    as (cell & Hcell & Hnot); [lia|].
  exists cell.
  destruct (span_cell_status p sh cell Hinv Hin Hcell) as [[? _]|[_ ?]];
    [congruence|done].
Qed.

End BattleshipShots.

(** X19. In every state that a sequence of Battleship operations reaches
    from [INITIAL_STATE] (when none of them raises), each player's board
    is in order: both grids are six by six; the ships are the five
    initial ones, with their ids and sizes; a ship is placed exactly when
    it has a position, and then lies inside the grid; the cells marked
    [ship] or [hit] are exactly the cells of the ships; the own grid
    never holds [miss]; no two ships share a cell; and each ship's hit
    count is the number of its cells marked [hit]. *)
Theorem battleship_fleet_invariant :
  forall (script : list BattleshipAction) (s : Battleship.BattleshipState),
    playBattleship Battleship.INITIAL_STATE script = Return s ->
    fleetInv (Battleship.p1 s) /\ fleetInv (Battleship.p2 s).
Proof.
  intros script s Hrun.
  destruct (battleshipInv_play script _ s battleshipInv_initial Hrun)
    as (Hf1 & Hf2 & _).
  by split.
Qed.

(** X20. In every state that a sequence of Battleship operations reaches
    from [INITIAL_STATE]: the phase is [finished] exactly when a winner
    is recorded; the winner's opponent then has no cell marked [ship]
    left while the winner still has one; while shots are being exchanged
    both players still have a cell marked [ship]; and during the setup
    phases no cell is marked [hit]. *)
Theorem battleship_outcome :
  forall (script : list BattleshipAction) (s : Battleship.BattleshipState),
    playBattleship Battleship.INITIAL_STATE script = Return s ->
    (Battleship.phase s = Battleship.finished
     <-> exists w, Battleship.winner s = Some w)
    /\ (forall w, Battleship.winner s = Some w ->
          (forall cell,
             ~ cellIs (Battleship.grid (boardOf (other w) s))
                 Battleship.ship cell)
          /\ exists cell,
               cellIs (Battleship.grid (boardOf w s)) Battleship.ship cell)
    /\ (Battleship.phase s = Battleship.phase_in_progress ->
        forall w, exists cell,
          cellIs (Battleship.grid (boardOf w s)) Battleship.ship cell)
    /\ (Battleship.phase s = Battleship.setup_p1
        \/ Battleship.phase s = Battleship.setup_p2 ->
        forall w cell,
          ~ cellIs (Battleship.grid (boardOf w s)) Battleship.hit cell).
Proof.
  intros script s Hrun.
  destruct (battleshipInv_play script _ s battleshipInv_initial Hrun)
    as (Hf1 & Hf2 & Hph).
  assert (forall w, fleetInv (boardOf w s)) as Hf by (by intros []).
  destruct (Battleship.phase s) eqn:Hphase.
  - destruct Hph as (Hu1 & Hu2 & Hwin). rewrite Hwin. split_and!.
    + split; [done|by intros [w ?]].
    + done.
    + done.
    + intros _ [] cell; [apply Hu1|apply Hu2].
  - destruct Hph as (Hu1 & Hu2 & Hwin & _). rewrite Hwin. split_and!.
    + split; [done|by intros [w ?]].
    + done.
    + done.
    + intros _ [] cell; [apply Hu1|apply Hu2].
  - destruct Hph as (Hpl1 & Hpl2 & Hs1 & Hs2 & Hwin). rewrite Hwin.
    split_and!.
    + split; [done|by intros [w ?]].
    + done.
    + intros _ []; by apply allSunk_false.
    + by intros [?|?].
  - destruct Hph as (Hpl1 & Hpl2 & w & Hwin & Hsunk & Hfloat).
    assert (forall w', allPlaced (Battleship.ships (boardOf w' s))) as Hpl
      by (by intros []).
    rewrite Hwin. split_and!.
    + split; [by exists w|done].
    + intros w' [= <-]. split.
      * by apply allSunk_true.
      * by apply allSunk_false.
    + done.
    + by intros [?|?].
Qed.

Lemma battleship_fleet_invariant_witness :
  fleetInv (Battleship.p1 Examples.game_over)
  /\ fleetInv (Battleship.p2 Examples.game_over).
Proof.
  apply (battleship_fleet_invariant (Examples.to_last_shot ++ [FireShot 4 1])
           Examples.game_over).
  by vm_compute.
Defined.

Lemma battleship_outcome_witness :
  (Battleship.phase Examples.before_last_shot = Battleship.finished
   <-> exists w, Battleship.winner Examples.before_last_shot = Some w)
  /\ (forall w, Battleship.winner Examples.before_last_shot = Some w ->
        (forall cell,
           ~ cellIs
               (Battleship.grid (boardOf (other w) Examples.before_last_shot))
               Battleship.ship cell)
        /\ exists cell,
             cellIs (Battleship.grid (boardOf w Examples.before_last_shot))
               Battleship.ship cell)
  /\ (Battleship.phase Examples.before_last_shot
      = Battleship.phase_in_progress ->
      forall w, exists cell,
        cellIs (Battleship.grid (boardOf w Examples.before_last_shot))
          Battleship.ship cell)
  /\ (Battleship.phase Examples.before_last_shot = Battleship.setup_p1
      \/ Battleship.phase Examples.before_last_shot = Battleship.setup_p2 ->
      forall w cell,
        ~ cellIs (Battleship.grid (boardOf w Examples.before_last_shot))
            Battleship.hit cell).
Proof.
  apply (battleship_outcome Examples.to_last_shot Examples.before_last_shot).
  by vm_compute.
Defined.

(** ** Turkish Wordle: the colour of a key *)

Section WordleKeys.

Import TurkishWordle.

Lemma findLetter_filled (row : GuessRow) (key : jsstring) :
  Forall (fun slot => slot <> None) row ->
  exists letter,
    findLetter row key = Return letter
    /\ firstMark row key = feedback <$> letter.
Proof.
  induction 1 as [|slot row Hslot Hrow IH]; [by exists None|].
  destruct slot as [l|]; [|done]. cbn [findLetter firstMark].
  case_bool_decide; [by exists (Some l)|done].
Qed.

Lemma elem_of_marks (x : LetterFeedback)
    (m : option LetterFeedback) (marks : list (option LetterFeedback)) :
  bool_decide (Some x ∈ m :: marks)
  = bool_decide (m = Some x) || bool_decide (Some x ∈ marks).
Proof.
  destruct (decide (m = Some x)) as [->|Hne].
  - rewrite (bool_decide_eq_true_2 (Some x = Some x)) by done.
    apply bool_decide_eq_true_2. by left.
  - rewrite (bool_decide_eq_false_2 (m = Some x)) by done. cbn [orb].
    apply bool_decide_ext. rewrite elem_of_cons.
    split; [intros [?|?]; [congruence|done]|by right].
Qed.

Ltac best_marks :=
  unfold bestMark; rewrite !elem_of_marks;
  repeat match goal with
         | |- context [bool_decide (Some ?x ∈ ?l)] =>
             destruct (bool_decide (Some x ∈ l))
         end;
  reflexivity.

(** The loop, started with any mark but [correct] and [empty]. *)
Lemma keyFeedback_spec (key : jsstring) (guesses : list GuessRow) :
  forall acc : option LetterFeedback,
    acc <> Some correct -> acc <> Some empty ->
    rowsFilled guesses ->
    keyFeedback guesses key acc
    = Return (bestMark (acc :: ((fun row => firstMark row key) <$> guesses))).
Proof.
  induction guesses as [|row rest IH]; intros acc Hc He Hfilled.
  - cbn [keyFeedback fmap list_fmap]. by destruct acc as [[]|].
  - apply Forall_cons in Hfilled as [Hrow Hrest].
    destruct (findLetter_filled row key Hrow) as (letter & Hfind & Hmark).
    cbn [keyFeedback]. rewrite Hfind. cbn [mbind result_bind].
    rewrite fmap_cons, Hmark.
    destruct letter as [[ch fb]|]; cbn [fmap option_fmap option_map feedback].
    + destruct fb, acc as [[]|]; try done;
        match goal with
        | |- (if ?b then _ else _) = _ =>
            let b' := eval vm_compute in b in change b with b'; cbv iota
        end;
        try (match goal with
             | |- keyFeedback _ _ ?a = _ =>
                 let a' := eval vm_compute in a in change a with a'
             end;
             rewrite IH by done);
        f_equal; best_marks.
    + rewrite IH by done. f_equal. best_marks.
Qed.

End WordleKeys.

(** X21. On guessed rows without a [null] slot, the loop of
    [getKeyColor] returns the best of the marks that the rows give the
    key, where a row counts with the mark of its first letter equal to
    the key only: [correct] if some row gives [correct], else [present]
    if some row gives [present], else [absent] if some row gives
    [absent], else nothing; and [getKeyColor] returns the colours that go
    with it. *)
Theorem wordle_key_colour :
  forall (state : TurkishWordle.TurkishWordleState) (key : jsstring),
    rowsFilled (TurkishWordle.guesses state) ->
    let best :=
      bestMark ((fun row => firstMark row key)
                <$> TurkishWordle.guesses state) in
    keyFeedback (TurkishWordle.guesses state) key None = Return best
    /\ getKeyColor state key
       = Return
           match best with
           | Some TurkishWordle.correct => (str "#6AAA64", str "white")
           | Some TurkishWordle.present => (str "#C9B458", str "white")
           | Some TurkishWordle.absent => (str "#787C7E", str "white")
           | _ => (str "#F5F5F5", str "#000000")
           end.
Proof.
  intros state key Hfilled best.
  assert (keyFeedback (TurkishWordle.guesses state) key None = Return best)
    as Hloop.
  { rewrite keyFeedback_spec by done. f_equal. subst best.
    unfold bestMark. rewrite !elem_of_marks. done. }
  split; [done|]. unfold getKeyColor. by rewrite Hloop.
Qed.

Lemma wordle_key_colour_witness :
  keyFeedback (TurkishWordle.guesses MoreExamples.wordle_end) (str "E") None
  = Return
      (bestMark ((fun row => firstMark row (str "E"))
                 <$> TurkishWordle.guesses MoreExamples.wordle_end))
  /\ getKeyColor MoreExamples.wordle_end (str "E")
     = Return
         match bestMark ((fun row => firstMark row (str "E"))
                         <$> TurkishWordle.guesses MoreExamples.wordle_end)
         with
         | Some TurkishWordle.correct => (str "#6AAA64", str "white")
         | Some TurkishWordle.present => (str "#C9B458", str "white")
         | Some TurkishWordle.absent => (str "#787C7E", str "white")
         | _ => (str "#F5F5F5", str "#000000")
         end.
Proof.
  apply (wordle_key_colour MoreExamples.wordle_end (str "E")).
  unfold rowsFilled. by repeat constructor.
Defined.

(** ** Battleship: the tracking grids *)

Section BattleshipTracking.

Import Battleship.

Lemma other_other (w : Player) : other (other w) = w.
Proof. by destruct w. Qed.

Lemma other_ne (w w0 : Player) : w <> w0 -> w = other w0.
Proof. by destruct w, w0. Qed.

(** What [fireShot] returns, seen from the shooter and the target. *)
Lemma fireShot_effect (s s' : BattleshipState) (r c : Z) :
  fireShot s r c = Return s' ->
  (p1 s' = p1 s /\ p2 s' = p2 s /\ phase s' = phase s /\ winner s' = winner s)
  \/ (phase s = phase_in_progress
      /\ (phase s' = phase_in_progress \/ phase s' = finished)
      /\ exists aimed newShots newGrid,
           cellAt (shots (boardOf (currentPlayer s) s)) r c
           = Return (Some empty)
           /\ cellAt (grid (boardOf (other (currentPlayer s)) s)) r c
              = Return aimed
           /\ write (shots (boardOf (currentPlayer s) s)) r c
                (if bool_decide (aimed = Some ship) then hit else miss)
              = Return newShots
           /\ (if bool_decide (aimed = Some ship)
               then write (grid (boardOf (other (currentPlayer s)) s)) r c hit
               else Return (grid (boardOf (other (currentPlayer s)) s)))
              = Return newGrid
           /\ shots (boardOf (currentPlayer s) s') = newShots
           /\ grid (boardOf (currentPlayer s) s')
              = grid (boardOf (currentPlayer s) s)
           /\ shots (boardOf (other (currentPlayer s)) s')
              = shots (boardOf (other (currentPlayer s)) s)
           /\ grid (boardOf (other (currentPlayer s)) s') = newGrid).
Proof.
  intros Hstep. unfold fireShot in Hstep.
  case_bool_decide as Hph; [left; by injection Hstep as <-|].
  destruct (decide (currentPlayer s = P1)) as [Hcp|Hcp].
  - rewrite (bool_decide_eq_true_2 _ Hcp) in Hstep. cbv iota in Hstep.
    rewrite Hcp. change (other P1) with P2. cbn [boardOf].
    destruct (cellAt (shots (p1 s)) r c) as [fired| |] eqn:Hfired; try done.
    cbn [mbind result_bind] in Hstep.
    case_bool_decide as Hf; [left; by injection Hstep as <-|]. subst fired.
    destruct (cellAt (grid (p2 s)) r c) as [aimed| |] eqn:Haimed; try done.
    cbn [mbind result_bind] in Hstep.
    match type of Hstep with
    | mbind _ ?m = _ => destruct m as [newShots| |] eqn:Hws; try done
    end.
    cbn [mbind result_bind] in Hstep.
    match type of Hstep with
    | mbind _ ?m = _ => destruct m as [newGrid| |] eqn:Hwg; try done
    end.
    cbn [mbind result_bind] in Hstep. injection Hstep as <-.
    right. cbn [p1 p2 phase grid shots]. split; [done|]. split.
    { rewrite Hph. destruct (forallb _ _); auto. }
    by exists aimed, newShots, newGrid.
  - assert (currentPlayer s = P2) as Hcp2 by (by destruct (currentPlayer s)).
    rewrite (bool_decide_eq_false_2 _ Hcp) in Hstep. cbv iota in Hstep.
    rewrite Hcp2. change (other P2) with P1. cbn [boardOf].
    destruct (cellAt (shots (p2 s)) r c) as [fired| |] eqn:Hfired; try done.
    cbn [mbind result_bind] in Hstep.
    case_bool_decide as Hf; [left; by injection Hstep as <-|]. subst fired.
    destruct (cellAt (grid (p1 s)) r c) as [aimed| |] eqn:Haimed; try done.
    cbn [mbind result_bind] in Hstep.
    match type of Hstep with
    | mbind _ ?m = _ => destruct m as [newShots| |] eqn:Hws; try done
    end.
    cbn [mbind result_bind] in Hstep.
    match type of Hstep with
    | mbind _ ?m = _ => destruct m as [newGrid| |] eqn:Hwg; try done
    end.
    cbn [mbind result_bind] in Hstep. injection Hstep as <-.
    right. cbn [p1 p2 phase grid shots]. split; [done|]. split.
    { rewrite Hph. destruct (forallb _ _); auto. }
    by exists aimed, newShots, newGrid.
Qed.

(** [placeShip] leaves the phase and both tracking grids as they are. *)
Lemma placeShip_effect (s s' : BattleshipState) (r c : Z) :
  placeShip s r c = Return s' ->
  phase s' = phase s
  /\ shots (p1 s') = shots (p1 s) /\ shots (p2 s') = shots (p2 s)
  /\ ((phase s = phase_in_progress \/ phase s = finished) ->
      p1 s' = p1 s /\ p2 s' = p2 s).
Proof.
  intros Hstep. unfold placeShip in Hstep.
  destruct (bool_decide (phase s <> setup_p1)
            && bool_decide (phase s <> setup_p2)) eqn:Hguard;
    [by injection Hstep as <-|].
  assert (phase s = setup_p1 \/ phase s = setup_p2) as Hsetup.
  { apply andb_false_iff in Hguard as [H|H]; apply bool_decide_eq_false in H;
      apply dec_stable in H; auto. }
  assert (forall A : Prop, phase s = phase_in_progress \/ phase s = finished
                           -> A) as Hno.
  { intros A [H|H]; destruct Hsetup as [H'|H']; congruence. }
  destruct (selectedShipId (setup s)) as [[|u shipId]|];
    try (injection Hstep as <-; done).
  destruct (findIndex _ _) as [k|]; [|injection Hstep as <-; done].
  destruct (elem _ _) as [sh| |]; try done. cbn [mbind result_bind] in Hstep.
  match type of Hstep with
  | mbind _ ?m = _ => destruct m as [cleared| |]; try done
  end.
  cbn [mbind result_bind] in Hstep.
  destruct (canPlaceShip _ _ _ _ _) as [ok| |]; try done.
  cbn [mbind result_bind] in Hstep.
  destruct ok; cbn [negb] in Hstep; [|injection Hstep as <-; done].
  destruct (writeAll _ _ _) as [newGrid| |]; try done.
  cbn [mbind result_bind] in Hstep. injection Hstep as <-.
  cbn [p1 p2 phase]. split; [done|]. split.
  { by destruct (bool_decide (phase s = setup_p1)). }
  split; [by destruct (bool_decide (phase s = setup_p1))|apply Hno].
Qed.

Lemma tracks_setup (s : BattleshipState) :
  shotsEmpty (p1 s) -> shotsEmpty (p2 s) ->
  unhit (p1 s) -> unhit (p2 s) ->
  forall w, tracks s w.
Proof.
  intros He1 He2 [_ Hu1] [_ Hu2] w cell.
  assert (forall x, cellIs (shots (boardOf w s)) x cell -> x = empty) as He.
  { intros x Hx. destruct w; [by apply (He1 cell)|by apply (He2 cell)]. }
  assert (~ cellIs (grid (boardOf (other w) s)) hit cell) as Hu.
  { destruct w; [apply Hu2|apply Hu1]. }
  split_and!.
  - split; [by intros ?%He|done].
  - by intros ?%He.
  - by intros ?%He.
Qed.

Lemma tracks_same (s s' : BattleshipState) (w : Player) :
  p1 s' = p1 s -> p2 s' = p2 s -> tracks s w -> tracks s' w.
Proof.
  unfold tracks, boardOf. by intros -> ->.
Qed.

(** A shot keeps both tracking grids in agreement. *)
Lemma tracks_fire (s s' : BattleshipState) (r c : Z) :
  battleshipInv s -> (forall w, tracks s w) ->
  fireShot s r c = Return s' ->
  forall w, tracks s' w.
Proof.
  intros Hinv Htr Hstep.
  destruct (fireShot_effect s s' r c Hstep)
    as [(H1 & H2 & _)|(Hph & _ & aimed & newShots & newGrid & Hfired & Haimed
                       & Hws & Hwg & Hs0 & Hg0 & Hs1 & Hg1)].
  { intros w. by apply (tracks_same s). }
  set (w0 := currentPlayer s) in *.
  assert (forall w, fleetInv (boardOf w s)) as Hfleet.
  { destruct Hinv as (? & ? & _). by intros []. }
  pose proof (cellAt_write _ _ _ _ _ Hws) as Hnewshots.
  (* the cell aimed at is on the grid, and neither hit nor marked miss *)
  assert (exists x, aimed = Some x /\ x <> hit /\ x <> miss)
    as (x & -> & Hnothit & Hnotmiss).
  { destruct (Hfleet w0) as (_ & Hshape & _).
    pose proof (cellAt_Some_inGrid _ _ _ _ Hshape Hfired) as [Hr Hc].
    destruct (Hfleet (other w0)) as (Hgshape & _ & _ & _ & _ & _ & _ & Hmiss & _).
    destruct (gridShape_row _ r Hgshape Hr) as (rw & Hrw & Hlen).
    destruct (idx_in_range rw c) as [x Hx]; [cbn [snd] in Hc; lia|].
    rewrite cellAt_unfold, Hrw, Hx in Haimed. injection Haimed as <-.
    assert (cellAt (grid (boardOf (other w0) s)) r c = Return (Some x)) as Hx'
      by (by rewrite cellAt_unfold, Hrw, Hx).
    exists x. split; [done|]. split.
    - intros ->. destruct (Htr w0 (r, c)) as ([_ Hback] & _).
      specialize (Hback Hx'). unfold cellIs in Hback. cbn [fst snd] in Hback.
      congruence.
    - intros ->. by apply (Hmiss (r, c)). }
  assert (forall r' c',
            cellAt (grid (boardOf (other w0) s')) r' c'
            = if decide ((r', c') = (r, c))
              then Return (Some (if bool_decide (x = ship) then hit else x))
              else cellAt (grid (boardOf (other w0) s)) r' c') as Hnewgrid.
  { intros r' c'. rewrite Hg1.
    assert (bool_decide (Some x = Some ship) = bool_decide (x = ship)) as Heq.
    { apply bool_decide_ext. split; [by intros [= ->]|by intros ->]. }
    rewrite Heq in Hwg. destruct (bool_decide (x = ship)).
    - by rewrite (cellAt_write _ _ _ _ _ Hwg).
    - injection Hwg as <-.
      destruct (decide ((r', c') = (r, c))) as [[= -> ->]|Hrc]; done. }
  assert (bool_decide (Some x = Some ship) = bool_decide (x = ship)) as Heq.
  { apply bool_decide_ext. split; [by intros [= ->]|by intros ->]. }
  rewrite Heq in Hnewshots.
  intros w [r' c']. unfold tracks, cellIs in *. cbn [fst snd].
  destruct (decide (w = w0)) as [->|Hw].
  - rewrite Hs0, !Hnewshots, !Hnewgrid.
    destruct (Htr w0 (r', c')) as (Hhit & Hmiss & Hship). cbn [fst snd] in *.
    destruct (decide ((r', c') = (r, c))) as [Hrc|Hrc]; [|done].
    destruct (bool_decide (x = ship)) eqn:Hx.
    + split_and!; try done.
    + apply bool_decide_eq_false in Hx.
      split_and!; try done.
      * split; [done|]. intros [= ->]. by destruct Hnothit.
      * intros _. f_equal. f_equal. by destruct x.
  - apply other_ne in Hw as ->. rewrite other_other.
    rewrite Hs1, Hg0. pose proof (Htr (other w0) (r', c')) as Hold.
    cbn [fst snd] in Hold. by rewrite other_other in Hold.
Qed.

Lemma shotsEmpty_initial : shotsEmpty createInitialPlayerState.
Proof. intros cell x Hx. by apply empty_grid_cell in Hx. Qed.

Lemma trackingInv_step (s s' : BattleshipState) (a : BattleshipAction) :
  battleshipInv s -> trackingInv s ->
  battleshipStep s a = Return s' -> trackingInv s'.
Proof.
  intros Hinv Htr Hstep.
  pose proof (battleshipInv_step s s' a Hinv Hstep) as Hinv'.
  destruct a as [r c|shipId| | |r c]; cbn [battleshipStep] in Hstep.
  - destruct (placeShip_effect s s' r c Hstep) as (Hph & Hs1 & Hs2 & Hsame).
    unfold trackingInv in *. rewrite Hph.
    destruct (phase s) eqn:Hphase.
    + unfold shotsEmpty in *. by rewrite Hs1, Hs2.
    + unfold shotsEmpty in *. by rewrite Hs1, Hs2.
    + destruct Hsame as [H1 H2]; [by left|].
      intros w. by apply (tracks_same s).
    + destruct Hsame as [H1 H2]; [by right|].
      intros w. by apply (tracks_same s).
  - by injection Hstep as <-.
  - by injection Hstep as <-.
  - injection Hstep as <-. unfold finishSetup in *.
    destruct (decide (phase s = setup_p1)) as [H1|H1].
    + unfold trackingInv in Htr. rewrite H1 in Htr.
      destruct (existsb _ _); unfold trackingInv;
        cbn [phase with_message p1 p2]; [by rewrite H1|done].
    + destruct (decide (phase s = setup_p2)) as [H2|H2]; [|done].
      unfold trackingInv in Htr. rewrite H2 in Htr. destruct Htr as [He1 He2].
      destruct (existsb _ _) eqn:Hex; unfold trackingInv;
        cbn [phase with_message p1 p2]; [by rewrite H2|].
      destruct Hinv as (_ & _ & Hph). rewrite H2 in Hph.
      destruct Hph as (Hu1 & Hu2 & _).
      intros w. apply (tracks_same s); [done|done|].
      by apply tracks_setup.
  - destruct (decide (phase s = phase_in_progress)) as [Hph|Hph].
    + unfold trackingInv in Htr. rewrite Hph in Htr.
      pose proof (tracks_fire s s' r c Hinv Htr Hstep) as Htr'.
      destruct (fireShot_effect s s' r c Hstep)
        as [(_ & _ & Hsame & _)|(_ & [Hp|Hp] & _)];
        unfold trackingInv; [by rewrite Hsame, Hph|by rewrite Hp..].
    + unfold fireShot in Hstep.
      rewrite bool_decide_eq_true_2 in Hstep by done. by injection Hstep as <-.
Qed.

Lemma trackingInv_play (script : list BattleshipAction) :
  forall s s' : BattleshipState,
    battleshipInv s -> trackingInv s ->
    playBattleship s script = Return s' -> trackingInv s'.
Proof.
  induction script as [|a rest IH]; intros s s' Hinv Htr Hrun.
  - cbn in Hrun. by injection Hrun as <-.
  - cbn [playBattleship] in Hrun.
    destruct (battleshipStep s a) as [s1| |] eqn:Hstep; try done.
    cbn [mbind result_bind] in Hrun.
    apply (IH s1); [by eapply battleshipInv_step
                   |by eapply trackingInv_step|done].
Qed.

End BattleshipTracking.

(** X22. In every state that a sequence of Battleship operations reaches
    from [INITIAL_STATE], each player's tracking grid agrees with the
    opponent's grid: it shows [hit] exactly on the opponent's cells
    marked [hit], shows [miss] only where the opponent's grid is [empty],
    and never shows [ship]. *)
Theorem battleship_tracking_grids :
  forall (script : list BattleshipAction) (s : Battleship.BattleshipState)
         (w : Player),
    playBattleship Battleship.INITIAL_STATE script = Return s ->
    tracks s w.
Proof.
  intros script s w Hrun.
  pose proof (battleshipInv_play script _ s battleshipInv_initial Hrun)
    as Hinv.
  assert (trackingInv Battleship.INITIAL_STATE) as Htr0.
  { split; apply shotsEmpty_initial. }
  pose proof (trackingInv_play script _ s battleshipInv_initial Htr0 Hrun)
    as Htr.
  unfold trackingInv in Htr. destruct Hinv as (_ & _ & Hph).
  destruct (Battleship.phase s).
  - destruct Htr, Hph as (? & ? & _). by apply tracks_setup.
  - destruct Htr, Hph as (? & ? & _). by apply tracks_setup.
  - apply Htr.
  - apply Htr.
Qed.

Lemma battleship_tracking_grids_witness : tracks Examples.game_over P1.
Proof.
  apply (battleship_tracking_grids (Examples.to_last_shot ++ [FireShot 4 1])
           Examples.game_over P1).
  by vm_compute.
Defined.

(** ** TicTacToe: turns and the draw *)

Section TicTacToeTurns.

Import TicTacToe.

Lemma count_two_le {A} (f g : A -> bool) (l : list A) :
  (forall x, f x = true -> g x = false) ->
  (count f l + count g l <= length l)%nat.
Proof.
  intros Hfg. induction l as [|x l IH]; [done|].
  rewrite !count_cons. cbn [length].
  specialize (Hfg x). destruct (f x), (g x); cbn [b2n]; try lia.
  all: by specialize (Hfg eq_refl).
Qed.

Lemma marksOf_le (board : TicTacToeBoardState) :
  (marksOf P1 board + marksOf P2 board <= length board)%nat.
Proof.
  apply count_two_le. intros x Hx. apply bool_decide_eq_true in Hx as ->.
  by apply bool_decide_eq_false_2.
Qed.

Lemma marksOf_mark (p q : Player) (board : TicTacToeBoardState) (i : Z) :
  idx board i = Some None ->
  marksOf p (set_idx board i (Some q))
  = (marksOf p board + b2n (bool_decide (q = p)))%nat.
Proof.
  intros Hi. unfold marksOf, set_idx. unfold idx in Hi.
  case_decide as H0; [|done].
  pose proof (count_insert (fun x => bool_decide (x = Some p)) board
                (Z.to_nat i) (Some q) None Hi) as Hc.
  cbn beta in Hc.
  rewrite (bool_decide_eq_false_2 (None = Some p)) in Hc by done.
  assert (bool_decide (Some q = Some p) = bool_decide (q = p)) as Heq.
  { apply bool_decide_ext. split; [by intros [= ->]|by intros ->]. }
  rewrite Heq in Hc. change (b2n false) with 0%nat in Hc.
  unfold TicTacToeBoardState, CellValue in *. lia.
Qed.

Lemma checkDraw_true (board : TicTacToeBoardState) (i : Z) :
  checkDraw board = true -> 0 <= i < Z.of_nat (length board) ->
  exists p, idx board i = Some (Some p).
Proof.
  intros Hd Hi. destruct (idx_in_range board i Hi) as [x Hx].
  pose proof (proj1 (forallb_forall _ _) Hd x) as Hnot.
  rewrite <- list_elem_of_In in Hnot.
  specialize (Hnot (idx_elem_of _ _ _ Hx)).
  apply bool_decide_eq_true in Hnot.
  destruct x as [p|]; [by exists p|done].
Qed.

Lemma checkDraw_false (board : TicTacToeBoardState) :
  checkDraw board = false -> exists i, idx board i = Some None.
Proof.
  unfold checkDraw. induction board as [|x l IH]; [done|].
  cbn [forallb]. intros [Hx|Hl]%andb_false_iff.
  - apply bool_decide_eq_false in Hx. apply dec_stable in Hx as ->.
    by exists 0.
  - destruct (IH Hl) as [i Hi]. exists (i + 1).
    unfold idx in *. case_decide as H0; [|done].
    rewrite decide_True by lia.
    by replace (Z.to_nat (i + 1)) with (S (Z.to_nat i)) by lia.
Qed.

Lemma tictactoeTurnInv_makeMove (s : TicTacToeState) (index : Z) :
  tictactoeTurnInv s -> tictactoeTurnInv (makeMove s index).
Proof.
  intros Hinv. unfold makeMove.
  destruct (decide (status s = in_progress)) as [Hst|Hst].
  2:{ by rewrite (bool_decide_eq_true_2 (status s <> in_progress)). }
  rewrite (bool_decide_eq_false_2 (status s <> in_progress)) by auto.
  cbn [orb]. case_bool_decide as Hcell; [done|].
  destruct Hinv as (Hlen & Hcount & _ & _).
  remember (currentPlayer s) as mover eqn:Hmover.
  set (newBoard := set_idx (board s) index (Some mover)).
  assert (length newBoard = 9%nat) as Hlen'
    by (subst newBoard; by rewrite length_set_idx).
  assert (marksOf P1 newBoard
          = (marksOf P2 newBoard + b2n (bool_decide (mover = P1)))%nat)
    as Hcount'.
  { subst newBoard. rewrite !marksOf_mark by done. rewrite Hcount.
    unfold lastMarker. rewrite (bool_decide_eq_true_2 _ Hst).
    rewrite <- Hmover. clear. destruct mover; vm_compute; lia. }
  pose proof (marksOf_le newBoard) as Hle. rewrite Hlen' in Hle.
  destruct (checkWinner newBoard) as [p|] eqn:Hw.
  - unfold tictactoeTurnInv, lastMarker.
    cbn [board currentPlayer status winner]. by split_and!.
  - destruct (checkDraw newBoard) eqn:Hd.
    + unfold tictactoeTurnInv, lastMarker.
      cbn [board currentPlayer status winner]. split_and!; try done.
      intros i Hi. apply checkDraw_true; [done|lia].
    + unfold tictactoeTurnInv, lastMarker.
      cbn [board currentPlayer status winner]. split_and!; try done.
      * rewrite Hcount'. clear. by destruct mover.
      * by apply checkDraw_false.
Qed.

Lemma tictactoeTurnInv_play (moves : list Z) :
  forall s, tictactoeTurnInv s -> tictactoeTurnInv (playTicTacToe s moves).
Proof.
  unfold playTicTacToe. induction moves as [|m rest IH]; intros s Hinv;
    [done|].
  cbn [foldl]. apply IH. by apply tictactoeTurnInv_makeMove.
Qed.

End TicTacToeTurns.

(** X23. In every state that a sequence of [makeMove] calls reaches from
    [INITIAL_STATE], whatever the indices: the board keeps its nine
    cells; P1 has as many marks as P2, plus one when P1 made the last
    mark; there are at most nine marks; while the status is
    [in_progress] some cell is still empty; on [draw] there is no winner
    and every cell is marked; and the status is never [lose]. *)
Theorem tictactoe_turns_and_draw :
  forall (moves : list Z),
    tictactoeTurnInv (playTicTacToe TicTacToe.INITIAL_STATE moves).
Proof.
  intros moves. apply tictactoeTurnInv_play.
  unfold tictactoeTurnInv. cbn [TicTacToe.board TicTacToe.status
                                 TicTacToe.INITIAL_STATE].
  split_and!; try done.
  - vm_compute. lia.
  - by exists 0.
Qed.

(** X24. The two setup controls of Battleship act on the [setup] record
    only, in every phase: [toggleOrientation] twice gives the state back;
    of two [selectShip] calls the later one decides; the two controls
    commute; and neither changes the boards, the phase, the turn, the
    winner or the message. *)
Theorem battleship_setup_controls :
  forall (s : Battleship.BattleshipState) (shipId shipId' : jsstring),
    Battleship.toggleOrientation (Battleship.toggleOrientation s) = s
    /\ Battleship.selectShip (Battleship.selectShip s shipId) shipId'
       = Battleship.selectShip s shipId'
    /\ Battleship.selectShip (Battleship.toggleOrientation s) shipId
       = Battleship.toggleOrientation (Battleship.selectShip s shipId)
    /\ same_but_setup s (Battleship.toggleOrientation s)
    /\ same_but_setup s (Battleship.selectShip s shipId)
    /\ Battleship.selectedShipId
         (Battleship.setup (Battleship.selectShip s shipId))
       = Some shipId
    /\ Battleship.setup_orientation
         (Battleship.setup (Battleship.toggleOrientation s))
       <> Battleship.setup_orientation (Battleship.setup s).
Proof.
  intros [cp st w m ph b1 b2 msg [sel o]] shipId shipId'.
  unfold Battleship.toggleOrientation, Battleship.selectShip,
    Battleship.with_setup, same_but_setup.
  cbn [Battleship.setup Battleship.selectedShipId Battleship.setup_orientation
       Battleship.currentPlayer Battleship.status Battleship.winner
       Battleship.mode Battleship.phase Battleship.p1 Battleship.p2
       Battleship.lastActionMessage].
  split_and!; try done; by destruct o.
Qed.
